(** * Inversion scanning (asmlib/inv.py): a shallow embedding and its properties

    The development follows [src/asmlib/inv.py]: the constants, the [InvCall]
    record with its constructor, the expand-and-retest loop of [scan_for_inv],
    the code that characterises a found region, and [annotate_inv_dup_mers].

    Collaborators that live outside [inv.py] (sequence access, k-mer
    utilities, the alignment lift, the density smoother and [Region.expand])
    are the fields of an environment record [Env]; the theorems quantify over
    every environment, and concrete environments are used to run the code. *)

From Stdlib Require Import ZArith QArith Qround Qminmax Lia String Ascii DecimalString.
From Stdlib Require Import Sorted.
From Stdlib Require DecimalPos DecimalZ.
From stdpp Require Import base gmap list strings.

Local Open Scope Z_scope.

(** ** Constants *)

Definition INITIAL_EXPAND : Z := 4000.
Definition EXPAND_FACTOR : Q := 1.5.
Definition MIN_REGION_SIZE : Z := 5000.
Definition MAX_REGION_SIZE : Z := 1000000.
Definition MAX_REF_KMER_COUNT : Z := 100.
Definition MIN_INFORMATIVE_KMERS : Z := 2000.
Definition MIN_KMER_STATE_COUNT : Z := 20.
Definition DENSITY_SMOOTH_FACTOR : Q := 1.
Definition MIN_INV_KMER_RUN : Z := 100.
Definition MIN_TIG_REF_PROP : Q := 0.6.
Definition MIN_EXP_COUNT : Z := 3.

(** ** Python and numpy helpers *)

(** [l[i]] with Python's negative indices; [None] stands for [IndexError]. *)
Definition py_index {A} (l : list A) (i : Z) : option A :=
  let n := Z.of_nat (length l) in
  let j := if i <? 0 then i + n else i in
  if (0 <=? j) && (j <? n) then l !! Z.to_nat j else None.

(** [np.max] of a list of integers; [None] on the empty list. *)
Definition np_max (l : list Z) : option Z :=
  match l with
  | [] => None
  | x :: rest => Some (fold_left Z.max rest x)
  end.

(** [np.max] of a sequence of numbers (densities); [None] on the empty one. *)
Definition np_max_Q (l : list Q) : option Q :=
  match l with
  | [] => None
  | x :: rest => Some (fold_left Qmax rest x)
  end.

(** Conversion of a number to an integer truncates towards zero. *)
Definition Qtrunc (q : Q) : Z :=
  if Qle_bool 0 q then Qfloor q else Qceiling q.

(** [np.int32]: the value is kept on 32 bits, two's complement.  Inside the
    32-bit range this is the identity; what numpy does outside of it depends
    on the platform, and the properties below that depend on the value assume
    the range ([expand_fits_int32]). *)
Definition np_int32 (x : Z) : Z := (x + 2 ^ 31) mod 2 ^ 32 - 2 ^ 31.

Definition Qltb (x y : Q) : bool := negb (Qle_bool y x).

(** ['{}'.format(n)] for an integer. *)
Definition format_int (n : Z) : string := NilZero.string_of_int (Z.to_int n).

(** ** Data model *)

(** [asmlib.seq.Region]: a half-open interval [pos, end) on [chrom]. *)
Record Region := mkRegion {
  chrom : string;
  pos : Z;
  end_ : Z;
  is_rev : bool
}.

(** [asmlib.seq.Region(chrom, pos, end)]. *)
Definition new_Region (c : string) (p e : Z) : Region := mkRegion c p e false.

(** [len(region)], that is [Region.__len__]: [end - pos].  A [Region] keeps
    [pos <= end]; on a value with [end < pos] Python's [len()] raises
    [ValueError] and never returns a negative number, so the value of
    [region_len] is [len(region)] for the regions that respect this, and
    those are the regions the properties below speak about. *)
Definition region_len (r : Region) : Z := end_ r - pos r.

(** Orientation states of the state table: 0 (fwd), 1 (fwd-rev), 2 (rev). *)
Definition FWD : Z := 0.
Definition FWDREV : Z := 1.
Definition REV : Z := 2.

(** A row of the smoothed state table (the columns [inv.py] reads).  The
    densities are floating-point numbers in the source and rationals here. *)
Record Row := mkRow {
  KMER : Z;
  INDEX : Z;
  STATE : Z;
  KERN_FWD : Q;
  KERN_FWDREV : Q;
  KERN_REV : Q
}.

(** A run-length record [(state, count, pos, end)]. *)
Record Run := mkRun {
  rl_state : Z;
  rl_count : Z;
  rl_pos : Z;
  rl_end : Z
}.

(** Modelled from the spec: [asmlib.density.rl_encoder] is not part of
    [inv.py].  The spec describes a run-length segment as
    [(state, run_length, start_index, end_index)] derived from the smoothed
    state table, one segment per maximal block of contiguous rows with the
    same state; the indices are the [INDEX] values of the first and the last
    row of the block. *)
Fixpoint rl_encoder_from (cur : Run) (rows : list Row) : list Run :=
  match rows with
  | [] => [cur]
  | r :: rest =>
      if STATE r =? rl_state cur
      then rl_encoder_from
             (mkRun (rl_state cur) (rl_count cur + 1) (rl_pos cur) (INDEX r)) rest
      else cur :: rl_encoder_from (mkRun (STATE r) 1 (INDEX r) (INDEX r)) rest
  end.

Definition rl_encoder (df : list Row) : list Run :=
  match df with
  | [] => []
  | r :: rest => rl_encoder_from (mkRun (STATE r) 1 (INDEX r) (INDEX r)) rest
  end.

(** Flank and match labels written by the annotation; [None] is [NaN]. *)
Inductive Flank := UP | DN.
Inductive MatchCell := NA | OTHER | SAME.

(** A row of the annotated table: the input columns plus [FLANK] and [MATCH]. *)
Record ARow := mkARow {
  row : Row;
  FLANK : option Flank;
  MATCH : option MatchCell
}.

(** [KMER_LOC_STATE[in-upstream, in-dnstream]]. *)
Definition KMER_LOC_STATE (i j : bool) : MatchCell :=
  match i, j with
  | false, false => NA
  | false, true => OTHER
  | true, false => SAME
  | true, true => NA
  end.

(** ** Environment: the collaborators of [inv.py] *)

Record Env := mkEnv {
  (* analib.ref.get_df_fai(ref_fa + '.fai'): chromosome lengths *)
  df_fai : string -> Z;
  (* Region.expand(expand_bp, min_pos, max_end, shift, balance) *)
  expand : Region -> Z -> Z -> (string -> Z) -> bool -> Q -> Region;
  (* align_lift.lift_region_to_qry / lift_region_to_sub *)
  lift_region_to_qry : Region -> option Region;
  lift_region_to_sub : Region -> option Region;
  (* asmlib.seq.ref_kmers(region, ref_fa, k_util): k-mer -> count *)
  ref_kmers : Region -> option (list (Z * Z));
  (* asmlib.seq.region_seq(region, tig_fa, is_rev) *)
  region_seq : Region -> bool -> string;
  (* kanapy.util.kmer.stream(seq, k_util, index=True) *)
  kmer_stream : string -> list (Z * Z);
  (* asmlib.density.get_smoothed_density *)
  get_smoothed_density : list (Z * Z) -> gset Z -> Z -> Q -> Z -> list Row;
  (* k_util.k_size, k_util.canonical_complement *)
  k_size : Z;
  canonical_complement : Z -> Z
}.

(** ** Results *)

(** The reason logged with each [return None]. *)
Inductive NoCallReason :=
  | LiftFailed
  | NoRefKmers
  | KmerCountExceeds (max_mer_count : Z)
  | NoInformativeKmers
  | NoInvertedAfterExpansions (expansion_count : Z)
  | ReachedLimits
  | NoInvertedStates
  | InvRunTooShort (max_inv_run : Z)
  | RefTooShort
  | TigTooShort.

(** Exceptions. [RuntimeError] is the one [inv.py] raises itself; the others
    come from using [None] or an index out of range. *)
Inductive PyError :=
  | RuntimeError (region_ref : Region)
  | TypeError
  | AttributeError
  | IndexError
  | ValueError.

(** ** [InvCall] *)

Module InvCall.

Record t := mk {
  region_ref_outer : Region;
  region_ref_inner : Region;
  region_tig_outer : Region;
  region_tig_inner : Region;
  region_ref_discovery : Region;
  region_tig_discovery : Region;
  region_flag : Region;
  df : list ARow;
  svlen : Z;
  id : string;
  max_inv_den_diff : option Q
}.

(** The rows selected by [df['STATE'] == 2]. *)
Definition rev_rows (df : list ARow) : list ARow :=
  filter (λ r, STATE (row r) = 2) df.

(** [KERN_REV - max(KERN_FWD, KERN_FWDREV)] of one row. *)
Definition den_diff (r : ARow) : Q :=
  (KERN_REV (row r) - Qmax (KERN_FWD (row r)) (KERN_FWDREV (row r)))%Q.

(** [InvCall.__init__]. *)
Definition init
    (region_ref_outer region_ref_inner : Region)
    (region_tig_outer region_tig_inner : Region)
    (region_ref_discovery region_tig_discovery : Region)
    (region_flag : Region) (df : list ARow) : t :=
  let svlen := region_len region_ref_outer in
  let id :=
    String.append (chrom region_ref_outer)
      (String.append "-"
         (String.append (format_int (pos region_ref_outer + 1))
            (String.append "-INV-" (format_int svlen)))) in
  let max_inv_den_diff := np_max_Q (map den_diff (rev_rows df)) in
  mk region_ref_outer region_ref_inner region_tig_outer region_tig_inner
     region_ref_discovery region_tig_discovery region_flag df
     svlen id max_inv_den_diff.

End InvCall.

(** What a call of [scan_for_inv] ends with. [OutOfFuel] belongs to the model
    only: the loop is run for a bounded number of iterations. *)
Inductive Result :=
  | Call (c : InvCall.t)
  | NoCall (reason : NoCallReason)
  | Raised (e : PyError)
  | OutOfFuel.

(** ** [annotate_inv_dup_mers] *)

(** The table while it is being annotated: the helper columns [KMER_CAN] and
    [TIG_INDEX] are present, and are dropped at the end. *)
Record WRow := mkWRow {
  w_row : Row;
  KMER_CAN : Z;
  TIG_INDEX : Z;
  w_FLANK : option Flank;
  w_MATCH : option MatchCell
}.

Definition in_window (r : WRow) (region_dup : Region) (k : Z) : bool :=
  (TIG_INDEX r >=? pos region_dup) && (TIG_INDEX r <? end_ region_dup - k).

Definition set_flank (region_dup : Region) (k : Z) (label : Flank) (r : WRow) : WRow :=
  if in_window r region_dup k
  then mkWRow (w_row r) (KMER_CAN r) (TIG_INDEX r) (Some label) (w_MATCH r)
  else r.

Definition flank_is (r : WRow) (label : Flank) : bool :=
  match w_FLANK r, label with
  | Some UP, UP | Some DN, DN => true
  | _, _ => false
  end.

(** [df.loc[df['FLANK'] == label, 'MATCH'] = KMER_LOC_STATE[kmer in own, kmer in other]] *)
Definition set_match (label : Flank) (ref_set_own ref_set_other : gset Z) (r : WRow) : WRow :=
  if flank_is r label
  then mkWRow (w_row r) (KMER_CAN r) (TIG_INDEX r) (w_FLANK r)
         (Some (KMER_LOC_STATE (bool_decide (KMER (w_row r) ∈ ref_set_own))
                               (bool_decide (KMER (w_row r) ∈ ref_set_other))))
  else r.

(** [val if val != 'NA' else np.nan] *)
Definition drop_NA (r : WRow) : WRow :=
  match w_MATCH r with
  | Some NA => mkWRow (w_row r) (KMER_CAN r) (TIG_INDEX r) (w_FLANK r) None
  | _ => r
  end.

(** [del(df['KMER_CAN']); del(df['TIG_INDEX'])] *)
Definition drop_helper_columns (r : WRow) : ARow :=
  mkARow (w_row r) (w_FLANK r) (w_MATCH r).

(** The canonical reference k-mer set of a region; [None] when [ref_kmers]
    gives no table ([.keys()] then fails). *)
Definition ref_set (env : Env) (region_dup : Region) : option (gset Z) :=
  match ref_kmers env region_dup with
  | None => None
  | Some counts => Some (list_to_set (map (λ kc, canonical_complement env kc.1) counts))
  end.

(** [annotate_inv_dup_mers], on regions that are present.  Its only caller,
    [scan_for_inv], can hand it [None] as [region_ref_inner] (the lift of the
    inner contig region is not tested): the source then raises
    [AttributeError] at [region_ref_inner.pos], before anything else is
    computed.  That case is the [None] branch of [check_and_call]. *)
Definition annotate_inv_dup_mers (env : Env) (df : list Row)
    (region_ref_outer region_ref_inner : Region)
    (region_tig_outer region_tig_inner : Region)
    (region_tig_discovery : Region) : PyError + list ARow :=
  let region_dup_ref_up :=
    new_Region (chrom region_ref_outer) (pos region_ref_outer) (pos region_ref_inner) in
  let region_dup_ref_dn :=
    new_Region (chrom region_ref_outer) (end_ region_ref_inner) (end_ region_ref_outer) in
  let region_dup_tig_up :=
    new_Region (chrom region_tig_outer) (pos region_tig_outer) (pos region_tig_inner) in
  let region_dup_tig_dn :=
    new_Region (chrom region_tig_outer) (end_ region_tig_inner) (end_ region_tig_outer) in
  match ref_set env region_dup_ref_up with
  | None => inl AttributeError
  | Some ref_set_up =>
    match ref_set env region_dup_ref_dn with
    | None => inl AttributeError
    | Some ref_set_dn =>
      let df := map (λ r, mkWRow r (canonical_complement env (KMER r))
                            (INDEX r + pos region_tig_discovery) None None) df in
      let df := map (set_flank region_dup_tig_up (k_size env) UP) df in
      let df := map (set_flank region_dup_tig_dn (k_size env) DN) df in
      let df := map (set_match UP ref_set_up ref_set_dn) df in
      let df := map (set_match DN ref_set_dn ref_set_up) df in
      let df := map drop_NA df in
      inr (map drop_helper_columns df)
    end
  end.

(** ** [scan_for_inv] *)

Definition state_is (record : option Run) (s : Z) : bool :=
  match record with
  | Some r => rl_state r =? s
  | None => false
  end.

Definition cstate_is (state : option Z) (s : Z) : bool :=
  match state with
  | Some x => x =? s
  | None => false
  end.

Definition len {A} (l : list A) : Z := Z.of_nat (length l).

(** The balance passed to [region_ref.expand] in the expand branch. *)
Definition expand_balance (condensed_states : list Z) : Q :=
  if len condensed_states >? 2 then
    (* More than one state. Expand disproportionately if reference was found
       up or downstream. *)
    if cstate_is (py_index condensed_states 0) 0 then 0.25%Q
    else if cstate_is (py_index condensed_states (-1)) 0 then 0.75%Q
    else 0.5%Q
  else 0.5%Q.

(** [np.int32(len(region_ref) * EXPAND_FACTOR)] *)
Definition expand_bp_of (region_ref : Region) : Z :=
  np_int32 (Qtrunc (inject_Z (region_len region_ref) * EXPAND_FACTOR)).

(** How one pass through the body of [while True] ends. *)
Inductive IterResult :=
  | IterReturn (r : Result)
  | IterBreak (region_ref region_tig : Region) (df : list Row) (state_rl : list Run)
  | IterContinue (region_ref : Region) (expansion_count : Z).

(** The first part of the loop body, up to [get_smoothed_density]: lift the
    region, count the reference k-mers, and build the smoothed state table of
    the contig region.  ([expansion_count += 1] sits in the middle of it in
    the source and is done by [scan_iter].) *)
Definition scan_table (env : Env) (region : Region) (region_ref : Region)
    : NoCallReason + (Region * list Row) :=
  match lift_region_to_qry env region_ref with
  | None => inl LiftFailed
  | Some region_tig =>
    match ref_kmers env region_ref with
    | None => inl NoRefKmers
    | Some ref_kmer_count =>
      match np_max (map snd ref_kmer_count) with
      | None => inl NoRefKmers                     (* len(ref_kmer_count) == 0 *)
      | Some max_mer_count =>
        if max_mer_count >? MAX_REF_KMER_COUNT
        then inl (KmerCountExceeds max_mer_count)
        else
          let ref_kmer_set : gset Z := list_to_set (map fst ref_kmer_count) in
          let seq_tig := region_seq env region_tig (is_rev region) in
          let tig_mer_stream := kmer_stream env seq_tig in
          let df := get_smoothed_density env tig_mer_stream ref_kmer_set
                      MIN_INFORMATIVE_KMERS DENSITY_SMOOTH_FACTOR MIN_KMER_STATE_COUNT in
          inr (region_tig, df)
      end
    end
  end.

(** [len(state_rl) == 1 and state_rl[0][0] == 0 and expansion_count >= MIN_EXP_COUNT]:
    no inverted k-mer states after enough expansions. *)
Definition no_inv_found (state_rl : list Run) (expansion_count : Z) : bool :=
  (len state_rl =? 1) && state_is (py_index state_rl 0) 0
  && (expansion_count >=? MIN_EXP_COUNT).

(** [len(condensed_states) > 2 and condensed_states[0] == 0 and condensed_states[-1] == 0]:
    reference oriented k-mers found on both sides. *)
Definition ref_on_both_sides (condensed_states : list Z) : bool :=
  (len condensed_states >? 2)
  && cstate_is (py_index condensed_states 0) 0
  && cstate_is (py_index condensed_states (-1)) 0.

(** The decision step: the body of [if df.shape[0] > 0]. *)
Definition scan_decide (env : Env) (region_ref region_tig : Region)
    (df : list Row) (expansion_count : Z) : IterResult :=
  let state_rl := rl_encoder df in
  let condensed_states := map rl_state state_rl in
  if no_inv_found state_rl expansion_count
  then IterReturn (NoCall (NoInvertedAfterExpansions expansion_count))
  else if ref_on_both_sides condensed_states
  then IterBreak region_ref region_tig df state_rl
  else
    let last_len := region_len region_ref in
    let expand_bp := expand_bp_of region_ref in
    let region_ref :=
      expand env region_ref expand_bp 0 (df_fai env) true
        (expand_balance condensed_states) in
    if region_len region_ref =? last_len
    then IterReturn (NoCall ReachedLimits)
    else IterContinue region_ref expansion_count.

(** The body of the loop, from the state [(region_ref, expansion_count)]. *)
Definition scan_iter (env : Env) (region : Region)
    (region_ref : Region) (expansion_count : Z) : IterResult :=
  match scan_table env region region_ref with
  | inl reason => IterReturn (NoCall reason)
  | inr (region_tig, df) =>
      let expansion_count := expansion_count + 1 in
      if len df >? 0
      then scan_decide env region_ref region_tig df expansion_count
      else IterReturn (NoCall NoInformativeKmers)
  end.

(** Outer contig breakpoints: second run to second-to-last run. *)
Definition tig_outer_of (env : Env) (region_tig : Region) (state_rl : list Run)
    : option Region :=
  match py_index state_rl 1, py_index state_rl (-2) with
  | Some a, Some b =>
      Some (new_Region (chrom region_tig)
              (rl_pos a + pos region_tig)
              (rl_end b + pos region_tig + k_size env))
  | _, _ => None
  end.

(** Inner contig breakpoints: first to last strictly inverted run. *)
Definition tig_inner_of (env : Env) (region_tig : Region) (state_rl_inv : list Run)
    : option Region :=
  match py_index state_rl_inv 0, py_index state_rl_inv (-1) with
  | Some a, Some b =>
      Some (new_Region (chrom region_tig)
              (rl_pos a + pos region_tig)
              (rl_end b + pos region_tig + k_size env))
  | _, _ => None
  end.

(** Size proportions, the flank annotation and the call (from "Check size
    proportions" to the end of [scan_for_inv]).  The products
    [len(...) * MIN_TIG_REF_PROP] are floating-point products in the source;
    compared with an integer length they decide as the exact products do
    (for lengths below 2^53), and the exact ones are used here.  The lifted
    regions may be [None]: [len(None)] and [None.pos] raise. *)
Definition check_and_call (env : Env)
    (region_flag region_ref region_tig : Region) (df : list Row)
    (region_tig_outer region_tig_inner : Region)
    (region_ref_outer region_ref_inner : option Region) : Result :=
  match region_ref_outer with
  | None => Raised TypeError                       (* len(None) *)
  | Some region_ref_outer =>
    if Qltb (inject_Z (region_len region_ref_outer))
            (inject_Z (region_len region_tig_outer) * MIN_TIG_REF_PROP)
    then NoCall RefTooShort
    else if Qltb (inject_Z (region_len region_tig_outer))
                 (inject_Z (region_len region_ref_outer) * MIN_TIG_REF_PROP)
    then NoCall TigTooShort
    else
      match region_ref_inner with
      | None => Raised AttributeError              (* None.pos *)
      | Some region_ref_inner =>
        match annotate_inv_dup_mers env df region_ref_outer region_ref_inner
                region_tig_outer region_tig_inner region_ref with
        | inl e => Raised e
        | inr df =>
            Call (InvCall.init region_ref_outer region_ref_inner
                    region_tig_outer region_tig_inner
                    region_ref region_tig region_flag df)
        end
      end
  end.

(** "Characterize found region": the code after the loop. *)
Definition characterize (env : Env)
    (region_flag region_ref region_tig : Region) (df : list Row)
    (state_rl : list Run) : Result :=
  if negb (existsb (λ record, rl_state record =? 2) state_rl)
  then NoCall NoInvertedStates
  else
    let state_rl_inv := filter (λ val, rl_state val = 2) state_rl in
    match np_max (map rl_count (filter (λ record, rl_state record = 2) state_rl)) with
    | None => Raised ValueError
    | Some max_inv_run =>
      if max_inv_run <? MIN_INV_KMER_RUN
      then NoCall (InvRunTooShort max_inv_run)
      else
        match py_index state_rl 0, py_index state_rl (-1) with
        | Some first, Some last =>
          if negb (rl_state first =? 0) || negb (rl_state last =? 0)
          then Raised (RuntimeError region_ref)
          else
            match tig_outer_of env region_tig state_rl with
            | None => Raised IndexError
            | Some region_tig_outer =>
              match tig_inner_of env region_tig state_rl_inv with
              | None => Raised IndexError
              | Some region_tig_inner =>
                  check_and_call env region_flag region_ref region_tig df
                    region_tig_outer region_tig_inner
                    (lift_region_to_sub env region_tig_outer)
                    (lift_region_to_sub env region_tig_inner)
              end
            end
        | _, _ => Raised IndexError
        end
    end.

(** The loop, run for at most [fuel] iterations. *)
Fixpoint scan_loop (fuel : nat) (env : Env) (region region_flag : Region)
    (region_ref : Region) (expansion_count : Z) : Result :=
  match fuel with
  | O => OutOfFuel
  | S fuel' =>
      match scan_iter env region region_ref expansion_count with
      | IterReturn r => r
      | IterBreak region_ref region_tig df state_rl =>
          characterize env region_flag region_ref region_tig df state_rl
      | IterContinue region_ref expansion_count =>
          scan_loop fuel' env region region_flag region_ref expansion_count
      end
  end.

(** The reference region the loop starts from. *)
Definition initial_region_ref (env : Env) (region : Region) : Region :=
  expand env region INITIAL_EXPAND 0 (df_fai env) true 0.5%Q.

Definition scan_for_inv (fuel : nat) (env : Env) (region : Region) : Result :=
  let region_flag := region in
  let region_ref := initial_region_ref env region in
  let expansion_count := 0 in
  scan_loop fuel env region region_flag region_ref expansion_count.

(** ** A concrete [Region.expand] and concrete environments *)

(** Modelled from the spec: [Region.expand] belongs to [asmlib.seq], not to
    [inv.py].  The spec says it grows the interval by a requested amount,
    clamped at [0] and at a per-chromosome maximum, the growth being
    distributed between the two ends by a [balance] fraction (the fraction
    applied upstream).  With [shift], growth cut off at one end is moved to
    the other end. *)
Definition Region_expand (r : Region) (expand_bp min_pos : Z)
    (max_end : string -> Z) (shift : bool) (balance : Q) : Region :=
  let expand_pos := Qtrunc (inject_Z expand_bp * balance) in
  let expand_end := expand_bp - expand_pos in
  let new_pos := pos r - expand_pos in
  let new_end := end_ r + expand_end in
  let new_end :=
    if (new_pos <? min_pos) && shift then new_end + (min_pos - new_pos) else new_end in
  let new_pos := Z.max new_pos min_pos in
  let limit := max_end (chrom r) in
  let new_pos :=
    if (new_end >? limit) && shift
    then Z.max (new_pos - (new_end - limit)) min_pos else new_pos in
  let new_end := Z.min new_end limit in
  mkRegion (chrom r) new_pos new_end (is_rev r).

(** [n] consecutive rows in state [s], contig indices from [i] on. *)
Fixpoint rows_of (s : Z) (i : Z) (n : nat) : list Row :=
  match n with
  | O => []
  | S n' =>
      mkRow (1000 + i) i s
        (if s =? 0 then 0.9 else 0.1)%Q
        (if s =? 1 then 0.8 else 0.1)%Q
        (if s =? 2 then 0.7 else 0.2)%Q
      :: rows_of s (i + 1) n'
  end.

(** FWD, FWDREV, REV, FWDREV, REV, FWDREV, FWD: an inversion with inverted
    repeats on both sides. *)
Definition table_inv : list Row :=
  rows_of 0 0 100 ++ rows_of 1 100 50 ++ rows_of 2 150 150
  ++ rows_of 1 300 20 ++ rows_of 2 320 30
  ++ rows_of 1 350 50 ++ rows_of 0 400 100.

(** As [table_inv], with too short a run of inverted k-mers. *)
Definition table_short_inv : list Row :=
  rows_of 0 0 100 ++ rows_of 2 100 50 ++ rows_of 0 150 100.

(** Reference signal only. *)
Definition table_fwd : list Row := rows_of 0 0 300.

(** FWD then REV: exactly two runs. *)
Definition table_fwd_rev : list Row := rows_of 0 0 100 ++ rows_of 2 100 150.

(** An environment: one chromosome length, contig coordinates [off] below the
    reference ones (not below 0), and the given tables. *)
Definition env_of (chrom_len off : Z)
    (kmers : Region -> option (list (Z * Z)))
    (table : list (Z * Z) -> list Row) : Env :=
  mkEnv (λ _, chrom_len) Region_expand
    (λ r, Some (mkRegion "tig1" (Z.max 0 (pos r - off)) (end_ r - off) false))
    (λ r, Some (mkRegion "chr1" (pos r + off) (end_ r + off) false))
    kmers
    (λ r _, String.string_of_list_ascii (repeat "A"%char (Z.to_nat (region_len r / 1000))))
    (λ s, [(0, Z.of_nat (String.length s))])
    (λ stream _ _ _ _, table stream)
    31 (λ kmer, Z.min kmer (5000 - kmer)).

Definition kmers_flat : Region -> option (list (Z * Z)) :=
  λ _, Some [(1, 1); (2, 3)].

Definition env_inv : Env := env_of 100000 5000 kmers_flat (λ _, table_inv).
Definition env_fwd : Env := env_of 100000 5000 kmers_flat (λ _, table_fwd).
Definition env_fwd_rev : Env := env_of 100000 5000 kmers_flat (λ _, table_fwd_rev).
Definition env_short_inv : Env := env_of 100000 5000 kmers_flat (λ _, table_short_inv).

(** [env] with another lift from contig to reference coordinates. *)
Definition with_lift_to_sub (env : Env) (lift : Region -> option Region) : Env :=
  mkEnv (df_fai env) (expand env) (lift_region_to_qry env) lift (ref_kmers env)
    (region_seq env) (kmer_stream env) (get_smoothed_density env)
    (k_size env) (canonical_complement env).

(** The contig region lifts to a reference region of half its length. *)
Definition env_short_ref : Env :=
  with_lift_to_sub env_inv
    (λ r, Some (mkRegion "chr1" (pos r + 5000) (pos r + 5000 + region_len r / 2) false)).

Definition region_flagged : Region := mkRegion "chr1" 10000 10100 false.

(** ** Vocabulary of the properties, and concrete inputs *)

(** Number of rows of the table in state [s]. *)
Definition state_count (s : Z) (df : list Row) : Z :=
  len (filter (λ r, STATE r = s) df).

(** The column operations after the helper columns are set, on one row. *)
Definition annotate_wrow (k : Z) (ref_set_up ref_set_dn : gset Z)
    (region_dup_tig_up region_dup_tig_dn : Region) (w : WRow) : ARow :=
  drop_helper_columns
    (drop_NA
       (set_match DN ref_set_dn ref_set_up
          (set_match UP ref_set_up ref_set_dn
             (set_flank region_dup_tig_dn k DN
                (set_flank region_dup_tig_up k UP w))))).

(** The labels one row ends with, as a function of the row alone. *)
Definition annotate_row (env : Env) (ref_set_up ref_set_dn : gset Z)
    (region_dup_tig_up region_dup_tig_dn : Region) (offset : Z) (r : Row) : ARow :=
  annotate_wrow (k_size env) ref_set_up ref_set_dn
    region_dup_tig_up region_dup_tig_dn
    (mkWRow r (canonical_complement env (KMER r)) (INDEX r + offset) None None).

(** Is contig position [p] inside the k-mer window of a duplication region? *)
Definition window_has (region_dup : Region) (k p : Z) : bool :=
  (p >=? pos region_dup) && (p <? end_ region_dup - k).

(** [steps env region rr c n rr' c']: from the loop state [(rr, c)], [n]
    iterations that all continue lead to the state [(rr', c')]. *)
Inductive steps (env : Env) (region : Region)
    : Region -> Z -> nat -> Region -> Z -> Prop :=
  | steps_O rr c : steps env region rr c 0 rr c
  | steps_S rr c rr1 c1 n rr' c' :
      scan_iter env region rr c = IterContinue rr1 c1 ->
      steps env region rr1 c1 n rr' c' ->
      steps env region rr c (S n) rr' c'.

(** The loop state at the start of iteration [n + 1] of [scan_for_inv]. *)
Definition reached (env : Env) (region : Region) (n : nat) (rr : Region) (c : Z) : Prop :=
  steps env region (initial_region_ref env region) 0 n rr c.

(** The strictly inverted runs ([state_rl_inv]). *)
Definition inv_runs (state_rl : list Run) : list Run :=
  filter (λ record, rl_state record = REV) state_rl.

(** The contract of [Region.expand] the loop relies on: a region inside its
    chromosome, expanded by a non-negative amount with a balance in [0, 1] and
    the limits [0] and the chromosome length, stays on the chromosome, inside
    the limits, and covers the old region. *)
Definition expand_clamps (env : Env) : Prop :=
  forall (r : Region) (expand_bp : Z) (balance : Q),
    0 <= expand_bp -> (0 <= balance)%Q -> (balance <= 1)%Q ->
    0 <= pos r -> pos r <= end_ r -> end_ r <= df_fai env (chrom r) ->
    let r' := expand env r expand_bp 0 (df_fai env) true balance in
    chrom r' = chrom r
    /\ 0 <= pos r' /\ pos r' <= pos r
    /\ end_ r <= end_ r' /\ end_ r' <= df_fai env (chrom r).

(** A region lies inside its chromosome. *)
Definition region_ok (env : Env) (r : Region) : Prop :=
  0 <= pos r /\ pos r <= end_ r /\ end_ r <= df_fai env (chrom r).

(** The expansion size of a region of [n] bases fits [np.int32]. *)
Definition expand_fits_int32 (n : Z) : Prop :=
  Qtrunc (inject_Z n * EXPAND_FACTOR) < 2 ^ 31.

(** The whole chromosome is flagged and the contig shows reference signal
    only: nothing is left to expand into. *)
Definition env_whole : Env := env_of 4100 0 kmers_flat (λ _, table_fwd).
Definition region_whole : Region := mkRegion "chr1" 0 4100 false.

(** The table of an iteration encodes to one FWD run, the expansion count is
    below [MIN_EXP_COUNT], and the loop goes on to another iteration. *)
Definition single_fwd_run_always_continues : Prop :=
  forall (env : Env) (region : Region) (n : nat) (rr : Region) (c : Z)
         (rt : Region) (df : list Row) (run : Run),
    reached env region n rr c ->
    scan_table env region rr = inr (rt, df) ->
    rl_encoder df = [run] -> rl_state run = FWD ->
    c + 1 < MIN_EXP_COUNT ->
    exists rr' c', scan_iter env region rr c = IterContinue rr' c'.

(** As [env_inv], with contig coordinates 20 below the reference ones. *)
Definition env_inv_near : Env := env_of 100000 20 kmers_flat (λ _, table_inv).

(** A flank table for the annotation alone: the upstream reference copy has
    the k-mer 2000, the downstream one 4500 (canonical form 500); the contig
    rows carry the raw k-mers 3000 (canonical form 2000), 2000 and 500. *)
Definition kmers_dup : Region -> option (list (Z * Z)) :=
  λ r, if pos r =? 100 then Some [(2000, 1)] else Some [(4500, 1)].
Definition env_dup : Env := env_of 100000 0 kmers_dup (λ _, []).
Definition df_dup : list Row :=
  [mkRow 3000 5 1 0.1 0.8 0.1; mkRow 2000 6 1 0.1 0.8 0.1;
   mkRow 500 7 1 0.1 0.8 0.1; mkRow 3000 150 2 0.1 0.1 0.8]%Q.
Definition ref_outer_dup : Region := mkRegion "chr1" 100 400 false.
Definition ref_inner_dup : Region := mkRegion "chr1" 200 300 false.
Definition tig_outer_dup : Region := mkRegion "tig1" 100 400 false.
Definition tig_inner_dup : Region := mkRegion "tig1" 200 300 false.
Definition tig_discovery_dup : Region := mkRegion "tig1" 100 500 false.
Definition adf_dup : list ARow :=
  match annotate_inv_dup_mers env_dup df_dup ref_outer_dup ref_inner_dup
          tig_outer_dup tig_inner_dup tig_discovery_dup with
  | inr adf => adf
  | inl _ => []
  end.

(** The call found in [env_inv]. *)
Definition call_inv : InvCall.t :=
  match scan_for_inv 1 env_inv region_flagged with
  | Call call => call
  | _ => InvCall.init region_flagged region_flagged region_flagged region_flagged
           region_flagged region_flagged region_flagged []
  end.

(** The data conditions under which an iteration at the loop state
    [(rr, c)] gives up, with the reason logged. *)
Inductive loop_rejects (env : Env) (region rr : Region) (c : Z)
    : NoCallReason -> Prop :=
  | rejects_lift :
      lift_region_to_qry env rr = None ->
      loop_rejects env region rr c LiftFailed
  | rejects_no_ref_kmers rt :
      lift_region_to_qry env rr = Some rt ->
      ref_kmers env rr = None \/ ref_kmers env rr = Some [] ->
      loop_rejects env region rr c NoRefKmers
  | rejects_kmer_count rt counts kmer count max_mer_count :
      lift_region_to_qry env rr = Some rt ->
      ref_kmers env rr = Some counts ->
      (kmer, count) ∈ counts -> MAX_REF_KMER_COUNT < count ->
      np_max (map snd counts) = Some max_mer_count ->
      loop_rejects env region rr c (KmerCountExceeds max_mer_count)
  | rejects_empty_table rt :
      scan_table env region rr = inr (rt, []) ->
      loop_rejects env region rr c NoInformativeKmers
  | rejects_single_fwd rt df run :
      scan_table env region rr = inr (rt, df) ->
      rl_encoder df = [run] -> rl_state run = FWD ->
      MIN_EXP_COUNT <= c + 1 ->
      loop_rejects env region rr c (NoInvertedAfterExpansions (c + 1))
  | rejects_no_growth rt df :
      scan_table env region rr = inr (rt, df) -> df <> [] ->
      no_inv_found (rl_encoder df) (c + 1) = false ->
      ref_on_both_sides (map rl_state (rl_encoder df)) = false ->
      region_len (expand env rr (expand_bp_of rr) 0 (df_fai env) true
                    (expand_balance (map rl_state (rl_encoder df))))
        = region_len rr ->
      loop_rejects env region rr c ReachedLimits.

(** The data conditions under which a found region is given up. *)
Inductive found_rejects (env : Env) (rt : Region) (state_rl : list Run)
    : NoCallReason -> Prop :=
  | rejects_no_rev :
      (forall run, run ∈ state_rl -> rl_state run <> REV) ->
      found_rejects env rt state_rl NoInvertedStates
  | rejects_short_run run max_inv_run :
      run ∈ state_rl -> rl_state run = REV ->
      (forall run', run' ∈ state_rl -> rl_state run' = REV ->
         rl_count run' < MIN_INV_KMER_RUN) ->
      np_max (map rl_count (inv_runs state_rl)) = Some max_inv_run ->
      found_rejects env rt state_rl (InvRunTooShort max_inv_run)
  | rejects_ref_short run rto rti rro :
      run ∈ state_rl -> rl_state run = REV -> MIN_INV_KMER_RUN <= rl_count run ->
      tig_outer_of env rt state_rl = Some rto ->
      tig_inner_of env rt (inv_runs state_rl) = Some rti ->
      lift_region_to_sub env rto = Some rro ->
      (inject_Z (region_len rro) < inject_Z (region_len rto) * MIN_TIG_REF_PROP)%Q ->
      found_rejects env rt state_rl RefTooShort
  | rejects_tig_short run rto rti rro :
      run ∈ state_rl -> rl_state run = REV -> MIN_INV_KMER_RUN <= rl_count run ->
      tig_outer_of env rt state_rl = Some rto ->
      tig_inner_of env rt (inv_runs state_rl) = Some rti ->
      lift_region_to_sub env rto = Some rro ->
      (inject_Z (region_len rto) * MIN_TIG_REF_PROP <= inject_Z (region_len rro))%Q ->
      (inject_Z (region_len rto) < inject_Z (region_len rro) * MIN_TIG_REF_PROP)%Q ->
      found_rejects env rt state_rl TigTooShort.

(** ** The log, [__repr__], and further vocabulary and inputs *)

(** The outer contig region never lifts to the reference. *)
Definition env_no_lift : Env := with_lift_to_sub env_inv (λ _, None).

(** The outer contig region of [env_inv] (it starts at 3100) lifts to the
    reference, the inner one does not. *)
Definition env_no_inner_lift : Env :=
  with_lift_to_sub env_inv
    (λ r, if pos r =? 3100
          then Some (mkRegion "chr1" (pos r + 5000) (end_ r + 5000) false)
          else None).

(** A chromosome of 3,000,000,000 bases whose contig shows reference signal
    only, and a flagged region on it of 2,863,307,530 bases: the first search
    region has 2,863,311,530 bases, and 1.5 times that is 2^32 - 1. *)
Definition env_huge : Env :=
  mkEnv (λ _, 3000000000) Region_expand
    (λ r, Some (mkRegion "tig1" (pos r) (end_ r) false))
    (λ r, Some (mkRegion "chr1" (pos r) (end_ r) false))
    kmers_flat (λ _ _, EmptyString) (λ _, []) (λ _ _ _ _ _, table_fwd)
    31 (λ kmer, kmer).
Definition region_huge : Region := mkRegion "chr1" 2000 2863309530 false.

(** The search region never gets shorter from one iteration to the next,
    for every flagged region inside its chromosome and every [Region.expand]
    that clamps to the chromosome. *)
Definition search_region_never_shrinks : Prop :=
  forall (env : Env) (region : Region) (n : nat) (rr : Region) (c : Z)
         (rr' : Region) (c' : Z),
    expand_clamps env -> region_ok env region ->
    reached env region n rr c ->
    scan_iter env region rr c = IterContinue rr' c' ->
    region_len rr <= region_len rr'.

(** Reference signal only as long as the contig region is short (at most
    20,999 bases, which is all the scan of [region_flagged] gets to see), an
    inversion in longer ones. *)
Definition env_fwd_short : Env :=
  env_of 100000 5000 kmers_flat
    (λ stream,
       match stream with
       | [(_, n)] => if n <=? 20 then table_fwd else table_inv
       | _ => table_inv
       end).

(** The reference search regions of the iterations of the loop, in order,
    from the loop state [(region_ref, expansion_count)]: at most [fuel] of
    them. *)
Fixpoint search_regions (fuel : nat) (env : Env) (region : Region)
    (region_ref : Region) (expansion_count : Z) : list Region :=
  match fuel with
  | O => []
  | S fuel' =>
      region_ref ::
      match scan_iter env region region_ref expansion_count with
      | IterContinue region_ref expansion_count =>
          search_regions fuel' env region region_ref expansion_count
      | _ => []
      end
  end.

(** [InvCall.__repr__]. *)
Definition InvCall_repr (call : InvCall.t) : string := InvCall.id call.

(** Does the character occur in the string? *)
Fixpoint has_char (c : ascii) (s : string) : bool :=
  match s with
  | EmptyString => false
  | String a s' => Ascii.eqb a c || has_char c s'
  end.

(** The contig indices increase from row to row (checked by computation). *)
Fixpoint index_increasing (df : list Row) : bool :=
  match df with
  | a :: (b :: _) as rest => (INDEX a <? INDEX b) && index_increasing rest
  | _ => true
  end.

(** An open log file: the strings passed to [write] so far, in order, and
    how many of them have not been flushed. *)
Record LogFile := mkLogFile {
  written : list string;
  unflushed : nat
}.

Definition log_write (s : string) (f : LogFile) : LogFile :=
  mkLogFile (written f ++ [s]) (S (unflushed f)).

Definition log_flush (f : LogFile) : LogFile := mkLogFile (written f) 0.

(** ['\n'] *)
Definition newline : string := String "010"%char EmptyString.

(** [_write_log(message, log)]; [log] is a file handle or [None]. *)
Definition _write_log (message : string) (log : option LogFile) : option LogFile :=
  match log with
  | None => None
  | Some f => Some (log_flush (log_write newline (log_write message f)))
  end.

(** The calls [_write_log(m, log)] for the messages [msgs], in order. *)
Definition write_all (msgs : list string) (log : option LogFile) : option LogFile :=
  fold_left (λ log m, _write_log m log) msgs log.

(** What the messages are formatted with: [str(region)] and
    [k_util.to_string(kmer)]. *)
Record Fmt := mkFmt {
  region_str : Region -> string;
  kmer_to_string : Z -> string
}.

(** ['{:,d}'.format(n)]: the digits in groups of three, from the right. *)
Fixpoint commas_rev (rev_digits : list ascii) (k : nat) : list ascii :=
  match rev_digits with
  | [] => []
  | d :: rest =>
      match k with
      | O => ","%char :: d :: commas_rev rest 2
      | S k' => d :: commas_rev rest k'
      end
  end.

Definition format_int_commas (n : Z) : string :=
  let digits := String.list_ascii_of_string (format_int (Z.abs n)) in
  let grouped := rev (commas_rev (rev digits) 3) in
  String.append (if n <? 0 then "-" else "") (String.string_of_list_ascii grouped).

(** ['{:.2f}'.format(q)] for a number that is not negative. *)
Definition format_2f (q : Q) : string :=
  let cents := Qfloor (q * 100 + (1 # 2))%Q in
  let frac := cents mod 100 in
  String.append (format_int (cents / 100))
    (String.append "."
       (String.append (if frac <? 10 then "0" else "") (format_int frac))).

(** ['{}'.format(x)] for a region or [None]. *)
Definition format_opt_region (fmt : Fmt) (r : option Region) : string :=
  match r with
  | Some r => region_str fmt r
  | None => "None"
  end.

Definition msg_start (fmt : Fmt) (region : Region) (flag_id : string) : string :=
  "Scanning for inversions in flagged region: " +:+ region_str fmt region
  +:+ " (flagged region record id = " +:+ flag_id +:+ ")".

Definition msg_no_lift (fmt : Fmt) (region_tig : option Region) : string :=
  "Could not lift contig region onto contigs: " +:+ format_opt_region fmt region_tig.

Definition msg_scanning (fmt : Fmt) (region_ref : Region) : string :=
  "Scanning region: " +:+ region_str fmt region_ref.

Definition msg_no_ref_kmers : string := "No reference k-mers".

Definition msg_kmer_count (fmt : Fmt) (region_flag : Region)
    (max_mer_count max_mer : Z) : string :=
  "K-mer count exceeds max in " +:+ region_str fmt region_flag +:+ ": "
  +:+ format_int max_mer_count +:+ " > " +:+ format_int MAX_REF_KMER_COUNT
  +:+ " (" +:+ kmer_to_string fmt max_mer +:+ ")".

Definition msg_no_inv_found (expansion_count : Z) : string :=
  "Found no inverted k-mer states after " +:+ format_int expansion_count
  +:+ " expansion(s)".

Definition msg_limits : string := "Reached reference limits, cannot expand".

Definition msg_no_informative : string :=
  "No informative reference k-mers in forward or reverse orientation in region".

Definition msg_no_inverted : string := "No inverted states found".

Definition msg_short_run (max_inv_run : Z) : string :=
  "Longest run of strictly inverted k-mers (" +:+ format_int max_inv_run
  +:+ ") does not meet the minimum threshold (" +:+ format_int MIN_INV_KMER_RUN
  +:+ ")".

Definition msg_ref_short (len_ref len_tig : Z) : string :=
  "Reference region too short: Reference region length ("
  +:+ format_int_commas len_ref +:+ ") is not within "
  +:+ format_2f (MIN_TIG_REF_PROP * 100) +:+ "% of the contig region length ("
  +:+ format_int_commas len_tig +:+ ")".

Definition msg_tig_short (len_tig len_ref : Z) : string :=
  "Contig region too short: Contig region length ("
  +:+ format_int_commas len_tig +:+ ") is not within "
  +:+ format_2f (MIN_TIG_REF_PROP * 100) +:+ "% of the reference region length ("
  +:+ format_int_commas len_ref +:+ ")".

(** *** [scan_for_inv] with its log messages

    The same code as above, this time with the messages it passes to
    [_write_log], in order; [scan_for_inv_log] hands them to the log. *)

(** [[kmer for kmer, count in ref_kmer_count.items() if count == max_mer_count][0]] *)
Definition first_max_mer (ref_kmer_count : list (Z * Z)) (max_mer_count : Z)
    : option Z :=
  fst <$> head (filter (λ kc : Z * Z, kc.2 = max_mer_count) ref_kmer_count).

Definition scan_table_log (env : Env) (fmt : Fmt) (region region_flag : Region)
    (region_ref : Region) : list string * (Result + (Region * list Row)) :=
  match lift_region_to_qry env region_ref with
  | None => ([msg_no_lift fmt None], inl (NoCall LiftFailed))
  | Some region_tig =>
    let msgs := [msg_scanning fmt region_ref] in
    match ref_kmers env region_ref with
    | None => (msgs ++ [msg_no_ref_kmers], inl (NoCall NoRefKmers))
    | Some ref_kmer_count =>
      match np_max (map snd ref_kmer_count) with
      | None => (msgs ++ [msg_no_ref_kmers], inl (NoCall NoRefKmers))
      | Some max_mer_count =>
        if max_mer_count >? MAX_REF_KMER_COUNT
        then
          match first_max_mer ref_kmer_count max_mer_count with
          | None => (msgs, inl (Raised IndexError))
          | Some max_mer =>
              (msgs ++ [msg_kmer_count fmt region_flag max_mer_count max_mer],
               inl (NoCall (KmerCountExceeds max_mer_count)))
          end
        else
          let ref_kmer_set : gset Z := list_to_set (map fst ref_kmer_count) in
          let seq_tig := region_seq env region_tig (is_rev region) in
          let tig_mer_stream := kmer_stream env seq_tig in
          let df := get_smoothed_density env tig_mer_stream ref_kmer_set
                      MIN_INFORMATIVE_KMERS DENSITY_SMOOTH_FACTOR MIN_KMER_STATE_COUNT in
          (msgs, inr (region_tig, df))
      end
    end
  end.

Definition scan_decide_log (env : Env) (region_ref region_tig : Region)
    (df : list Row) (expansion_count : Z) : list string * IterResult :=
  let state_rl := rl_encoder df in
  let condensed_states := map rl_state state_rl in
  if no_inv_found state_rl expansion_count
  then ([msg_no_inv_found expansion_count],
        IterReturn (NoCall (NoInvertedAfterExpansions expansion_count)))
  else if ref_on_both_sides condensed_states
  then ([], IterBreak region_ref region_tig df state_rl)
  else
    let last_len := region_len region_ref in
    let expand_bp := expand_bp_of region_ref in
    let region_ref :=
      expand env region_ref expand_bp 0 (df_fai env) true
        (expand_balance condensed_states) in
    if region_len region_ref =? last_len
    then ([msg_limits], IterReturn (NoCall ReachedLimits))
    else ([], IterContinue region_ref expansion_count).

Definition scan_iter_log (env : Env) (fmt : Fmt) (region region_flag : Region)
    (region_ref : Region) (expansion_count : Z) : list string * IterResult :=
  match scan_table_log env fmt region region_flag region_ref with
  | (msgs, inl r) => (msgs, IterReturn r)
  | (msgs, inr (region_tig, df)) =>
      let expansion_count := expansion_count + 1 in
      if len df >? 0
      then
        let '(msgs', r) := scan_decide_log env region_ref region_tig df expansion_count in
        (msgs ++ msgs', r)
      else (msgs ++ [msg_no_informative], IterReturn (NoCall NoInformativeKmers))
  end.

Definition check_and_call_log (env : Env)
    (region_flag region_ref region_tig : Region) (df : list Row)
    (region_tig_outer region_tig_inner : Region)
    (region_ref_outer region_ref_inner : option Region) : list string * Result :=
  match region_ref_outer with
  | None => ([], Raised TypeError)
  | Some region_ref_outer =>
    if Qltb (inject_Z (region_len region_ref_outer))
            (inject_Z (region_len region_tig_outer) * MIN_TIG_REF_PROP)
    then ([msg_ref_short (region_len region_ref_outer) (region_len region_tig_outer)],
          NoCall RefTooShort)
    else if Qltb (inject_Z (region_len region_tig_outer))
                 (inject_Z (region_len region_ref_outer) * MIN_TIG_REF_PROP)
    then ([msg_tig_short (region_len region_tig_outer) (region_len region_ref_outer)],
          NoCall TigTooShort)
    else
      match region_ref_inner with
      | None => ([], Raised AttributeError)
      | Some region_ref_inner =>
        match annotate_inv_dup_mers env df region_ref_outer region_ref_inner
                region_tig_outer region_tig_inner region_ref with
        | inl e => ([], Raised e)
        | inr df =>
            ([], Call (InvCall.init region_ref_outer region_ref_inner
                         region_tig_outer region_tig_inner
                         region_ref region_tig region_flag df))
        end
      end
  end.

Definition characterize_log (env : Env)
    (region_flag region_ref region_tig : Region) (df : list Row)
    (state_rl : list Run) : list string * Result :=
  if negb (existsb (λ record, rl_state record =? 2) state_rl)
  then ([msg_no_inverted], NoCall NoInvertedStates)
  else
    let state_rl_inv := filter (λ val, rl_state val = 2) state_rl in
    match np_max (map rl_count (filter (λ record, rl_state record = 2) state_rl)) with
    | None => ([], Raised ValueError)
    | Some max_inv_run =>
      if max_inv_run <? MIN_INV_KMER_RUN
      then ([msg_short_run max_inv_run], NoCall (InvRunTooShort max_inv_run))
      else
        match py_index state_rl 0, py_index state_rl (-1) with
        | Some first, Some last =>
          if negb (rl_state first =? 0) || negb (rl_state last =? 0)
          then ([], Raised (RuntimeError region_ref))
          else
            match tig_outer_of env region_tig state_rl with
            | None => ([], Raised IndexError)
            | Some region_tig_outer =>
              match tig_inner_of env region_tig state_rl_inv with
              | None => ([], Raised IndexError)
              | Some region_tig_inner =>
                  check_and_call_log env region_flag region_ref region_tig df
                    region_tig_outer region_tig_inner
                    (lift_region_to_sub env region_tig_outer)
                    (lift_region_to_sub env region_tig_inner)
              end
            end
        | _, _ => ([], Raised IndexError)
        end
    end.

Fixpoint scan_loop_log (fuel : nat) (env : Env) (fmt : Fmt)
    (region region_flag : Region) (region_ref : Region) (expansion_count : Z)
    : list string * Result :=
  match fuel with
  | O => ([], OutOfFuel)
  | S fuel' =>
      match scan_iter_log env fmt region region_flag region_ref expansion_count with
      | (msgs, IterReturn r) => (msgs, r)
      | (msgs, IterBreak region_ref region_tig df state_rl) =>
          let '(msgs', r) :=
            characterize_log env region_flag region_ref region_tig df state_rl in
          (msgs ++ msgs', r)
      | (msgs, IterContinue region_ref expansion_count) =>
          let '(msgs', r) :=
            scan_loop_log fuel' env fmt region region_flag region_ref expansion_count in
          (msgs ++ msgs', r)
      end
  end.

(** The messages of a scan, the first one included. *)
Definition scan_messages (fuel : nat) (env : Env) (fmt : Fmt) (region : Region)
    (flag_id : option string) : list string :=
  let flag_id := default "<No ID>" flag_id in
  msg_start fmt region flag_id
  :: (scan_loop_log fuel env fmt region region
        (initial_region_ref env region) 0).1.

(** [scan_for_inv(region, ref_fa, tig_fa, align_lift, k_util, log, flag_id)]:
    the result and the log after the call. *)
Definition scan_for_inv_log (fuel : nat) (env : Env) (fmt : Fmt) (region : Region)
    (log : option LogFile) (flag_id : option string) : Result * option LogFile :=
  ((scan_loop_log fuel env fmt region region (initial_region_ref env region) 0).2,
   write_all (scan_messages fuel env fmt region flag_id) log).

(** What the message logged with a reason looks like. *)
Definition reason_message (fmt : Fmt) (region_flag : Region)
    (reason : NoCallReason) (m : string) : Prop :=
  match reason with
  | LiftFailed => m = "Could not lift contig region onto contigs: None"
  | NoRefKmers => m = msg_no_ref_kmers
  | KmerCountExceeds max_mer_count =>
      exists max_mer, m = msg_kmer_count fmt region_flag max_mer_count max_mer
  | NoInformativeKmers => m = msg_no_informative
  | NoInvertedAfterExpansions expansion_count => m = msg_no_inv_found expansion_count
  | ReachedLimits => m = msg_limits
  | NoInvertedStates => m = msg_no_inverted
  | InvRunTooShort max_inv_run => m = msg_short_run max_inv_run
  | RefTooShort => exists len_ref len_tig, m = msg_ref_short len_ref len_tig
  | TigTooShort => exists len_tig len_ref, m = msg_tig_short len_tig len_ref
  end.

(** The messages [msgs] of a scan that ended with [res]: the lines [body],
    followed by the message of the reason when the result is no call. *)
Definition log_shape (fmt : Fmt) (region_flag : Region) (res : Result)
    (msgs body : list string) : Prop :=
  match res with
  | NoCall reason => exists m, msgs = body ++ [m] /\ reason_message fmt region_flag reason m
  | _ => msgs = body
  end.

(** A "Scanning region" line. *)
Definition scanning_line (fmt : Fmt) (m : string) : Prop :=
  exists region_ref, m = msg_scanning fmt region_ref.

(** The "Scanning region" lines of the given search regions: one for each
    region that lifts to the contig. *)
Definition scanning_lines (env : Env) (fmt : Fmt) (regions : list Region)
    : list string :=
  map (msg_scanning fmt)
    (filter (λ region_ref, is_Some (lift_region_to_qry env region_ref)) regions).

(** The strings written for a list of messages: each message, then a
    newline. *)
Definition log_lines (msgs : list string) : list string :=
  concat (map (λ m, [m; newline]) msgs).

(** Nothing lifts to the contig. *)
Definition env_no_qry : Env :=
  mkEnv (df_fai env_inv) (expand env_inv) (λ _, None) (lift_region_to_sub env_inv)
    (ref_kmers env_inv) (region_seq env_inv) (kmer_stream env_inv)
    (get_smoothed_density env_inv) (k_size env_inv) (canonical_complement env_inv).

(** * Properties *)

(** ** Helper facts: numbers and indexing *)

Lemma Qltb_true (x y : Q) : Qltb x y = true <-> (x < y)%Q.
Proof.
  unfold Qltb. rewrite negb_true_iff. split.
  - intros H. apply Qnot_le_lt. intros Hle.
    apply Qle_bool_iff in Hle. congruence.
  - intros H. destruct (Qle_bool y x) eqn:E; [|reflexivity].
    apply Qle_bool_iff in E. exfalso. exact (Qlt_not_le _ _ H E).
Qed.

Lemma Qltb_false (x y : Q) : Qltb x y = false <-> (y <= x)%Q.
Proof.
  unfold Qltb. rewrite negb_false_iff. apply Qle_bool_iff.
Qed.

Lemma py_index_nonneg {A} (l : list A) (i : nat) :
  py_index l (Z.of_nat i) = l !! i.
Proof.
  unfold py_index.
  destruct (Z.ltb_spec (Z.of_nat i) 0) as [H|_]; [lia|].
  destruct (Z.leb_spec 0 (Z.of_nat i)) as [_|H]; [|lia]. simpl.
  destruct (Z.ltb_spec (Z.of_nat i) (Z.of_nat (length l))) as [H|H].
  - now rewrite Nat2Z.id.
  - symmetry. apply lookup_ge_None. lia.
Qed.

Lemma py_index_neg {A} (l : list A) (i : nat) :
  (0 < i <= length l)%nat ->
  py_index l (- Z.of_nat i) = l !! (length l - i)%nat.
Proof.
  intros Hi. unfold py_index.
  destruct (Z.ltb_spec (- Z.of_nat i) 0) as [_|H]; [|lia].
  destruct (Z.leb_spec 0 (- Z.of_nat i + Z.of_nat (length l))) as [_|H]; [|lia].
  destruct (Z.ltb_spec (- Z.of_nat i + Z.of_nat (length l)) (Z.of_nat (length l)))
    as [_|H]; [|lia].
  simpl. f_equal. lia.
Qed.

Lemma py_index_0 {A} (l : list A) : py_index l 0 = head l.
Proof.
  change (py_index l 0) with (py_index l (Z.of_nat 0)).
  rewrite py_index_nonneg. now destruct l.
Qed.

Lemma py_index_last {A} (l : list A) : py_index l (-1) = last l.
Proof.
  destruct l as [|x l].
  - reflexivity.
  - change (-1) with (- Z.of_nat 1).
    rewrite py_index_neg by (simpl; lia).
    rewrite last_lookup. f_equal. simpl. lia.
Qed.

Lemma np_max_ge (l : list Z) (m x : Z) :
  np_max l = Some m -> x ∈ l -> x <= m.
Proof.
  destruct l as [|a l]; [discriminate|]. simpl. intros [= <-].
  revert a x. induction l as [|b l IH]; intros a x Hx; simpl.
  - apply list_elem_of_singleton in Hx. subst. lia.
  - apply elem_of_cons in Hx as [->|Hx].
    + transitivity (Z.max a b); [lia|]. apply IH. left.
    + apply elem_of_cons in Hx as [->|Hx].
      * transitivity (Z.max a b); [lia|]. apply IH. left.
      * apply IH. now right.
Qed.

Lemma np_max_elem (l : list Z) (m : Z) :
  np_max l = Some m -> m ∈ l.
Proof.
  destruct l as [|a l]; [discriminate|]. simpl. intros [= <-].
  revert a. induction l as [|b l IH]; intros a; simpl.
  - left.
  - destruct (Z.max_spec a b) as [[_ ->]|[_ ->]].
    + right. apply IH.
    + specialize (IH a). apply elem_of_cons in IH as [->|IH].
      * left.
      * right. now right.
Qed.

(** ** Helper facts: run-length encoding *)

Lemma state_count_cons (s : Z) (r : Row) (df : list Row) :
  state_count s (r :: df) = (if decide (STATE r = s) then 1 else 0) + state_count s df.
Proof.
  unfold state_count, len. rewrite filter_cons.
  destruct (decide (STATE r = s)); simpl; lia.
Qed.

Lemma state_count_nonneg (s : Z) (df : list Row) : 0 <= state_count s df.
Proof. unfold state_count, len. lia. Qed.

Lemma rl_encoder_from_count (cur : Run) (rows : list Row) (run : Run) :
  run ∈ rl_encoder_from cur rows ->
  (rl_state run = rl_state cur
   /\ rl_count run <= rl_count cur + state_count (rl_state run) rows)
  \/ rl_count run <= state_count (rl_state run) rows.
Proof.
  revert cur. induction rows as [|r rest IH]; intros cur Hin; simpl in Hin.
  - apply list_elem_of_singleton in Hin. subst. left. split; [reflexivity|].
    pose proof (state_count_nonneg (rl_state cur) []). lia.
  - rewrite state_count_cons.
    pose proof (state_count_nonneg (rl_state run) rest) as Hnn.
    destruct (Z.eqb_spec (STATE r) (rl_state cur)) as [Heq|Hne].
    + apply IH in Hin as [[Hs Hc]|Hc]; simpl in *.
      * left. split; [exact Hs|].
        destruct (decide (STATE r = rl_state run)); [lia|congruence].
      * right. destruct (decide (STATE r = rl_state run)); lia.
    + apply elem_of_cons in Hin as [->|Hin].
      * left. split; [reflexivity|].
        destruct (decide (STATE r = rl_state cur)); lia.
      * apply IH in Hin as [[Hs Hc]|Hc]; simpl in *.
        -- right. destruct (decide (STATE r = rl_state run)); [lia|congruence].
        -- right. destruct (decide (STATE r = rl_state run)); lia.
Qed.

(** A run never counts more rows than the table has in its state. *)
Lemma rl_encoder_count (df : list Row) (run : Run) :
  run ∈ rl_encoder df -> rl_count run <= state_count (rl_state run) df.
Proof.
  destruct df as [|r rest]; simpl.
  - intros H. inversion H.
  - intros Hin. rewrite state_count_cons.
    pose proof (state_count_nonneg (rl_state run) rest) as Hnn.
    apply rl_encoder_from_count in Hin as [[Hs Hc]|Hc]; simpl in *.
    + destruct (decide (STATE r = rl_state run)); [lia|congruence].
    + destruct (decide (STATE r = rl_state run)); lia.
Qed.

Lemma rl_encoder_from_nonempty (cur : Run) (rows : list Row) :
  rl_encoder_from cur rows <> [].
Proof.
  revert cur. induction rows as [|r rest IH]; intros cur; simpl; [easy|].
  destruct (STATE r =? rl_state cur); [apply IH|easy].
Qed.

(** ** Helper facts: the flank annotation *)

Lemma annotate_inv_dup_mers_rows (env : Env) (df : list Row)
    (ro ri to ti disc : Region) (adf : list ARow) :
  annotate_inv_dup_mers env df ro ri to ti disc = inr adf ->
  exists ref_set_up ref_set_dn,
    ref_set env (new_Region (chrom ro) (pos ro) (pos ri)) = Some ref_set_up
    /\ ref_set env (new_Region (chrom ro) (end_ ri) (end_ ro)) = Some ref_set_dn
    /\ adf = map (annotate_row env ref_set_up ref_set_dn
                    (new_Region (chrom to) (pos to) (pos ti))
                    (new_Region (chrom to) (end_ ti) (end_ to))
                    (pos disc)) df.
Proof.
  unfold annotate_inv_dup_mers. intros H.
  destruct (ref_set env (new_Region (chrom ro) (pos ro) (pos ri))) as [up|];
    [|discriminate].
  destruct (ref_set env (new_Region (chrom ro) (end_ ri) (end_ ro))) as [dn|];
    [|discriminate].
  exists up, dn. split; [reflexivity|]. split; [reflexivity|].
  injection H as <-. rewrite !map_map. reflexivity.
Qed.

(** Case analysis on the two windows and the two memberships of a row. *)
Ltac annotate_cases k wu wd tig_index up dn r :=
  unfold annotate_wrow, drop_helper_columns, set_match, set_flank, in_window;
  cbn [TIG_INDEX];
  destruct ((tig_index >=? pos wu) && (tig_index <? end_ wu - k));
  cbn [TIG_INDEX];
  destruct ((tig_index >=? pos wd) && (tig_index <? end_ wd - k));
  cbn [w_row KMER_CAN TIG_INDEX w_FLANK w_MATCH flank_is];
  destruct (bool_decide (KMER r ∈ up)), (bool_decide (KMER r ∈ dn));
  reflexivity.

(** The helper column [KMER_CAN] has no part in the labels. *)
Lemma annotate_wrow_ignores_KMER_CAN k up dn wu wd r can can' tig_index :
  annotate_wrow k up dn wu wd (mkWRow r can tig_index None None)
  = annotate_wrow k up dn wu wd (mkWRow r can' tig_index None None).
Proof. annotate_cases k wu wd tig_index up dn r. Qed.

Lemma annotate_row_row env up dn wu wd off r :
  row (annotate_row env up dn wu wd off r) = r.
Proof.
  unfold annotate_row.
  annotate_cases (k_size env) wu wd (INDEX r + off) up dn r.
Qed.

(** The annotation leaves the input columns as they are. *)
Lemma annotate_inv_dup_mers_keeps_rows (env : Env) (df : list Row)
    (ro ri to ti disc : Region) (adf : list ARow) :
  annotate_inv_dup_mers env df ro ri to ti disc = inr adf ->
  map row adf = df.
Proof.
  intros H. apply annotate_inv_dup_mers_rows in H as (up & dn & _ & _ & ->).
  rewrite map_map. induction df as [|r df IH]; simpl; [reflexivity|].
  f_equal; [apply annotate_row_row|exact IH].
Qed.

Lemma annotate_row_FLANK env up dn wu wd off r :
  FLANK (annotate_row env up dn wu wd off r) =
    if window_has wd (k_size env) (INDEX r + off) then Some DN
    else if window_has wu (k_size env) (INDEX r + off) then Some UP
    else None.
Proof.
  unfold annotate_row, window_has.
  annotate_cases (k_size env) wu wd (INDEX r + off) up dn r.
Qed.

Lemma annotate_row_MATCH env up dn wu wd off r :
  MATCH (annotate_row env up dn wu wd off r) =
    match FLANK (annotate_row env up dn wu wd off r) with
    | Some UP =>
        match KMER_LOC_STATE (bool_decide (KMER r ∈ up)) (bool_decide (KMER r ∈ dn)) with
        | NA => None
        | cell => Some cell
        end
    | Some DN =>
        match KMER_LOC_STATE (bool_decide (KMER r ∈ dn)) (bool_decide (KMER r ∈ up)) with
        | NA => None
        | cell => Some cell
        end
    | None => None
    end.
Proof.
  unfold annotate_row.
  annotate_cases (k_size env) wu wd (INDEX r + off) up dn r.
Qed.

(** ** Helper facts: the decision step *)

Lemma cstate_is_true (o : option Z) (s : Z) : cstate_is o s = true <-> o = Some s.
Proof.
  destruct o as [x|]; simpl.
  - rewrite Z.eqb_eq. split; congruence.
  - split; discriminate.
Qed.

Lemma state_is_true (o : option Run) (s : Z) :
  state_is o s = true <-> rl_state <$> o = Some s.
Proof.
  destruct o as [x|]; simpl.
  - rewrite Z.eqb_eq. split; congruence.
  - split; discriminate.
Qed.

Lemma py_index_map {A B} (f : A -> B) (l : list A) (i : Z) :
  py_index (map f l) i = f <$> py_index l i.
Proof.
  unfold py_index. rewrite length_map.
  destruct ((0 <=? _) && (_ <? _)); [|reflexivity].
  apply (list_lookup_fmap f l).
Qed.

Lemma len_map {A B} (f : A -> B) (l : list A) : len (map f l) = len l.
Proof. unfold len. now rewrite length_map. Qed.

(** The loop is left through [break] exactly on a table with more than two
    runs whose first and last runs are FWD. *)
Lemma scan_decide_break (env : Env) (rr rt : Region) (df : list Row) (c : Z)
    (rr' rt' : Region) (df' : list Row) (state_rl : list Run) :
  scan_decide env rr rt df c = IterBreak rr' rt' df' state_rl ->
  rr' = rr /\ rt' = rt /\ df' = df /\ state_rl = rl_encoder df
  /\ 2 < len state_rl
  /\ rl_state <$> head state_rl = Some FWD
  /\ rl_state <$> last state_rl = Some FWD.
Proof.
  unfold scan_decide. intros H.
  destruct (no_inv_found _ _); [discriminate|].
  destruct (ref_on_both_sides _) eqn:E.
  - injection H as <- <- <- <-. unfold ref_on_both_sides in E.
    apply andb_prop in E as [E E3]. apply andb_prop in E as [E1 E2].
    rewrite len_map in E1. rewrite py_index_map in E2, E3.
    rewrite py_index_0 in E2. rewrite py_index_last in E3.
    apply cstate_is_true in E2, E3.
    repeat split; try reflexivity; try assumption. lia.
  - destruct (_ =? _); discriminate.
Qed.

(** An iteration that continues has called [expand] with the expansion size
    and the balance of the table, and the length has changed. *)
Lemma scan_decide_continue (env : Env) (rr rt : Region) (df : list Row) (c : Z)
    (rr' : Region) (c' : Z) :
  scan_decide env rr rt df c = IterContinue rr' c' ->
  c' = c
  /\ rr' = expand env rr (expand_bp_of rr) 0 (df_fai env) true
             (expand_balance (map rl_state (rl_encoder df)))
  /\ region_len rr' <> region_len rr.
Proof.
  unfold scan_decide. intros H.
  destruct (no_inv_found _ _); [discriminate|].
  destruct (ref_on_both_sides _); [discriminate|].
  destruct (Z.eqb_spec
    (region_len (expand env rr (expand_bp_of rr) 0 (df_fai env) true
                   (expand_balance (map rl_state (rl_encoder df)))))
    (region_len rr)) as [|Hne]; [discriminate|].
  injection H as <- <-. split; [reflexivity|]. split; [reflexivity|exact Hne].
Qed.

Lemma scan_iter_continue (env : Env) (region rr : Region) (c : Z)
    (rr' : Region) (c' : Z) :
  scan_iter env region rr c = IterContinue rr' c' ->
  exists rt df,
    scan_table env region rr = inr (rt, df)
    /\ scan_decide env rr rt df (c + 1) = IterContinue rr' c'.
Proof.
  unfold scan_iter. intros H.
  destruct (scan_table env region rr) as [reason|[rt df]]; [discriminate|].
  destruct (len df >? 0); [|discriminate].
  now exists rt, df.
Qed.

Lemma scan_iter_break (env : Env) (region rr : Region) (c : Z)
    (rr' rt : Region) (df : list Row) (state_rl : list Run) :
  scan_iter env region rr c = IterBreak rr' rt df state_rl ->
  scan_table env region rr = inr (rt, df)
  /\ 0 < len df
  /\ scan_decide env rr rt df (c + 1) = IterBreak rr' rt df state_rl.
Proof.
  unfold scan_iter. intros H.
  destruct (scan_table env region rr) as [reason|[rt0 df0]]; [discriminate|].
  destruct (Z.gtb_spec (len df0) 0) as [Hlen|]; [|discriminate].
  pose proof (scan_decide_break _ _ _ _ _ _ _ _ _ H) as (_ & <- & <- & _).
  repeat split; [lia|exact H].
Qed.

(** ** Helper facts: the loop *)

Lemma scan_loop_steps env region rf rr c n rr' c' :
  steps env region rr c n rr' c' ->
  forall fuel,
    scan_loop (n + fuel) env region rf rr c = scan_loop fuel env region rf rr' c'.
Proof.
  induction 1 as [|rr c rr1 c1 n rr' c' Hit _ IH]; intros fuel.
  - reflexivity.
  - simpl. rewrite Hit. apply IH.
Qed.

Lemma steps_count env region rr c n rr' c' :
  steps env region rr c n rr' c' -> c' = c + Z.of_nat n.
Proof.
  induction 1 as [|rr c rr1 c1 n rr' c' Hit _ IH].
  - simpl. lia.
  - apply scan_iter_continue in Hit as (rt & df & _ & Hd).
    apply scan_decide_continue in Hd as (-> & _). lia.
Qed.

Lemma scan_loop_return env region rf rr c n rr' c' r fuel :
  steps env region rr c n rr' c' ->
  scan_iter env region rr' c' = IterReturn r ->
  (n < fuel)%nat ->
  scan_loop fuel env region rf rr c = r.
Proof.
  intros Hs Hit Hlt.
  replace fuel with (n + S (fuel - S n))%nat by lia.
  rewrite (scan_loop_steps _ _ _ _ _ _ _ _ Hs). simpl. now rewrite Hit.
Qed.

Lemma scan_loop_break env region rf rr c n rr' c' rr2 rt df state_rl fuel :
  steps env region rr c n rr' c' ->
  scan_iter env region rr' c' = IterBreak rr2 rt df state_rl ->
  (n < fuel)%nat ->
  scan_loop fuel env region rf rr c = characterize env rf rr2 rt df state_rl.
Proof.
  intros Hs Hit Hlt.
  replace fuel with (n + S (fuel - S n))%nat by lia.
  rewrite (scan_loop_steps _ _ _ _ _ _ _ _ Hs). simpl. now rewrite Hit.
Qed.

(** A call comes from an iteration that left the loop through [break]. *)
Lemma scan_loop_Call env region rf fuel rr c call :
  scan_loop fuel env region rf rr c = Call call ->
  exists n rr' c' rt df state_rl,
    steps env region rr c n rr' c'
    /\ (n < fuel)%nat
    /\ scan_iter env region rr' c' = IterBreak rr' rt df state_rl
    /\ characterize env rf rr' rt df state_rl = Call call.
Proof.
  revert rr c. induction fuel as [|fuel IH]; intros rr c H; simpl in H.
  - discriminate.
  - destruct (scan_iter env region rr c) as [r|rr2 rt df rl|rr1 c1] eqn:Hit.
    + subst r. unfold scan_iter in Hit.
      destruct (scan_table env region rr) as [reason|[rt df]]; [discriminate|].
      destruct (len df >? 0); [|discriminate].
      unfold scan_decide in Hit.
      repeat (case_match; try discriminate).
    + pose proof (scan_iter_break _ _ _ _ _ _ _ _ Hit) as (_ & _ & Hd).
      apply scan_decide_break in Hd as (-> & _).
      exists 0%nat, rr, c, rt, df, rl.
      split; [constructor|]. split; [lia|]. split; assumption.
    + apply IH in H as (n & rr' & c' & rt & df & rl & Hs & Hlt & Hb & Hc).
      exists (S n), rr', c', rt, df, rl.
      split; [econstructor; eassumption|]. split; [lia|]. split; assumption.
Qed.

(** ** Helper facts: the code after the loop *)

Lemma check_and_call_Call env rf rr rt df rto rti orro orri call :
  check_and_call env rf rr rt df rto rti orro orri = Call call ->
  exists rro rri adf,
    orro = Some rro /\ orri = Some rri
    /\ (inject_Z (region_len rto) * MIN_TIG_REF_PROP <= inject_Z (region_len rro))%Q
    /\ (inject_Z (region_len rro) * MIN_TIG_REF_PROP <= inject_Z (region_len rto))%Q
    /\ annotate_inv_dup_mers env df rro rri rto rti rr = inr adf
    /\ call = InvCall.init rro rri rto rti rr rt rf adf.
Proof.
  unfold check_and_call. intros H.
  destruct orro as [rro|]; [|discriminate].
  destruct (Qltb (inject_Z (region_len rro)) _) eqn:E1; [discriminate|].
  destruct (Qltb (inject_Z (region_len rto)) _) eqn:E2; [discriminate|].
  destruct orri as [rri|]; [|discriminate].
  destruct (annotate_inv_dup_mers env df rro rri rto rti rr) as [e|adf] eqn:Ea;
    [discriminate|].
  injection H as <-. apply Qltb_false in E1, E2.
  exists rro, rri, adf. repeat split; assumption.
Qed.

Lemma characterize_Call env rf rr rt df state_rl call :
  characterize env rf rr rt df state_rl = Call call ->
  exists rto rti max_inv_run,
    np_max (map rl_count (inv_runs state_rl)) = Some max_inv_run
    /\ MIN_INV_KMER_RUN <= max_inv_run
    /\ tig_outer_of env rt state_rl = Some rto
    /\ tig_inner_of env rt (inv_runs state_rl) = Some rti
    /\ check_and_call env rf rr rt df rto rti
         (lift_region_to_sub env rto) (lift_region_to_sub env rti) = Call call.
Proof.
  unfold characterize. cbv zeta.
  change (filter (λ val, rl_state val = 2) state_rl) with (inv_runs state_rl).
  intros H.
  destruct (negb (existsb _ state_rl)); [discriminate|].
  destruct (np_max (map rl_count (inv_runs state_rl))) as [m|]; [|discriminate].
  destruct (Z.ltb_spec m MIN_INV_KMER_RUN) as [|Hm]; [discriminate|].
  destruct (py_index state_rl 0) as [first|]; [|discriminate].
  destruct (py_index state_rl (-1)) as [last|]; [|discriminate].
  destruct (negb _ || negb _); [discriminate|].
  destruct (tig_outer_of env rt state_rl) as [rto|]; [|discriminate].
  destruct (tig_inner_of env rt (inv_runs state_rl)) as [rti|]; [|discriminate].
  exists rto, rti, m. repeat split; assumption.
Qed.

(** Everything a returned call rests on. *)
Lemma scan_for_inv_Call fuel env region call :
  scan_for_inv fuel env region = Call call ->
  exists n rr c rt df rto rti rro rri adf max_inv_run,
    reached env region n rr c
    /\ scan_iter env region rr c = IterBreak rr rt df (rl_encoder df)
    /\ np_max (map rl_count (inv_runs (rl_encoder df))) = Some max_inv_run
    /\ MIN_INV_KMER_RUN <= max_inv_run
    /\ tig_outer_of env rt (rl_encoder df) = Some rto
    /\ tig_inner_of env rt (inv_runs (rl_encoder df)) = Some rti
    /\ lift_region_to_sub env rto = Some rro
    /\ lift_region_to_sub env rti = Some rri
    /\ (inject_Z (region_len rto) * MIN_TIG_REF_PROP <= inject_Z (region_len rro))%Q
    /\ (inject_Z (region_len rro) * MIN_TIG_REF_PROP <= inject_Z (region_len rto))%Q
    /\ annotate_inv_dup_mers env df rro rri rto rti rr = inr adf
    /\ call = InvCall.init rro rri rto rti rr rt region adf.
Proof.
  unfold scan_for_inv. intros H.
  apply scan_loop_Call in H as (n & rr & c & rt & df & rl & Hs & _ & Hb & Hc).
  pose proof (scan_iter_break _ _ _ _ _ _ _ _ Hb) as (_ & _ & Hd).
  apply scan_decide_break in Hd as (_ & _ & _ & -> & _).
  apply characterize_Call in Hc as (rto & rti & m & Hm & Hmin & Hto & Hti & Hc).
  apply check_and_call_Call in Hc
    as (rro & rri & adf & Hro & Hri & Hp1 & Hp2 & Ha & ->).
  exists n, rr, c, rt, df, rto, rti, rro, rri, adf, m.
  repeat split; assumption.
Qed.

(** ** Helper facts: [Region.expand] *)

Lemma Qtrunc_nonneg (q : Q) : (0 <= q)%Q -> 0 <= Qtrunc q.
Proof.
  intros H. unfold Qtrunc.
  destruct (Qle_bool 0 q) eqn:E.
  - change 0 with (Qfloor 0). now apply Qfloor_resp_le.
  - apply Qle_bool_iff in H. congruence.
Qed.

Lemma Qtrunc_le (q : Q) (n : Z) : (0 <= q)%Q -> (q <= inject_Z n)%Q -> Qtrunc q <= n.
Proof.
  intros H0 H. unfold Qtrunc.
  destruct (Qle_bool 0 q) eqn:E.
  - rewrite <- (Qfloor_Z n). now apply Qfloor_resp_le.
  - apply Qle_bool_iff in H0. congruence.
Qed.

Lemma Qtrunc_scale (expand_bp : Z) (balance : Q) :
  0 <= expand_bp -> (0 <= balance)%Q -> (balance <= 1)%Q ->
  0 <= Qtrunc (inject_Z expand_bp * balance) <= expand_bp.
Proof.
  intros Hbp H0 H1.
  assert (Hq : (0 <= inject_Z expand_bp)%Q).
  { change 0%Q with (inject_Z 0). now rewrite <- Zle_Qle. }
  split.
  - apply Qtrunc_nonneg. now apply Qmult_le_0_compat.
  - apply Qtrunc_le; [now apply Qmult_le_0_compat|].
    rewrite <- (Qmult_1_r (inject_Z expand_bp)) at 2.
    rewrite !(Qmult_comm (inject_Z expand_bp)).
    now apply Qmult_le_compat_r.
Qed.

(** The concrete [Region_expand] meets the contract. *)
Lemma Region_expand_clamps (r : Region) (expand_bp : Z) (balance : Q)
    (max_end : string -> Z) :
  0 <= expand_bp -> (0 <= balance)%Q -> (balance <= 1)%Q ->
  0 <= pos r -> pos r <= end_ r -> end_ r <= max_end (chrom r) ->
  let r' := Region_expand r expand_bp 0 max_end true balance in
  chrom r' = chrom r
  /\ 0 <= pos r' /\ pos r' <= pos r
  /\ end_ r <= end_ r' /\ end_ r' <= max_end (chrom r).
Proof.
  intros Hbp H0 H1 Hpos Hle Hend.
  pose proof (Qtrunc_scale expand_bp balance Hbp H0 H1) as Hep.
  unfold Region_expand. simpl.
  set (ep := Qtrunc (inject_Z expand_bp * balance)) in *.
  rewrite !andb_true_r.
  destruct (Z.ltb_spec (pos r - ep) 0);
    match goal with
    | |- context [?a >? ?b] => destruct (Z.gtb_spec a b)
    end; clearbody ep; (split; [reflexivity|lia]).
Qed.

Lemma env_of_clamps chrom_len off kmers table :
  expand_clamps (env_of chrom_len off kmers table).
Proof.
  intros r bp bal Hbp H0 H1 Hpos Hle Hend. simpl in *.
  now apply (Region_expand_clamps r bp bal (λ _, chrom_len)).
Qed.

Lemma expand_balance_range (condensed_states : list Z) :
  (0 <= expand_balance condensed_states)%Q /\ (expand_balance condensed_states <= 1)%Q.
Proof.
  unfold expand_balance.
  repeat case_match; split; unfold Qle; simpl; lia.
Qed.

(** ** Helper facts: growth of the search region and termination *)

Lemma np_int32_id (x : Z) : - 2 ^ 31 <= x < 2 ^ 31 -> np_int32 x = x.
Proof.
  intros H. unfold np_int32. rewrite Z.mod_small; lia.
Qed.

Lemma Qtrunc_mono (p q : Q) : (0 <= p)%Q -> (p <= q)%Q -> Qtrunc p <= Qtrunc q.
Proof.
  intros H0 H. unfold Qtrunc.
  assert (Hq : (0 <= q)%Q) by (eapply Qle_trans; eassumption).
  apply Qle_bool_iff in H0 as ->. apply Qle_bool_iff in Hq as ->.
  now apply Qfloor_resp_le.
Qed.

Lemma region_ok_len (env : Env) (r : Region) :
  region_ok env r -> 0 <= region_len r <= df_fai env (chrom r).
Proof. unfold region_ok, region_len. lia. Qed.

(** The expansion size is one and a half times the length, rounded down. *)
Lemma expand_bp_of_value (r : Region) :
  0 <= region_len r -> expand_fits_int32 (region_len r) ->
  expand_bp_of r = region_len r * 3 / 2.
Proof.
  intros H0 Hfit. unfold expand_bp_of, expand_fits_int32 in *.
  assert (Hq0 : (0 <= inject_Z (region_len r) * EXPAND_FACTOR)%Q).
  { apply Qmult_le_0_compat; [|easy].
    change 0%Q with (inject_Z 0). now rewrite <- Zle_Qle. }
  pose proof (Qtrunc_nonneg _ Hq0) as Hn.
  rewrite np_int32_id by lia.
  unfold Qtrunc. apply Qle_bool_iff in Hq0 as ->.
  unfold Qfloor, EXPAND_FACTOR, inject_Z, Qmult. simpl Qnum. simpl Qden.
  change (Z.pos (1 * 10)) with (2 * 5).
  replace (region_len r * 15) with (region_len r * 3 * 5) by lia.
  apply Z.div_mul_cancel_r; lia.
Qed.

Lemma expand_bp_of_nonneg (env : Env) (r : Region) :
  region_ok env r -> expand_fits_int32 (df_fai env (chrom r)) ->
  0 <= expand_bp_of r.
Proof.
  intros Hok Hfit. apply region_ok_len in Hok as [H0 Hlen].
  unfold expand_bp_of, expand_fits_int32 in *.
  assert (Hq0 : (0 <= inject_Z (region_len r) * EXPAND_FACTOR)%Q).
  { apply Qmult_le_0_compat; [|easy].
    change 0%Q with (inject_Z 0). now rewrite <- Zle_Qle. }
  assert (Hle : (inject_Z (region_len r) * EXPAND_FACTOR
                 <= inject_Z (df_fai env (chrom r)) * EXPAND_FACTOR)%Q).
  { apply Qmult_le_compat_r; [|easy]. now rewrite <- Zle_Qle. }
  pose proof (Qtrunc_nonneg _ Hq0) as Hn.
  pose proof (Qtrunc_mono _ _ Hq0 Hle) as Hm.
  rewrite np_int32_id; lia.
Qed.

(** An iteration that continues has made the region strictly longer. *)
Lemma scan_iter_continue_grows (env : Env) (region rr : Region) (c : Z)
    (rr' : Region) (c' : Z) :
  expand_clamps env -> region_ok env rr ->
  expand_fits_int32 (df_fai env (chrom rr)) ->
  scan_iter env region rr c = IterContinue rr' c' ->
  region_ok env rr' /\ chrom rr' = chrom rr /\ region_len rr < region_len rr'.
Proof.
  intros Hclamp Hok Hfit Hit.
  apply scan_iter_continue in Hit as (rt & df & _ & Hd).
  apply scan_decide_continue in Hd as (_ & Hrr' & Hne).
  destruct (expand_balance_range (map rl_state (rl_encoder df))) as [Hb0 Hb1].
  pose proof (expand_bp_of_nonneg env rr Hok Hfit) as Hbp.
  destruct Hok as (Hpos & Hle & Hend).
  destruct (Hclamp rr (expand_bp_of rr) _ Hbp Hb0 Hb1 Hpos Hle Hend)
    as (Hch & Hp0 & Hp & He & Hm).
  rewrite <- Hrr' in Hch, Hp0, Hp, He, Hm.
  unfold region_ok, region_len in *. rewrite Hch.
  repeat split; lia.
Qed.

Lemma steps_grow (env : Env) (region rr : Region) (c : Z) (n : nat)
    (rr' : Region) (c' : Z) :
  expand_clamps env -> region_ok env rr ->
  expand_fits_int32 (df_fai env (chrom rr)) ->
  steps env region rr c n rr' c' ->
  region_ok env rr' /\ chrom rr' = chrom rr
  /\ region_len rr + Z.of_nat n <= region_len rr'.
Proof.
  intros Hclamp Hok Hfit Hs.
  induction Hs as [|rr c rr1 c1 n rr' c' Hit _ IH].
  - repeat split; [apply Hok..|lia].
  - destruct (scan_iter_continue_grows _ _ _ _ _ _ Hclamp Hok Hfit Hit)
      as (Hok1 & Hch1 & Hlt).
    rewrite <- Hch1 in Hfit.
    destruct (IH Hok1 Hfit) as (Hok' & Hch' & Hlen).
    split; [exact Hok'|]. split; [congruence|lia].
Qed.

Lemma initial_region_ref_ok (env : Env) (region : Region) :
  expand_clamps env -> region_ok env region ->
  region_ok env (initial_region_ref env region)
  /\ chrom (initial_region_ref env region) = chrom region
  /\ region_len region <= region_len (initial_region_ref env region).
Proof.
  intros Hclamp (Hpos & Hle & Hend).
  assert (H0 : (0 <= 0.5)%Q) by (unfold Qle; simpl; lia).
  assert (H1 : (0.5 <= 1)%Q) by (unfold Qle; simpl; lia).
  assert (Hbp : 0 <= INITIAL_EXPAND) by (unfold INITIAL_EXPAND; lia).
  destruct (Hclamp region INITIAL_EXPAND _ Hbp H0 H1 Hpos Hle Hend)
    as (Hch & Hp0 & Hp & He & Hm).
  unfold initial_region_ref, region_ok, region_len. rewrite Hch.
  repeat split; lia.
Qed.

Lemma scan_iter_return (env : Env) (region rr : Region) (c : Z) (r : Result) :
  scan_iter env region rr c = IterReturn r -> exists reason, r = NoCall reason.
Proof.
  unfold scan_iter, scan_decide. intros H.
  repeat case_match; try discriminate; injection H as <-; eauto.
Qed.

Lemma check_and_call_fuel env rf rr rt df rto rti orro orri :
  check_and_call env rf rr rt df rto rti orro orri <> OutOfFuel.
Proof. unfold check_and_call. repeat case_match; discriminate. Qed.

Lemma characterize_fuel env rf rr rt df state_rl :
  characterize env rf rr rt df state_rl <> OutOfFuel.
Proof.
  unfold characterize. repeat case_match; try discriminate.
  apply check_and_call_fuel.
Qed.

(** The loop ends within as many iterations as the chromosome leaves room
    for growth, plus one. *)
Lemma scan_loop_terminates (env : Env) (region rf : Region) (fuel : nat)
    (rr : Region) (c : Z) :
  expand_clamps env -> region_ok env rr ->
  expand_fits_int32 (df_fai env (chrom rr)) ->
  df_fai env (chrom rr) - region_len rr < Z.of_nat fuel ->
  scan_loop fuel env region rf rr c <> OutOfFuel.
Proof.
  intros Hclamp. revert rr c.
  induction fuel as [|fuel IH]; intros rr c Hok Hfit Hm.
  - apply region_ok_len in Hok. lia.
  - simpl. destruct (scan_iter env region rr c) as [r|rr2 rt df rl|rr1 c1] eqn:Hit.
    + apply scan_iter_return in Hit as (reason & ->). discriminate.
    + apply characterize_fuel.
    + destruct (scan_iter_continue_grows _ _ _ _ _ _ Hclamp Hok Hfit Hit)
        as (Hok1 & Hch1 & Hlt).
      apply IH; [exact Hok1|now rewrite Hch1|rewrite Hch1; lia].
Qed.

(** Once the loop has ended, more fuel changes nothing. *)
Lemma scan_loop_fuel_mono (env : Env) (region rf : Region) (fuel fuel' : nat)
    (rr : Region) (c : Z) :
  scan_loop fuel env region rf rr c <> OutOfFuel ->
  (fuel <= fuel')%nat ->
  scan_loop fuel' env region rf rr c = scan_loop fuel env region rf rr c.
Proof.
  revert fuel' rr c. induction fuel as [|fuel IH]; intros fuel' rr c H Hle.
  - simpl in H. congruence.
  - destruct fuel' as [|fuel']; [lia|]. simpl in *.
    destruct (scan_iter env region rr c); try reflexivity.
    apply IH; [exact H|lia].
Qed.

(** ** Claims on the expansion loop *)

(** C8: across the iterations of the scanning loop the length of the
    reference search region never decreases; every iteration that continues
    the loop makes it strictly longer, because an expansion that leaves the
    length unchanged returns no call at once; and the loop ends after at most
    (chromosome length + 1) iterations.  The environment's [Region.expand] is
    assumed to clamp to the chromosome ([expand_clamps]), the flagged region
    to lie inside its chromosome, and the expansion size to fit [np.int32]. *)
Theorem scan_loop_grows_and_terminates (env : Env) (region : Region) :
  expand_clamps env ->
  region_ok env region ->
  expand_fits_int32 (df_fai env (chrom region)) ->
  (forall n rr c m rr' c',
      reached env region n rr c -> steps env region rr c m rr' c' ->
      region_len rr <= region_len rr')
  /\ (forall n rr c rr' c',
      reached env region n rr c ->
      scan_iter env region rr c = IterContinue rr' c' ->
      region_len rr < region_len rr')
  /\ (forall n rr c rt df fuel,
      reached env region n rr c ->
      scan_table env region rr = inr (rt, df) -> 0 < len df ->
      no_inv_found (rl_encoder df) (c + 1) = false ->
      ref_on_both_sides (map rl_state (rl_encoder df)) = false ->
      region_len (expand env rr (expand_bp_of rr) 0 (df_fai env) true
                    (expand_balance (map rl_state (rl_encoder df))))
        = region_len rr ->
      (n < fuel)%nat ->
      scan_for_inv fuel env region = NoCall ReachedLimits)
  /\ (forall n rr c,
      reached env region n rr c -> Z.of_nat n <= df_fai env (chrom region))
  /\ (forall fuel,
      (Z.to_nat (df_fai env (chrom region)) < fuel)%nat ->
      scan_for_inv fuel env region <> OutOfFuel
      /\ scan_for_inv fuel env region
         = scan_for_inv (S (Z.to_nat (df_fai env (chrom region)))) env region).
Proof.
  intros Hclamp Hok Hfit.
  destruct (initial_region_ref_ok env region Hclamp Hok) as (Hok0 & Hch0 & Hlen0).
  assert (Hfit0 : expand_fits_int32 (df_fai env (chrom (initial_region_ref env region))))
    by now rewrite Hch0.
  assert (Hreach : forall n rr c, reached env region n rr c ->
            region_ok env rr /\ chrom rr = chrom region
            /\ region_len region + Z.of_nat n <= region_len rr).
  { intros n rr c Hr.
    destruct (steps_grow _ _ _ _ _ _ _ Hclamp Hok0 Hfit0 Hr) as (H1 & H2 & H3).
    split; [exact H1|]. split; [congruence|lia]. }
  split; [|split; [|split; [|split]]].
  - intros n rr c m rr' c' Hr Hs.
    destruct (Hreach _ _ _ Hr) as (Hokr & Hchr & _).
    assert (Hfitr : expand_fits_int32 (df_fai env (chrom rr))) by now rewrite Hchr.
    destruct (steps_grow _ _ _ _ _ _ _ Hclamp Hokr Hfitr Hs) as (_ & _ & H). lia.
  - intros n rr c rr' c' Hr Hit.
    destruct (Hreach _ _ _ Hr) as (Hokr & Hchr & _).
    assert (Hfitr : expand_fits_int32 (df_fai env (chrom rr))) by now rewrite Hchr.
    now destruct (scan_iter_continue_grows _ _ _ _ _ _ Hclamp Hokr Hfitr Hit)
      as (_ & _ & H).
  - intros n rr c rt df fuel Hr Ht Hdf Hno Hboth Hsame Hfuel.
    unfold scan_for_inv. eapply scan_loop_return; [exact Hr| |exact Hfuel].
    unfold scan_iter. rewrite Ht.
    destruct (Z.gtb_spec (len df) 0) as [_|]; [|lia].
    unfold scan_decide. rewrite Hno, Hboth.
    apply Z.eqb_eq in Hsame. now rewrite Hsame.
  - intros n rr c Hr.
    destruct (Hreach _ _ _ Hr) as (Hokr & Hchr & Hn).
    apply region_ok_len in Hokr. apply region_ok_len in Hok.
    rewrite Hchr in Hokr. lia.
  - intros fuel Hfuel.
    assert (Hend : forall f, (Z.to_nat (df_fai env (chrom region)) < f)%nat ->
              scan_for_inv f env region <> OutOfFuel).
    { intros f Hf. unfold scan_for_inv.
      apply scan_loop_terminates; [exact Hclamp|exact Hok0|exact Hfit0|].
      rewrite Hch0. apply region_ok_len in Hok0. lia. }
    split; [now apply Hend|].
    unfold scan_for_inv. apply scan_loop_fuel_mono; [|lia].
    apply (Hend (S (Z.to_nat (df_fai env (chrom region))))). lia.
Qed.

Lemma scan_loop_grows_and_terminates_witness :
  region_len (initial_region_ref env_fwd region_flagged)
    < region_len (mkRegion "chr1" 4925 15175 false)
  /\ scan_for_inv 1 env_whole region_whole = NoCall ReachedLimits
  /\ scan_for_inv (Z.to_nat 100001) env_fwd region_flagged <> OutOfFuel.
Proof.
  assert (Hok : forall l, 12100 <= l ->
            region_ok (env_of l 5000 kmers_flat (λ _, table_fwd)) region_flagged).
  { intros l Hl. unfold region_ok. simpl. lia. }
  assert (Hfit : expand_fits_int32 100000) by (vm_compute; reflexivity).
  destruct (scan_loop_grows_and_terminates env_fwd region_flagged
              (env_of_clamps _ _ _ _) (Hok 100000 ltac:(lia)) Hfit)
    as (_ & Hgrow & _ & _ & Hterm).
  split; [|split].
  - apply (Hgrow 0%nat (initial_region_ref env_fwd region_flagged) 0 _ 1).
    + constructor.
    + vm_compute. reflexivity.
  - assert (Hokw : region_ok env_whole region_whole)
      by (unfold region_ok; simpl; lia).
    assert (Hfitw : expand_fits_int32 4100) by (vm_compute; reflexivity).
    destruct (scan_loop_grows_and_terminates env_whole region_whole
                (env_of_clamps _ _ _ _) Hokw Hfitw)
      as (_ & _ & Hsame & _ & _).
    apply (Hsame 0%nat (initial_region_ref env_whole region_whole) 0
             (mkRegion "tig1" 0 4100 false) table_fwd 1%nat).
    + constructor.
    + vm_compute. reflexivity.
    + vm_compute. reflexivity.
    + vm_compute. reflexivity.
    + vm_compute. reflexivity.
    + vm_compute. reflexivity.
    + lia.
  - apply (Hterm (Z.to_nat 100001)). simpl. lia.
Defined.

(** C8, as stated for any input, fails once [np.int32] overflows: on a
    chromosome of 3,000,000,000 bases the first search region has
    2,863,311,530 bases, 1.5 times that is 2^32 - 1, which does not fit 32
    bits; the expansion size the code computes is not positive (-1 here),
    the region handed back is one base shorter, and the loop goes on with
    it, although [Region.expand] clamps and the flagged region lies inside
    its chromosome. *)
Lemma int32_overflow_shrinks_search_region : ~ search_region_never_shrinks.
Proof.
  intros H.
  assert (Hclamp : expand_clamps env_huge).
  { intros r bp bal Hbp H0 H1 Hpos Hle Hend. simpl in *.
    now apply (Region_expand_clamps r bp bal (λ _, 3000000000)). }
  assert (Hok : region_ok env_huge region_huge)
    by (unfold region_ok; simpl; lia).
  assert (Hbp : expand_bp_of (initial_region_ref env_huge region_huge) = -1)
    by (vm_compute; reflexivity).
  assert (Hit : scan_iter env_huge region_huge
                  (initial_region_ref env_huge region_huge) 0
                = IterContinue (mkRegion "chr1" 0 2863311529 false) 1)
    by (vm_compute; reflexivity).
  specialize (H env_huge region_huge 0%nat
                (initial_region_ref env_huge region_huge) 0
                (mkRegion "chr1" 0 2863311529 false) 1 Hclamp Hok
                (steps_O _ _ _ _) Hit).
  vm_compute in H. apply H. reflexivity.
Qed.

(** C6, as stated, fails: with the whole chromosome flagged, the first
    iteration sees a single FWD run with expansion count 1, the expansion
    cannot grow the region, and the scan returns no call instead of going on. *)
Lemma single_fwd_run_may_stop_early : ~ single_fwd_run_always_continues.
Proof.
  intros H.
  destruct (H env_whole region_whole 0%nat
              (initial_region_ref env_whole region_whole) 0
              (mkRegion "tig1" 0 4100 false) table_fwd
              (mkRun 0 300 0 299)) as (rr' & c' & Hit).
  - constructor.
  - vm_compute. reflexivity.
  - vm_compute. reflexivity.
  - reflexivity.
  - vm_compute. reflexivity.
  - vm_compute in Hit. discriminate.
Qed.

(** C6 (amended): when the table of an iteration encodes to exactly one run
    and that run is FWD, then (the expansion count being the number of the
    iteration) with an expansion count of at least [MIN_EXP_COUNT]
    [scan_for_inv] returns no call; with a smaller count the region is
    expanded evenly, and the loop continues if that changed the length of the
    region and returns no call if it did not. *)
Theorem single_fwd_run_decision (env : Env) (region : Region) (n : nat)
    (rr : Region) (c : Z) (rt : Region) (df : list Row) (run : Run) :
  reached env region n rr c ->
  scan_table env region rr = inr (rt, df) ->
  rl_encoder df = [run] -> rl_state run = FWD ->
  c + 1 = Z.of_nat n + 1
  /\ (MIN_EXP_COUNT <= c + 1 ->
      forall fuel, (n < fuel)%nat ->
        scan_for_inv fuel env region = NoCall (NoInvertedAfterExpansions (c + 1)))
  /\ (c + 1 < MIN_EXP_COUNT ->
      let rr' := expand env rr (expand_bp_of rr) 0 (df_fai env) true 0.5%Q in
      (region_len rr' <> region_len rr ->
         scan_iter env region rr c = IterContinue rr' (c + 1))
      /\ (region_len rr' = region_len rr ->
          forall fuel, (n < fuel)%nat ->
            scan_for_inv fuel env region = NoCall ReachedLimits)).
Proof.
  intros Hr Ht Hrl Hst.
  assert (Hdf : (len df >? 0) = true).
  { destruct df; [discriminate|]. unfold len. simpl. apply Z.gtb_lt. lia. }
  assert (Hit : scan_iter env region rr c = scan_decide env rr rt df (c + 1)).
  { unfold scan_iter. now rewrite Ht, Hdf. }
  split; [|split].
  - apply steps_count in Hr. lia.
  - intros Hmin fuel Hfuel. unfold scan_for_inv.
    eapply scan_loop_return; [exact Hr| |exact Hfuel].
    rewrite Hit. unfold scan_decide, no_inv_found. rewrite Hrl.
    change (len [run] =? 1) with true. rewrite py_index_0. simpl.
    rewrite Hst. simpl.
    destruct (Z.geb_spec (c + 1) MIN_EXP_COUNT) as [_|]; [reflexivity|lia].
  - intros Hlt rr'.
    assert (Hd : scan_decide env rr rt df (c + 1) =
                 if region_len rr' =? region_len rr
                 then IterReturn (NoCall ReachedLimits)
                 else IterContinue rr' (c + 1)).
    { unfold scan_decide, no_inv_found, ref_on_both_sides, expand_balance.
      rewrite Hrl. simpl map. change (len [run] =? 1) with true.
      change (len [rl_state run] >? 2) with false.
      destruct (Z.geb_spec (c + 1) MIN_EXP_COUNT) as [|_]; [lia|].
      rewrite andb_false_r. reflexivity. }
    split.
    + intros Hne. rewrite Hit, Hd.
      destruct (Z.eqb_spec (region_len rr') (region_len rr)); [contradiction|reflexivity].
    + intros Heq fuel Hfuel. unfold scan_for_inv.
      eapply scan_loop_return; [exact Hr| |exact Hfuel].
      rewrite Hit, Hd. apply Z.eqb_eq in Heq. now rewrite Heq.
Qed.

Lemma single_fwd_run_decision_witness :
  scan_iter env_fwd region_flagged (initial_region_ref env_fwd region_flagged) 0
    = IterContinue (mkRegion "chr1" 4925 15175 false) 1
  /\ scan_for_inv 3 env_fwd region_flagged = NoCall (NoInvertedAfterExpansions 3)
  /\ scan_for_inv 1 env_whole region_whole = NoCall ReachedLimits.
Proof.
  split; [|split].
  - assert (Hr : reached env_fwd region_flagged 0
                   (initial_region_ref env_fwd region_flagged) 0) by constructor.
    destruct (single_fwd_run_decision env_fwd region_flagged 0
                (initial_region_ref env_fwd region_flagged) 0
                (mkRegion "tig1" 3000 7100 false) table_fwd (mkRun 0 300 0 299)
                Hr ltac:(vm_compute; reflexivity) ltac:(vm_compute; reflexivity)
                eq_refl) as (_ & _ & Hlow).
    destruct (Hlow ltac:(vm_compute; reflexivity)) as (Hgo & _).
    apply Hgo. vm_compute. discriminate.
  - assert (Hr : reached env_fwd region_flagged 2
                   (mkRegion "chr1" 0 25625 false) 2).
    { eapply steps_S; [vm_compute; reflexivity|].
      eapply steps_S; [vm_compute; reflexivity|]. constructor. }
    destruct (single_fwd_run_decision env_fwd region_flagged 2
                (mkRegion "chr1" 0 25625 false) 2
                (mkRegion "tig1" 0 20625 false) table_fwd (mkRun 0 300 0 299)
                Hr ltac:(vm_compute; reflexivity) ltac:(vm_compute; reflexivity)
                eq_refl) as (_ & Hstop & _).
    apply Hstop; [vm_compute; discriminate|lia].
  - assert (Hr : reached env_whole region_whole 0
                   (initial_region_ref env_whole region_whole) 0) by constructor.
    destruct (single_fwd_run_decision env_whole region_whole 0
                (initial_region_ref env_whole region_whole) 0
                (mkRegion "tig1" 0 4100 false) table_fwd (mkRun 0 300 0 299)
                Hr ltac:(vm_compute; reflexivity) ltac:(vm_compute; reflexivity)
                eq_refl) as (_ & _ & Hlow).
    destruct (Hlow ltac:(vm_compute; reflexivity)) as (_ & Hstop).
    apply Hstop; [vm_compute; reflexivity|lia].
Defined.

(** The balance of the expand branch: with more than two runs it follows
    the end that shows FWD signal, with one or two runs it is even. *)
Lemma expand_balance_rule (condensed_states : list Z) :
  (2 < len condensed_states ->
     (head condensed_states = Some FWD -> expand_balance condensed_states = 0.25%Q)
     /\ (head condensed_states <> Some FWD -> last condensed_states = Some FWD ->
         expand_balance condensed_states = 0.75%Q)
     /\ (head condensed_states <> Some FWD -> last condensed_states <> Some FWD ->
         expand_balance condensed_states = 0.5%Q))
  /\ (len condensed_states <= 2 -> expand_balance condensed_states = 0.5%Q).
Proof.
  unfold expand_balance, FWD. rewrite py_index_0, py_index_last. split.
  - intros Hlen. destruct (Z.gtb_spec (len condensed_states) 2) as [_|]; [|lia].
    repeat split.
    + intros Hh. apply cstate_is_true in Hh. now rewrite Hh.
    + intros Hh Hl. apply cstate_is_true in Hl. rewrite Hl.
      destruct (cstate_is (head condensed_states) 0) eqn:E; [|reflexivity].
      apply cstate_is_true in E. contradiction.
    + intros Hh Hl.
      destruct (cstate_is (head condensed_states) 0) eqn:E1.
      { apply cstate_is_true in E1. contradiction. }
      destruct (cstate_is (last condensed_states) 0) eqn:E2; [|reflexivity].
      apply cstate_is_true in E2. contradiction.
  - intros Hlen. destruct (Z.gtb_spec (len condensed_states) 2) as [|_]; [lia|].
    reflexivity.
Qed.

(** C1 at a table of exactly two runs, FWD then REV: the decision step takes
    the expand branch, and the region is expanded evenly (balance 0.5), not
    25% upstream / 75% downstream. *)
Theorem expand_two_runs_is_even :
  let rr := initial_region_ref env_fwd_rev region_flagged in
  map rl_state (rl_encoder table_fwd_rev) = [FWD; REV]
  /\ expand_balance [FWD; REV] = 0.5%Q
  /\ scan_iter env_fwd_rev region_flagged rr 0
     = IterContinue
         (Region_expand rr (expand_bp_of rr) 0 (df_fai env_fwd_rev) true 0.5) 1
  /\ Region_expand rr (expand_bp_of rr) 0 (df_fai env_fwd_rev) true 0.5
     = mkRegion "chr1" 4925 15175 false
  /\ Region_expand rr (expand_bp_of rr) 0 (df_fai env_fwd_rev) true 0.25
     = mkRegion "chr1" 6463 16713 false.
Proof. vm_compute. repeat split; reflexivity. Qed.

(** ** Claims on the flank annotation *)

(** The table of a call is annotated with the position of the reference
    discovery region as the offset of the contig indices. *)
Lemma scan_for_inv_annotation_offset fuel env region call :
  scan_for_inv fuel env region = Call call ->
  annotate_inv_dup_mers env (map row (InvCall.df call))
    (InvCall.region_ref_outer call) (InvCall.region_ref_inner call)
    (InvCall.region_tig_outer call) (InvCall.region_tig_inner call)
    (InvCall.region_ref_discovery call)
  = inr (InvCall.df call).
Proof.
  intros H.
  apply scan_for_inv_Call in H
    as (n & rr & c & rt & df & rto & rti & rro & rri & adf & m & H).
  destruct H as (_ & _ & _ & _ & _ & _ & _ & _ & _ & _ & Ha & ->).
  simpl. now rewrite (annotate_inv_dup_mers_keeps_rows _ _ _ _ _ _ _ _ Ha).
Qed.

(** C2 on a concrete scan: the contig discovery region starts at 7980 and the
    reference one at 8000; the upstream window of the contig is
    [8080, 8130 - 31).  The row with index 100 lies in it (7980 + 100) and gets
    no flank label, the row with index 80 lies outside (7980 + 80) and is
    labelled UP: the offset used is the start of the reference discovery
    region.  With the contig discovery region as sixth argument the annotator
    labels the row with index 100 and not the one with index 80. *)
Theorem flank_offset_is_reference_start :
  exists call adf,
    scan_for_inv 1 env_inv_near region_flagged = Call call
    /\ pos (InvCall.region_tig_discovery call) = 7980
    /\ pos (InvCall.region_ref_discovery call) = 8000
    /\ InvCall.region_tig_outer call = mkRegion "tig1" 8080 8410 false
    /\ InvCall.region_tig_inner call = mkRegion "tig1" 8130 8360 false
    /\ k_size env_inv_near = 31
    /\ (INDEX ∘ row) <$> InvCall.df call !! 100%nat = Some 100
    /\ FLANK <$> InvCall.df call !! 100%nat = Some None
    /\ (INDEX ∘ row) <$> InvCall.df call !! 80%nat = Some 80
    /\ FLANK <$> InvCall.df call !! 80%nat = Some (Some UP)
    /\ annotate_inv_dup_mers env_inv_near table_inv
         (InvCall.region_ref_outer call) (InvCall.region_ref_inner call)
         (InvCall.region_tig_outer call) (InvCall.region_tig_inner call)
         (InvCall.region_tig_discovery call) = inr adf
    /\ FLANK <$> adf !! 100%nat = Some (Some UP)
    /\ FLANK <$> adf !! 80%nat = Some None.
Proof.
  eexists. eexists.
  split; [vm_compute; reflexivity|].
  repeat split; vm_compute; reflexivity.
Qed.

Lemma ref_set_canonical (env : Env) (region_dup : Region) (s : gset Z) (x : Z) :
  ref_set env region_dup = Some s -> x ∈ s ->
  exists counts kmer count,
    ref_kmers env region_dup = Some counts
    /\ (kmer, count) ∈ counts /\ x = canonical_complement env kmer.
Proof.
  unfold ref_set. destruct (ref_kmers env region_dup) as [counts|]; [|discriminate].
  intros [= <-] Hx. apply elem_of_list_to_set in Hx.
  apply list_elem_of_In, in_map_iff in Hx as ([kmer count] & <- & Hin).
  exists counts, kmer, count. split; [reflexivity|].
  split; [now apply list_elem_of_In|reflexivity].
Qed.

(** C9: the reference duplication sets hold canonical k-mers, while the
    lookup that gives a flank k-mer its MATCH label uses the raw k-mer of the
    row; the [KMER_CAN] column has no part in it.  So a flank k-mer whose raw
    value is in neither set is left unlabelled, whatever sets its canonical
    form belongs to. *)
Theorem flank_match_uses_raw_kmer (env : Env) (df : list Row)
    (ro ri to ti disc : Region) (adf : list ARow) (up dn : gset Z)
    (i : nat) (r : ARow) :
  annotate_inv_dup_mers env df ro ri to ti disc = inr adf ->
  ref_set env (new_Region (chrom ro) (pos ro) (pos ri)) = Some up ->
  ref_set env (new_Region (chrom ro) (end_ ri) (end_ ro)) = Some dn ->
  adf !! i = Some r ->
  (forall x, x ∈ up ∪ dn -> exists kmer, x = canonical_complement env kmer)
  /\ (forall can,
        r = annotate_wrow (k_size env) up dn
              (new_Region (chrom to) (pos to) (pos ti))
              (new_Region (chrom to) (end_ ti) (end_ to))
              (mkWRow (row r) can (INDEX (row r) + pos disc) None None))
  /\ MATCH r =
       match FLANK r with
       | Some UP =>
           match KMER_LOC_STATE (bool_decide (KMER (row r) ∈ up))
                                (bool_decide (KMER (row r) ∈ dn)) with
           | NA => None
           | cell => Some cell
           end
       | Some DN =>
           match KMER_LOC_STATE (bool_decide (KMER (row r) ∈ dn))
                                (bool_decide (KMER (row r) ∈ up)) with
           | NA => None
           | cell => Some cell
           end
       | None => None
       end
  /\ (FLANK r <> None -> KMER (row r) ∉ up -> KMER (row r) ∉ dn -> MATCH r = None).
Proof.
  intros Ha Hup Hdn Hi.
  apply annotate_inv_dup_mers_rows in Ha as (up' & dn' & Hup' & Hdn' & ->).
  rewrite Hup in Hup'. rewrite Hdn in Hdn'.
  injection Hup' as <-. injection Hdn' as <-.
  change (map ?f df) with (f <$> df) in Hi.
  rewrite list_lookup_fmap in Hi.
  destruct (df !! i) as [r0|]; [|discriminate]. injection Hi as <-.
  assert (Hmatch := annotate_row_MATCH env up dn
            (new_Region (chrom to) (pos to) (pos ti))
            (new_Region (chrom to) (end_ ti) (end_ to)) (pos disc) r0).
  rewrite annotate_row_row.
  split; [|split; [|split]].
  - intros x Hx. apply elem_of_union in Hx as [Hx|Hx].
    + destruct (ref_set_canonical _ _ _ _ Hup Hx) as (_ & kmer & _ & _ & _ & ->).
      now exists kmer.
    + destruct (ref_set_canonical _ _ _ _ Hdn Hx) as (_ & kmer & _ & _ & _ & ->).
      now exists kmer.
  - intros can. unfold annotate_row. apply annotate_wrow_ignores_KMER_CAN.
  - exact Hmatch.
  - intros Hflank Hnu Hnd. rewrite Hmatch.
    rewrite (bool_decide_eq_false_2 _ Hnu), (bool_decide_eq_false_2 _ Hnd).
    destruct (FLANK _) as [[|]|]; reflexivity.
Qed.

Lemma flank_match_uses_raw_kmer_witness :
  adf_dup !! 0%nat
    = Some (mkARow (mkRow 3000 5 1 0.1 0.8 0.1)%Q (Some UP) None)
  /\ canonical_complement env_dup 3000 ∈ ({[2000]} : gset Z)
  /\ MATCH (mkARow (mkRow 3000 5 1 0.1 0.8 0.1)%Q (Some UP) None) = None.
Proof.
  assert (Hrow : adf_dup !! 0%nat
            = Some (mkARow (mkRow 3000 5 1 0.1 0.8 0.1)%Q (Some UP) None))
    by (vm_compute; reflexivity).
  split; [exact Hrow|]. split; [vm_compute; set_solver|].
  refine (proj2 (proj2 (proj2
    (flank_match_uses_raw_kmer env_dup df_dup ref_outer_dup ref_inner_dup
       tig_outer_dup tig_inner_dup tig_discovery_dup adf_dup {[2000]} {[500]}
       0%nat _ _ _ _ Hrow))) _ _ _).
  - vm_compute. reflexivity.
  - vm_compute. reflexivity.
  - vm_compute. reflexivity.
  - simpl. discriminate.
  - simpl. set_solver.
  - simpl. set_solver.
Defined.

(** ** Claims on [InvCall] *)

Lemma Qmax_cases (x y : Q) : Qmax x y = x \/ Qmax x y = y.
Proof.
  unfold Qmax, GenericMinMax.gmax. destruct (x ?= y)%Q; auto.
Qed.

Lemma fold_Qmax_elem (l : list Q) (a : Q) :
  fold_left Qmax l a = a \/ fold_left Qmax l a ∈ l.
Proof.
  revert a. induction l as [|b l IH]; intros a; simpl; [now left|].
  destruct (IH (Qmax a b)) as [H|H].
  - rewrite H. destruct (Qmax_cases a b) as [->| ->]; [now left|right; left].
  - right. now right.
Qed.

Lemma fold_Qmax_ge (l : list Q) (a : Q) :
  (a <= fold_left Qmax l a)%Q
  /\ forall x, x ∈ l -> (x <= fold_left Qmax l a)%Q.
Proof.
  revert a. induction l as [|b l IH]; intros a; simpl.
  - split; [apply Qle_refl|]. intros x Hx. inversion Hx.
  - destruct (IH (Qmax a b)) as [H1 H2]. split.
    + eapply Qle_trans; [apply Q.le_max_l|exact H1].
    + intros x Hx. apply elem_of_cons in Hx as [->|Hx].
      * eapply Qle_trans; [apply Q.le_max_r|exact H1].
      * now apply H2.
Qed.

Lemma np_max_Q_spec (l : list Q) :
  match np_max_Q l with
  | Some m => m ∈ l /\ forall x, x ∈ l -> (x <= m)%Q
  | None => l = []
  end.
Proof.
  destruct l as [|a l]; simpl; [reflexivity|]. split.
  - destruct (fold_Qmax_elem l a) as [->|H]; [left|now right].
  - intros x Hx. destruct (fold_Qmax_ge l a) as [H1 H2].
    apply elem_of_cons in Hx as [->|Hx]; [exact H1|now apply H2].
Qed.

Lemma rev_rows_elem (df : list ARow) (r : ARow) :
  r ∈ InvCall.rev_rows df <-> r ∈ df /\ STATE (row r) = REV.
Proof.
  unfold InvCall.rev_rows. rewrite list_elem_of_filter. unfold REV. tauto.
Qed.

Example format_int_examples :
  format_int 8101 = "8101"%string /\ format_int 0 = "0"%string
  /\ format_int (-12) = "-12"%string.
Proof. repeat split; reflexivity. Qed.

(** C7: for the call built by [InvCall.__init__], [svlen] is the length of
    the outer reference region; [id] is made of the chromosome of that
    region, its start position plus one, and [svlen]; and [max_inv_den_diff]
    is the maximum, over the rows whose STATE is REV, of [KERN_REV] minus the
    larger of [KERN_FWD] and [KERN_FWDREV] (it is undefined exactly when no
    row is REV). *)
Theorem InvCall_init_fields (ro ri to ti rd td rf : Region) (df : list ARow) :
  let call := InvCall.init ro ri to ti rd td rf df in
  InvCall.region_ref_outer call = ro
  /\ InvCall.svlen call = region_len (InvCall.region_ref_outer call)
  /\ InvCall.id call =
       String.append (chrom ro)
         (String.append "-"
            (String.append (format_int (pos ro + 1))
               (String.append "-INV-" (format_int (InvCall.svlen call)))))
  /\ match InvCall.max_inv_den_diff call with
     | Some m =>
         (exists r, r ∈ df /\ STATE (row r) = REV
            /\ m = (KERN_REV (row r) - Qmax (KERN_FWD (row r)) (KERN_FWDREV (row r)))%Q)
         /\ (forall r, r ∈ df -> STATE (row r) = REV ->
               (KERN_REV (row r) - Qmax (KERN_FWD (row r)) (KERN_FWDREV (row r)) <= m)%Q)
     | None => forall r, r ∈ df -> STATE (row r) <> REV
     end.
Proof.
  simpl. repeat split.
  pose proof (np_max_Q_spec (map InvCall.den_diff (InvCall.rev_rows df))) as H.
  destruct (np_max_Q (map InvCall.den_diff (InvCall.rev_rows df))) as [m|].
  - destruct H as [Hin Hmax]. split.
    + apply list_elem_of_In, in_map_iff in Hin as (r & <- & Hr).
      apply list_elem_of_In, rev_rows_elem in Hr as [Hr Hs].
      exists r. repeat split; assumption.
    + intros r Hr Hs. apply (Hmax (InvCall.den_diff r)).
      apply list_elem_of_In, in_map. apply list_elem_of_In.
      apply rev_rows_elem. now split.
  - intros r Hr Hs.
    assert (Hin : r ∈ InvCall.rev_rows df) by (apply rev_rows_elem; now split).
    apply map_eq_nil in H. rewrite H in Hin. inversion Hin.
Qed.

Lemma InvCall_init_fields_witness :
  let call := InvCall.init (mkRegion "chr1" 8100 8380 false) ref_inner_dup
                tig_outer_dup tig_inner_dup ref_outer_dup tig_discovery_dup
                ref_outer_dup adf_dup in
  InvCall.svlen call = 280
  /\ InvCall.id call = "chr1-8101-INV-280"%string.
Proof.
  destruct (InvCall_init_fields (mkRegion "chr1" 8100 8380 false) ref_inner_dup
              tig_outer_dup tig_inner_dup ref_outer_dup tig_discovery_dup
              ref_outer_dup adf_dup) as (_ & Hlen & Hid & _).
  split; [exact Hlen|exact Hid].
Defined.

Lemma rev_rows_count (adf : list ARow) :
  len (InvCall.rev_rows adf) = state_count REV (map row adf).
Proof.
  unfold InvCall.rev_rows, state_count, len, REV. f_equal.
  induction adf as [|r adf IH]; [reflexivity|].
  simpl map. rewrite !filter_cons.
  destruct (decide (STATE (row r) = 2)); simpl; lia.
Qed.

(** C10: a call is built only for a table with a REV run of at least
    [MIN_INV_KMER_RUN] k-mers; the table of the call then has at least that
    many rows in state REV, so the selection [df['STATE'] == 2] of the
    constructor is not empty and [max_inv_den_diff] is defined. *)
Theorem call_has_rev_rows (fuel : nat) (env : Env) (region : Region)
    (call : InvCall.t) :
  scan_for_inv fuel env region = Call call ->
  (exists run, run ∈ rl_encoder (map row (InvCall.df call))
      /\ rl_state run = REV /\ MIN_INV_KMER_RUN <= rl_count run)
  /\ MIN_INV_KMER_RUN <= len (InvCall.rev_rows (InvCall.df call))
  /\ InvCall.rev_rows (InvCall.df call) <> []
  /\ is_Some (InvCall.max_inv_den_diff call).
Proof.
  intros H.
  apply scan_for_inv_Call in H
    as (n & rr & c & rt & df & rto & rti & rro & rri & adf & m & H).
  destruct H as (_ & _ & Hmax & Hmin & _ & _ & _ & _ & _ & _ & Ha & ->).
  apply annotate_inv_dup_mers_keeps_rows in Ha.
  apply np_max_elem in Hmax.
  apply list_elem_of_In, in_map_iff in Hmax as (run & <- & Hrun).
  apply list_elem_of_In in Hrun. unfold inv_runs in Hrun.
  apply list_elem_of_filter in Hrun as [Hst Hrun].
  pose proof (rl_encoder_count _ _ Hrun) as Hcount. rewrite Hst in Hcount.
  simpl InvCall.df. rewrite Ha.
  assert (Hrows : MIN_INV_KMER_RUN <= len (InvCall.rev_rows adf)).
  { rewrite rev_rows_count, Ha. lia. }
  assert (Hne : InvCall.rev_rows adf <> []).
  { intros E. rewrite E in Hrows. unfold MIN_INV_KMER_RUN, len in Hrows.
    simpl in Hrows. lia. }
  split; [exists run; now repeat split|].
  split; [exact Hrows|]. split; [exact Hne|].
  simpl. destruct (InvCall.rev_rows adf) as [|r rest]; [contradiction|].
  simpl. eauto.
Qed.

Lemma call_has_rev_rows_witness :
  scan_for_inv 1 env_inv region_flagged = Call call_inv
  /\ MIN_INV_KMER_RUN <= len (InvCall.rev_rows (InvCall.df call_inv))
  /\ is_Some (InvCall.max_inv_den_diff call_inv).
Proof.
  assert (Hcall : scan_for_inv 1 env_inv region_flagged = Call call_inv)
    by (vm_compute; reflexivity).
  split; [exact Hcall|].
  pose proof (call_has_rev_rows 1 env_inv region_flagged call_inv Hcall) as H.
  split; [exact (proj1 (proj2 H))|exact (proj2 (proj2 (proj2 H)))].
Defined.

(** ** Claims on the code after the loop *)

Lemma existsb_rev (state_rl : list Run) :
  existsb (λ record, rl_state record =? 2) state_rl = true
  <-> exists run, run ∈ state_rl /\ rl_state run = REV.
Proof.
  rewrite existsb_exists. unfold REV. split.
  - intros (run & Hin & Hst). exists run. split; [now apply list_elem_of_In|lia].
  - intros (run & Hin & Hst). exists run. split; [now apply list_elem_of_In|lia].
Qed.

Lemma inv_runs_elem (state_rl : list Run) (run : Run) :
  run ∈ inv_runs state_rl <-> run ∈ state_rl /\ rl_state run = REV.
Proof. unfold inv_runs. rewrite list_elem_of_filter. tauto. Qed.

(** The code after the loop, once both checks on the inverted runs pass. *)
Lemma characterize_passes env rf rr rt df state_rl run first last :
  run ∈ state_rl -> rl_state run = REV -> MIN_INV_KMER_RUN <= rl_count run ->
  head state_rl = Some first -> list.last state_rl = Some last ->
  characterize env rf rr rt df state_rl =
    if negb (rl_state first =? 0) || negb (rl_state last =? 0)
    then Raised (RuntimeError rr)
    else
      match tig_outer_of env rt state_rl with
      | None => Raised IndexError
      | Some region_tig_outer =>
        match tig_inner_of env rt (inv_runs state_rl) with
        | None => Raised IndexError
        | Some region_tig_inner =>
            check_and_call env rf rr rt df region_tig_outer region_tig_inner
              (lift_region_to_sub env region_tig_outer)
              (lift_region_to_sub env region_tig_inner)
        end
      end.
Proof.
  intros Hin Hst Hmin Hhead Hlast.
  unfold characterize. cbv zeta.
  change (filter (λ val, rl_state val = 2) state_rl) with (inv_runs state_rl).
  assert (Hex : existsb (λ record, rl_state record =? 2) state_rl = true)
    by (apply existsb_rev; eauto).
  rewrite Hex. simpl negb. cbv iota.
  assert (Hrun : run ∈ inv_runs state_rl) by (apply inv_runs_elem; now split).
  destruct (np_max (map rl_count (inv_runs state_rl))) as [m|] eqn:Hm.
  - assert (Hge : rl_count run <= m).
    { apply (np_max_ge _ _ _ Hm). apply list_elem_of_In, in_map.
      now apply list_elem_of_In. }
    destruct (Z.ltb_spec m MIN_INV_KMER_RUN) as [|_]; [lia|].
    rewrite py_index_0, py_index_last, Hhead, Hlast. reflexivity.
  - destruct (inv_runs state_rl); [inversion Hrun|discriminate].
Qed.

Lemma tig_outer_of_runs env rt (state_rl : list Run) r1 rn2 :
  state_rl !! 1%nat = Some r1 ->
  state_rl !! (length state_rl - 2)%nat = Some rn2 ->
  tig_outer_of env rt state_rl =
    Some (new_Region (chrom rt) (rl_pos r1 + pos rt)
            (rl_end rn2 + pos rt + k_size env)).
Proof.
  intros H1 H2. unfold tig_outer_of.
  assert (Hlen : (2 <= length state_rl)%nat).
  { apply lookup_lt_Some in H1. lia. }
  change 1 with (Z.of_nat 1). rewrite py_index_nonneg, H1.
  change (-2) with (- Z.of_nat 2). rewrite py_index_neg by lia.
  now rewrite H2.
Qed.

Lemma tig_inner_of_runs env rt (state_rl_inv : list Run) first_rev last_rev :
  head state_rl_inv = Some first_rev ->
  list.last state_rl_inv = Some last_rev ->
  tig_inner_of env rt state_rl_inv =
    Some (new_Region (chrom rt) (rl_pos first_rev + pos rt)
            (rl_end last_rev + pos rt + k_size env)).
Proof.
  intros H1 H2. unfold tig_inner_of.
  now rewrite py_index_0, py_index_last, H1, H2.
Qed.

Lemma check_and_call_regions env rf rr rt df rto rti orro orri call :
  check_and_call env rf rr rt df rto rti orro orri = Call call ->
  InvCall.region_tig_outer call = rto /\ InvCall.region_tig_inner call = rti
  /\ orro = Some (InvCall.region_ref_outer call)
  /\ orri = Some (InvCall.region_ref_inner call).
Proof.
  intros H. apply check_and_call_Call in H
    as (rro & rri & adf & -> & -> & _ & _ & _ & ->).
  repeat split.
Qed.

(** C3: when the loop is left in the FOUND state (more than two runs, the
    first and the last FWD) and the checks on the inverted runs pass, the
    outer contig region goes from the start index of the second run to the
    end index of the second-to-last run plus one k-mer length, the inner one
    from the start index of the first REV run to the end index of the last
    REV run plus one k-mer length, both offset by the start of the lifted
    contig region; the reference regions of a call are their lifts. *)
Theorem found_breakpoints (env : Env) (region : Region) (fuel n : nat)
    (rr : Region) (c : Z) (rt : Region) (df : list Row) (state_rl : list Run)
    (r1 rn2 first_rev last_rev run : Run) :
  reached env region n rr c -> (n < fuel)%nat ->
  scan_iter env region rr c = IterBreak rr rt df state_rl ->
  state_rl !! 1%nat = Some r1 ->
  state_rl !! (length state_rl - 2)%nat = Some rn2 ->
  head (inv_runs state_rl) = Some first_rev ->
  list.last (inv_runs state_rl) = Some last_rev ->
  run ∈ state_rl -> rl_state run = REV -> MIN_INV_KMER_RUN <= rl_count run ->
  let region_tig_outer :=
    new_Region (chrom rt) (rl_pos r1 + pos rt) (rl_end rn2 + pos rt + k_size env) in
  let region_tig_inner :=
    new_Region (chrom rt) (rl_pos first_rev + pos rt)
      (rl_end last_rev + pos rt + k_size env) in
  (2 < len state_rl
   /\ rl_state <$> head state_rl = Some FWD
   /\ rl_state <$> list.last state_rl = Some FWD)
  /\ scan_for_inv fuel env region =
       check_and_call env region rr rt df region_tig_outer region_tig_inner
         (lift_region_to_sub env region_tig_outer)
         (lift_region_to_sub env region_tig_inner)
  /\ (forall call,
        scan_for_inv fuel env region = Call call ->
        InvCall.region_tig_outer call = region_tig_outer
        /\ InvCall.region_tig_inner call = region_tig_inner
        /\ lift_region_to_sub env region_tig_outer
           = Some (InvCall.region_ref_outer call)
        /\ lift_region_to_sub env region_tig_inner
           = Some (InvCall.region_ref_inner call)).
Proof.
  intros Hr Hfuel Hit H1 H2 Hfirst Hlast Hrun Hst Hmin rto rti.
  pose proof (scan_iter_break _ _ _ _ _ _ _ _ Hit) as (_ & _ & Hd).
  apply scan_decide_break in Hd as (_ & _ & _ & _ & Hlen & Hh & Hl).
  assert (Hscan : scan_for_inv fuel env region =
            check_and_call env region rr rt df rto rti
              (lift_region_to_sub env rto) (lift_region_to_sub env rti)).
  { unfold scan_for_inv.
    rewrite (scan_loop_break _ _ _ _ _ _ _ _ _ _ _ _ _ Hr Hit Hfuel).
    destruct (head state_rl) as [first|] eqn:Ehead; [|discriminate].
    destruct (list.last state_rl) as [last|] eqn:Elast; [|discriminate].
    rewrite (characterize_passes _ _ _ _ _ _ run first last Hrun Hst Hmin Ehead Elast).
    injection Hh as Hh. injection Hl as Hl. rewrite Hh, Hl. simpl.
    rewrite (tig_outer_of_runs _ _ _ _ _ H1 H2).
    rewrite (tig_inner_of_runs _ _ _ _ _ Hfirst Hlast). reflexivity. }
  split; [repeat split; assumption|]. split; [exact Hscan|].
  intros call Hcall. rewrite Hscan in Hcall.
  now apply check_and_call_regions in Hcall.
Qed.

Lemma found_breakpoints_witness :
  InvCall.region_tig_outer call_inv
    = new_Region "tig1" (100 + 3000) (399 + 3000 + 31)
  /\ InvCall.region_tig_inner call_inv
    = new_Region "tig1" (150 + 3000) (349 + 3000 + 31)
  /\ lift_region_to_sub env_inv (new_Region "tig1" (100 + 3000) (399 + 3000 + 31))
    = Some (InvCall.region_ref_outer call_inv).
Proof.
  assert (Hcall : scan_for_inv 1 env_inv region_flagged = Call call_inv)
    by (vm_compute; reflexivity).
  assert (Hr : reached env_inv region_flagged 0
                 (initial_region_ref env_inv region_flagged) 0) by constructor.
  assert (Hin : mkRun 2 150 150 299 ∈ rl_encoder table_inv).
  { vm_compute. do 2 right. left. }
  destruct (found_breakpoints env_inv region_flagged 1 0
              (initial_region_ref env_inv region_flagged) 0
              (mkRegion "tig1" 3000 7100 false) table_inv (rl_encoder table_inv)
              (mkRun 1 50 100 149) (mkRun 1 50 350 399)
              (mkRun 2 150 150 299) (mkRun 2 30 320 349) (mkRun 2 150 150 299)
              Hr ltac:(lia) ltac:(vm_compute; reflexivity)
              ltac:(vm_compute; reflexivity) ltac:(vm_compute; reflexivity)
              ltac:(vm_compute; reflexivity) ltac:(vm_compute; reflexivity)
              Hin eq_refl ltac:(vm_compute; discriminate))
    as (_ & _ & Hregions).
  destruct (Hregions call_inv Hcall) as (Ho & Hi & Hlo & _).
  split; [exact Ho|]. split; [exact Hi|exact Hlo].
Defined.

(** What [scan_for_inv] returns once the loop is left and both checks on the
    inverted runs pass. *)
Lemma scan_for_inv_found env region fuel n rr c rt df state_rl run :
  reached env region n rr c -> (n < fuel)%nat ->
  scan_iter env region rr c = IterBreak rr rt df state_rl ->
  run ∈ state_rl -> rl_state run = REV -> MIN_INV_KMER_RUN <= rl_count run ->
  scan_for_inv fuel env region =
    match tig_outer_of env rt state_rl with
    | None => Raised IndexError
    | Some region_tig_outer =>
      match tig_inner_of env rt (inv_runs state_rl) with
      | None => Raised IndexError
      | Some region_tig_inner =>
          check_and_call env region rr rt df region_tig_outer region_tig_inner
            (lift_region_to_sub env region_tig_outer)
            (lift_region_to_sub env region_tig_inner)
      end
    end.
Proof.
  intros Hr Hfuel Hit Hrun Hst Hmin.
  pose proof (scan_iter_break _ _ _ _ _ _ _ _ Hit) as (_ & _ & Hd).
  apply scan_decide_break in Hd as (_ & _ & _ & _ & Hlen & Hh & Hl).
  unfold scan_for_inv.
  rewrite (scan_loop_break _ _ _ _ _ _ _ _ _ _ _ _ _ Hr Hit Hfuel).
  destruct (head state_rl) as [first|] eqn:Ehead; [|discriminate].
  destruct (list.last state_rl) as [last|] eqn:Elast; [|discriminate].
  rewrite (characterize_passes _ _ _ _ _ _ run first last Hrun Hst Hmin Ehead Elast).
  injection Hh as Hh. injection Hl as Hl. now rewrite Hh, Hl.
Qed.

Lemma check_and_call_short env rf rr rt df rto rti rro orri :
  ((inject_Z (region_len rro) < inject_Z (region_len rto) * MIN_TIG_REF_PROP)%Q ->
     check_and_call env rf rr rt df rto rti (Some rro) orri = NoCall RefTooShort)
  /\ ((inject_Z (region_len rto) * MIN_TIG_REF_PROP <= inject_Z (region_len rro))%Q ->
      (inject_Z (region_len rto) < inject_Z (region_len rro) * MIN_TIG_REF_PROP)%Q ->
      check_and_call env rf rr rt df rto rti (Some rro) orri = NoCall TigTooShort).
Proof.
  unfold check_and_call. split.
  - intros H. apply Qltb_true in H. now rewrite H.
  - intros H1 H2. apply Qltb_false in H1. apply Qltb_true in H2.
    now rewrite H1, H2.
Qed.

(** C4: the outer regions of a returned call satisfy the reciprocal
    proportion bound, each length being at least [MIN_TIG_REF_PROP] times the
    other; and when the loop has been left, the checks on the inverted runs
    pass and the lifted outer reference region violates one of the two
    bounds, [scan_for_inv] returns no call. *)
Theorem proportion_symmetry :
  (forall fuel env region call,
     scan_for_inv fuel env region = Call call ->
     (MIN_TIG_REF_PROP * inject_Z (region_len (InvCall.region_tig_outer call))
        <= inject_Z (region_len (InvCall.region_ref_outer call)))%Q
     /\ (MIN_TIG_REF_PROP * inject_Z (region_len (InvCall.region_ref_outer call))
        <= inject_Z (region_len (InvCall.region_tig_outer call)))%Q)
  /\ (forall env region fuel n rr c rt df state_rl run rto rti rro,
     reached env region n rr c -> (n < fuel)%nat ->
     scan_iter env region rr c = IterBreak rr rt df state_rl ->
     run ∈ state_rl -> rl_state run = REV -> MIN_INV_KMER_RUN <= rl_count run ->
     tig_outer_of env rt state_rl = Some rto ->
     tig_inner_of env rt (inv_runs state_rl) = Some rti ->
     lift_region_to_sub env rto = Some rro ->
     (inject_Z (region_len rro) < MIN_TIG_REF_PROP * inject_Z (region_len rto))%Q
     \/ (inject_Z (region_len rto) < MIN_TIG_REF_PROP * inject_Z (region_len rro))%Q ->
     scan_for_inv fuel env region = NoCall RefTooShort
     \/ scan_for_inv fuel env region = NoCall TigTooShort).
Proof.
  split.
  - intros fuel env region call H.
    apply scan_for_inv_Call in H
      as (n & rr & c & rt & df & rto & rti & rro & rri & adf & m & H).
    destruct H as (_ & _ & _ & _ & _ & _ & _ & _ & Hp1 & Hp2 & _ & ->).
    simpl. rewrite !(Qmult_comm MIN_TIG_REF_PROP). now split.
  - intros env region fuel n rr c rt df state_rl run rto rti rro
      Hr Hfuel Hit Hrun Hst Hmin Hto Hti Hlift Hbad.
    rewrite (scan_for_inv_found _ _ _ _ _ _ _ _ _ _ Hr Hfuel Hit Hrun Hst Hmin).
    rewrite Hto, Hti, Hlift.
    rewrite !(Qmult_comm MIN_TIG_REF_PROP) in Hbad.
    destruct (check_and_call_short env region rr rt df rto rti rro
                (lift_region_to_sub env rti)) as [Hshort1 Hshort2].
    destruct (Qlt_le_dec (inject_Z (region_len rro))
                (inject_Z (region_len rto) * MIN_TIG_REF_PROP)) as [Hlt|Hle].
    + left. now apply Hshort1.
    + right. apply Hshort2; [exact Hle|].
      destruct Hbad as [Hbad|Hbad]; [|exact Hbad].
      exfalso. exact (Qlt_not_le _ _ Hbad Hle).
Qed.

Lemma proportion_symmetry_witness :
  ((MIN_TIG_REF_PROP * inject_Z (region_len (InvCall.region_tig_outer call_inv))
      <= inject_Z (region_len (InvCall.region_ref_outer call_inv)))%Q
   /\ (MIN_TIG_REF_PROP * inject_Z (region_len (InvCall.region_ref_outer call_inv))
      <= inject_Z (region_len (InvCall.region_tig_outer call_inv)))%Q)
  /\ (scan_for_inv 1 env_short_ref region_flagged = NoCall RefTooShort
      \/ scan_for_inv 1 env_short_ref region_flagged = NoCall TigTooShort).
Proof.
  destruct proportion_symmetry as [Hcall Hno]. split.
  - apply (Hcall 1%nat env_inv region_flagged call_inv).
    vm_compute. reflexivity.
  - assert (Hin : mkRun 2 150 150 299 ∈ rl_encoder table_inv).
    { vm_compute. do 2 right. left. }
    apply (Hno env_short_ref region_flagged 1%nat 0%nat
             (initial_region_ref env_short_ref region_flagged) 0
             (mkRegion "tig1" 3000 7100 false) table_inv (rl_encoder table_inv)
             (mkRun 2 150 150 299)
             (mkRegion "tig1" 3100 3430 false) (mkRegion "tig1" 3150 3380 false)
             (mkRegion "chr1" 8100 8265 false)).
    + constructor.
    + lia.
    + vm_compute. reflexivity.
    + exact Hin.
    + reflexivity.
    + vm_compute. discriminate.
    + vm_compute. reflexivity.
    + vm_compute. reflexivity.
    + vm_compute. reflexivity.
    + left. vm_compute. reflexivity.
Defined.

(** ** Claims on the rejections *)

Lemma scan_table_lift env region rr rt df :
  scan_table env region rr = inr (rt, df) -> lift_region_to_qry env rr = Some rt.
Proof.
  unfold scan_table. intros H.
  repeat case_match; try discriminate. now injection H as <- _.
Qed.

Lemma scan_iter_rejects env region rr c reason :
  loop_rejects env region rr c reason ->
  scan_iter env region rr c = IterReturn (NoCall reason).
Proof.
  intros H. unfold scan_iter.
  destruct H as [Hl|rt Hl Hk|rt counts kmer count m Hl Hk Hin Hgt Hm
                 |rt Ht|rt df run Ht Hrl Hst Hc|rt df Ht Hne Hno Hboth Hsame].
  - unfold scan_table. now rewrite Hl.
  - unfold scan_table. rewrite Hl. destruct Hk as [-> | ->]; reflexivity.
  - unfold scan_table. rewrite Hl, Hk, Hm.
    assert (Hle : count <= m).
    { apply (np_max_ge _ _ _ Hm). apply list_elem_of_In.
      apply (in_map snd counts (kmer, count)). now apply list_elem_of_In. }
    destruct (Z.gtb_spec m MAX_REF_KMER_COUNT); [reflexivity|lia].
  - now rewrite Ht.
  - rewrite Ht. destruct df as [|r df]; [discriminate|].
    change (len (r :: df) >? 0) with (Z.pos (Pos.of_succ_nat (length df)) >? 0).
    cbn [Z.gtb Z.compare]. unfold scan_decide, no_inv_found. rewrite Hrl.
    change (len [run] =? 1) with true. rewrite py_index_0. simpl.
    rewrite Hst. simpl.
    destruct (Z.geb_spec (c + 1) MIN_EXP_COUNT) as [_|]; [reflexivity|lia].
  - rewrite Ht. destruct df as [|r df]; [contradiction|].
    change (len (r :: df) >? 0) with (Z.pos (Pos.of_succ_nat (length df)) >? 0).
    cbn [Z.gtb Z.compare]. unfold scan_decide. rewrite Hno, Hboth.
    apply Z.eqb_eq in Hsame. now rewrite Hsame.
Qed.

Lemma characterize_rejects env rf rr rt df state_rl reason :
  rl_state <$> head state_rl = Some FWD ->
  rl_state <$> list.last state_rl = Some FWD ->
  found_rejects env rt state_rl reason ->
  characterize env rf rr rt df state_rl = NoCall reason.
Proof.
  intros Hh Hl H.
  destruct H as [Hnone|run m Hin Hst Hall Hm
                 |run rto rti rro Hin Hst Hmin Hto Hti Hlift Hlt
                 |run rto rti rro Hin Hst Hmin Hto Hti Hlift Hle Hlt].
  - unfold characterize.
    destruct (existsb (λ record, rl_state record =? 2) state_rl) eqn:E;
      [|reflexivity].
    apply existsb_rev in E as (run & Hin & Hst). now apply Hnone in Hin.
  - unfold characterize. cbv zeta.
    change (filter (λ val, rl_state val = 2) state_rl) with (inv_runs state_rl).
    assert (Hex : existsb (λ record, rl_state record =? 2) state_rl = true)
      by (apply existsb_rev; eauto).
    rewrite Hex, Hm. simpl negb. cbv iota.
    apply np_max_elem in Hm.
    apply list_elem_of_In, in_map_iff in Hm as (run' & <- & Hrun').
    apply list_elem_of_In, inv_runs_elem in Hrun' as [Hin' Hst'].
    specialize (Hall run' Hin' Hst').
    destruct (Z.ltb_spec (rl_count run') MIN_INV_KMER_RUN); [reflexivity|lia].
  - destruct (head state_rl) as [first|] eqn:Ehead; [|discriminate].
    destruct (list.last state_rl) as [last|] eqn:Elast; [|discriminate].
    rewrite (characterize_passes _ _ _ _ _ _ run first last Hin Hst Hmin Ehead Elast).
    injection Hh as Hh. injection Hl as Hl. rewrite Hh, Hl, Hto, Hti, Hlift. simpl.
    now apply check_and_call_short.
  - destruct (head state_rl) as [first|] eqn:Ehead; [|discriminate].
    destruct (list.last state_rl) as [last|] eqn:Elast; [|discriminate].
    rewrite (characterize_passes _ _ _ _ _ _ run first last Hin Hst Hmin Ehead Elast).
    injection Hh as Hh. injection Hl as Hl. rewrite Hh, Hl, Hto, Hti, Hlift. simpl.
    now apply check_and_call_short.
Qed.

Lemma check_and_call_Raised env rf rr rt df rto rti orro orri r :
  check_and_call env rf rr rt df rto rti orro orri <> Raised (RuntimeError r).
Proof.
  unfold check_and_call, annotate_inv_dup_mers.
  repeat case_match; try discriminate; congruence.
Qed.

(** The loop never hands the structural check a sequence that fails it. *)
Lemma scan_for_inv_not_RuntimeError fuel env region r :
  scan_for_inv fuel env region <> Raised (RuntimeError r).
Proof.
  unfold scan_for_inv.
  generalize (initial_region_ref env region) as rr, 0 as c.
  induction fuel as [|fuel IH]; intros rr c; simpl; [discriminate|].
  destruct (scan_iter env region rr c) as [res|rr2 rt df rl|rr1 c1] eqn:Hit.
  - apply scan_iter_return in Hit as (reason & ->). discriminate.
  - pose proof (scan_iter_break _ _ _ _ _ _ _ _ Hit) as (_ & _ & Hd).
    apply scan_decide_break in Hd as (_ & _ & _ & _ & _ & Hh & Hl).
    unfold characterize. rewrite py_index_0, py_index_last.
    destruct (head rl) as [first|]; [|discriminate].
    destruct (list.last rl) as [last|]; [|discriminate].
    injection Hh as Hh. injection Hl as Hl. rewrite Hh, Hl. simpl.
    repeat case_match; try discriminate. apply check_and_call_Raised.
  - apply IH.
Qed.

(** X17: every rejection that [scan_for_inv] tests for returns no call with
    its own reason: in the loop, a failed lift of the search region, no
    reference k-mers, a reference k-mer count above [MAX_REF_KMER_COUNT], an
    empty state table, a single FWD run after [MIN_EXP_COUNT] expansions, an
    expansion without growth; after the loop, no REV run, a longest REV run
    below [MIN_INV_KMER_RUN], a failed proportion check.  The code after the
    loop raises [RuntimeError] on a sequence that passes the checks on the
    inverted runs and does not start or does not end with FWD. *)
Theorem scan_rejections :
  (forall env region fuel n rr c reason,
     reached env region n rr c -> (n < fuel)%nat ->
     loop_rejects env region rr c reason ->
     scan_for_inv fuel env region = NoCall reason)
  /\ (forall env region fuel n rr c rt df state_rl reason,
     reached env region n rr c -> (n < fuel)%nat ->
     scan_iter env region rr c = IterBreak rr rt df state_rl ->
     found_rejects env rt state_rl reason ->
     scan_for_inv fuel env region = NoCall reason)
  /\ (forall env rf rr rt df state_rl run,
     run ∈ state_rl -> rl_state run = REV -> MIN_INV_KMER_RUN <= rl_count run ->
     rl_state <$> head state_rl <> Some FWD
     \/ rl_state <$> list.last state_rl <> Some FWD ->
     characterize env rf rr rt df state_rl = Raised (RuntimeError rr)).
Proof.
  split; [|split].
  - intros env region fuel n rr c reason Hr Hfuel Hrej.
    unfold scan_for_inv. eapply scan_loop_return; [exact Hr| |exact Hfuel].
    now apply scan_iter_rejects.
  - intros env region fuel n rr c rt df state_rl reason Hr Hfuel Hit Hrej.
    unfold scan_for_inv.
    rewrite (scan_loop_break _ _ _ _ _ _ _ _ _ _ _ _ _ Hr Hit Hfuel).
    pose proof (scan_iter_break _ _ _ _ _ _ _ _ Hit) as (_ & _ & Hd).
    apply scan_decide_break in Hd as (_ & _ & _ & _ & _ & Hh & Hl).
    now apply characterize_rejects.
  - intros env rf rr rt df state_rl run Hin Hst Hmin Hends.
    destruct (head state_rl) as [first|] eqn:Ehead.
    2: { destruct state_rl; [inversion Hin|discriminate]. }
    destruct (list.last state_rl) as [last|] eqn:Elast.
    2: { apply last_None in Elast. subst. inversion Hin. }
    rewrite (characterize_passes _ _ _ _ _ _ run first last Hin Hst Hmin Ehead Elast).
    simpl in Hends. unfold FWD in Hends.
    destruct (Z.eqb_spec (rl_state first) 0) as [E1|_]; [|reflexivity].
    destruct (Z.eqb_spec (rl_state last) 0) as [E2|_]; [|reflexivity].
    rewrite E1, E2 in Hends. destruct Hends; contradiction.
Qed.

Lemma scan_rejections_witness :
  scan_for_inv 3 env_fwd region_flagged = NoCall (NoInvertedAfterExpansions 3)
  /\ scan_for_inv 1 env_short_inv region_flagged = NoCall (InvRunTooShort 50)
  /\ characterize env_inv region_flagged region_flagged region_flagged []
       [mkRun 2 150 0 149]
     = Raised (RuntimeError region_flagged).
Proof.
  destruct scan_rejections as (Hloop & Hfound & Hraise).
  split; [|split].
  - assert (Hr : reached env_fwd region_flagged 2
                   (mkRegion "chr1" 0 25625 false) 2).
    { eapply steps_S; [vm_compute; reflexivity|].
      eapply steps_S; [vm_compute; reflexivity|]. constructor. }
    apply (Hloop env_fwd region_flagged 3%nat 2%nat
             (mkRegion "chr1" 0 25625 false) 2
             (NoInvertedAfterExpansions (2 + 1)) Hr ltac:(lia)).
    apply (rejects_single_fwd env_fwd region_flagged _ 2
             (mkRegion "tig1" 0 20625 false) table_fwd (mkRun 0 300 0 299)).
    + vm_compute. reflexivity.
    + vm_compute. reflexivity.
    + reflexivity.
    + vm_compute. discriminate.
  - apply (Hfound env_short_inv region_flagged 1%nat 0%nat
             (initial_region_ref env_short_inv region_flagged) 0
             (mkRegion "tig1" 3000 7100 false) table_short_inv
             (rl_encoder table_short_inv)).
    + constructor.
    + lia.
    + vm_compute. reflexivity.
    + apply (rejects_short_run _ _ _ (mkRun 2 50 100 149)).
      * vm_compute. right. left.
      * reflexivity.
      * intros run' Hin Hst. vm_compute in Hin.
        repeat (apply elem_of_cons in Hin as [->|Hin];
                [first [discriminate | (vm_compute; reflexivity)]|]).
        inversion Hin.
      * vm_compute. reflexivity.
  - apply (Hraise env_inv region_flagged region_flagged region_flagged []
             [mkRun 2 150 0 149] (mkRun 2 150 0 149)).
    + left.
    + reflexivity.
    + vm_compute. discriminate.
    + left. simpl. discriminate.
Defined.

(** C5: a failed lift back to the reference is not returned as no call.
    When the loop is left through [break] and the checks on the inverted
    runs pass, the contig breakpoint regions are lifted with
    [lift_region_to_sub] and the results are used untested: if the outer
    region does not lift, [len(region_ref_outer)] raises [TypeError]; if the
    outer one lifts and passes both proportion checks and the inner one does
    not lift, [region_ref_inner.pos] raises [AttributeError].  The
    [RuntimeError] of the structural check, on the other hand, is never
    raised by [scan_for_inv]. *)
Theorem sub_lift_failure_raises (env : Env) (region : Region) (fuel n : nat)
    (rr : Region) (c : Z) (rt : Region) (df : list Row) (state_rl : list Run)
    (run : Run) (rto rti : Region) :
  reached env region n rr c -> (n < fuel)%nat ->
  scan_iter env region rr c = IterBreak rr rt df state_rl ->
  run ∈ state_rl -> rl_state run = REV -> MIN_INV_KMER_RUN <= rl_count run ->
  tig_outer_of env rt state_rl = Some rto ->
  tig_inner_of env rt (inv_runs state_rl) = Some rti ->
  (lift_region_to_sub env rto = None ->
     scan_for_inv fuel env region = Raised TypeError)
  /\ (forall rro,
        lift_region_to_sub env rto = Some rro ->
        (inject_Z (region_len rto) * MIN_TIG_REF_PROP <= inject_Z (region_len rro))%Q ->
        (inject_Z (region_len rro) * MIN_TIG_REF_PROP <= inject_Z (region_len rto))%Q ->
        lift_region_to_sub env rti = None ->
        scan_for_inv fuel env region = Raised AttributeError)
  /\ (forall r, scan_for_inv fuel env region <> Raised (RuntimeError r)).
Proof.
  intros Hr Hfuel Hit Hrun Hst Hmin Hto Hti.
  pose proof (scan_for_inv_found _ _ _ _ _ _ _ _ _ _ Hr Hfuel Hit Hrun Hst Hmin)
    as Hscan.
  rewrite Hto, Hti in Hscan.
  split; [|split].
  - intros Hnone. rewrite Hscan, Hnone. reflexivity.
  - intros rro Hsome Hp1 Hp2 Hnone. rewrite Hscan, Hsome, Hnone.
    unfold check_and_call.
    destruct (Qltb (inject_Z (region_len rro))
                (inject_Z (region_len rto) * MIN_TIG_REF_PROP)) eqn:E1.
    { apply Qltb_true in E1. exfalso. exact (Qlt_not_le _ _ E1 Hp1). }
    destruct (Qltb (inject_Z (region_len rto))
                (inject_Z (region_len rro) * MIN_TIG_REF_PROP)) eqn:E2.
    { apply Qltb_true in E2. exfalso. exact (Qlt_not_le _ _ E2 Hp2). }
    reflexivity.
  - intros r. apply scan_for_inv_not_RuntimeError.
Qed.

Lemma sub_lift_failure_raises_witness :
  scan_for_inv 1 env_no_lift region_flagged = Raised TypeError
  /\ scan_for_inv 1 env_no_inner_lift region_flagged = Raised AttributeError.
Proof.
  split.
  - refine (proj1 (sub_lift_failure_raises env_no_lift region_flagged 1 0
                     (initial_region_ref env_no_lift region_flagged) 0
                     (mkRegion "tig1" 3000 7100 false) table_inv
                     (rl_encoder table_inv) (mkRun 2 150 150 299)
                     (new_Region "tig1" 3100 3430) (new_Region "tig1" 3150 3380)
                     _ _ _ _ _ _ _ _) _).
    + constructor.
    + lia.
    + vm_compute. reflexivity.
    + vm_compute. right. right. left.
    + reflexivity.
    + vm_compute. discriminate.
    + vm_compute. reflexivity.
    + vm_compute. reflexivity.
    + reflexivity.
  - refine (proj1 (proj2 (sub_lift_failure_raises env_no_inner_lift region_flagged 1 0
                     (initial_region_ref env_no_inner_lift region_flagged) 0
                     (mkRegion "tig1" 3000 7100 false) table_inv
                     (rl_encoder table_inv) (mkRun 2 150 150 299)
                     (new_Region "tig1" 3100 3430) (new_Region "tig1" 3150 3380)
                     _ _ _ _ _ _ _ _))
              (mkRegion "chr1" 8100 8430 false) _ _ _ _).
    + constructor.
    + lia.
    + vm_compute. reflexivity.
    + vm_compute. right. right. left.
    + reflexivity.
    + vm_compute. discriminate.
    + vm_compute. reflexivity.
    + vm_compute. reflexivity.
    + reflexivity.
    + vm_compute. discriminate.
    + vm_compute. discriminate.
    + reflexivity.
Defined.

(** ** Further properties of [annotate_inv_dup_mers] *)

(** X2: the annotated table has the rows of the input table, in the same
    order and with the input columns unchanged; only FLANK and MATCH are
    added. *)
Theorem annotate_keeps_table (env : Env) (df : list Row)
    (ro ri to ti disc : Region) (adf : list ARow) :
  annotate_inv_dup_mers env df ro ri to ti disc = inr adf ->
  map row adf = df
  /\ length adf = length df
  /\ (forall i r, adf !! i = Some r -> df !! i = Some (row r)).
Proof.
  intros H. pose proof (annotate_inv_dup_mers_keeps_rows _ _ _ _ _ _ _ _ H) as Hrows.
  split; [exact Hrows|]. split.
  - rewrite <- Hrows. now rewrite length_map.
  - intros i r Hi. rewrite <- Hrows.
    change (map row adf) with (row <$> adf).
    now rewrite list_lookup_fmap, Hi.
Qed.

Lemma annotate_keeps_table_witness :
  map row adf_dup = df_dup /\ length adf_dup = 4%nat.
Proof.
  destruct (annotate_keeps_table env_dup df_dup ref_outer_dup ref_inner_dup
              tig_outer_dup tig_inner_dup tig_discovery_dup adf_dup
              ltac:(vm_compute; reflexivity)) as (Hrows & Hlen & _).
  split; [exact Hrows|exact Hlen].
Defined.

Lemma window_has_spec (region_dup : Region) (k p : Z) :
  window_has region_dup k p = true <-> pos region_dup <= p < end_ region_dup - k.
Proof.
  unfold window_has. rewrite andb_true_iff, Z.geb_le, Z.ltb_lt. lia.
Qed.

(** X3: a row is labelled by the position [INDEX + region_tig_discovery.pos]:
    DN when the position is in the downstream window
    [[inner.end, outer.end - k_size)], UP when it is in the upstream window
    [[outer.pos, inner.pos - k_size)] and not in the downstream one (where the
    windows overlap, DN wins), and no FLANK otherwise. *)
Theorem annotate_flank_rule (env : Env) (df : list Row)
    (ro ri to ti disc : Region) (adf : list ARow) (i : nat) (r : ARow) :
  annotate_inv_dup_mers env df ro ri to ti disc = inr adf ->
  adf !! i = Some r ->
  let p := INDEX (row r) + pos disc in
  let in_dn := end_ ti <= p < end_ to - k_size env in
  let in_up := pos to <= p < pos ti - k_size env in
  (FLANK r = Some DN <-> in_dn)
  /\ (FLANK r = Some UP <-> in_up /\ ~ in_dn)
  /\ (FLANK r = None <-> ~ in_up /\ ~ in_dn).
Proof.
  intros Ha Hi p in_dn in_up. subst p in_dn in_up.
  apply annotate_inv_dup_mers_rows in Ha as (up & dn & _ & _ & ->).
  change (map ?f df) with (f <$> df) in Hi.
  rewrite list_lookup_fmap in Hi.
  destruct (df !! i) as [r0|]; [|discriminate]. injection Hi as <-.
  rewrite annotate_row_FLANK, annotate_row_row.
  pose proof (window_has_spec (new_Region (chrom to) (end_ ti) (end_ to))
                (k_size env) (INDEX r0 + pos disc)) as Hdn.
  pose proof (window_has_spec (new_Region (chrom to) (pos to) (pos ti))
                (k_size env) (INDEX r0 + pos disc)) as Hup.
  simpl in Hdn, Hup.
  destruct (window_has (new_Region (chrom to) (end_ ti) (end_ to)) _ _);
    destruct (window_has (new_Region (chrom to) (pos to) (pos ti)) _ _);
    intuition (discriminate || congruence).
Qed.

Lemma annotate_flank_rule_witness :
  FLANK (mkARow (mkRow 3000 5 1 0.1 0.8 0.1)%Q (Some UP) None) = Some UP.
Proof.
  refine (proj2 (proj1 (proj2
    (annotate_flank_rule env_dup df_dup ref_outer_dup ref_inner_dup
       tig_outer_dup tig_inner_dup tig_discovery_dup adf_dup 0%nat
       (mkARow (mkRow 3000 5 1 0.1 0.8 0.1)%Q (Some UP) None)
       ltac:(vm_compute; reflexivity) ltac:(vm_compute; reflexivity)))) _).
  simpl. lia.
Defined.

(** One row of the annotated table, as the row-wise function of its input
    row. *)
Lemma annotate_lookup (env : Env) (df : list Row)
    (ro ri to ti disc : Region) (adf : list ARow) (i : nat) (r : ARow) :
  annotate_inv_dup_mers env df ro ri to ti disc = inr adf ->
  adf !! i = Some r ->
  exists up dn,
    ref_set env (new_Region (chrom ro) (pos ro) (pos ri)) = Some up
    /\ ref_set env (new_Region (chrom ro) (end_ ri) (end_ ro)) = Some dn
    /\ r = annotate_row env up dn
             (new_Region (chrom to) (pos to) (pos ti))
             (new_Region (chrom to) (end_ ti) (end_ to)) (pos disc) (row r).
Proof.
  intros Ha Hi.
  apply annotate_inv_dup_mers_rows in Ha as (up & dn & Hup & Hdn & ->).
  change (map ?f df) with (f <$> df) in Hi.
  rewrite list_lookup_fmap in Hi.
  destruct (df !! i) as [r0|]; [|discriminate]. injection Hi as <-.
  exists up, dn. rewrite annotate_row_row. auto.
Qed.

(** X4: MATCH is never the placeholder ['NA'] and is set on flank rows only.
    It is SAME exactly for a flank row whose raw k-mer is in the reference set
    of its own side and not in the other, and OTHER exactly for one whose raw
    k-mer is in the set of the other side and not in its own. *)
Theorem annotate_match_values (env : Env) (df : list Row)
    (ro ri to ti disc : Region) (adf : list ARow) (up dn : gset Z)
    (i : nat) (r : ARow) :
  annotate_inv_dup_mers env df ro ri to ti disc = inr adf ->
  ref_set env (new_Region (chrom ro) (pos ro) (pos ri)) = Some up ->
  ref_set env (new_Region (chrom ro) (end_ ri) (end_ ro)) = Some dn ->
  adf !! i = Some r ->
  let kmer := KMER (row r) in
  MATCH r <> Some NA
  /\ (FLANK r = None -> MATCH r = None)
  /\ (MATCH r = Some SAME <->
        (FLANK r = Some UP /\ (kmer ∈ up) /\ (kmer ∉ dn))
        \/ (FLANK r = Some DN /\ (kmer ∈ dn) /\ (kmer ∉ up)))
  /\ (MATCH r = Some OTHER <->
        (FLANK r = Some UP /\ (kmer ∉ up) /\ (kmer ∈ dn))
        \/ (FLANK r = Some DN /\ (kmer ∉ dn) /\ (kmer ∈ up))).
Proof.
  intros Ha Hup Hdn Hi kmer. subst kmer.
  destruct (annotate_lookup _ _ _ _ _ _ _ _ _ _ Ha Hi) as (up' & dn' & Hup' & Hdn' & Hr).
  rewrite Hup in Hup'. rewrite Hdn in Hdn'.
  injection Hup' as <-. injection Hdn' as <-.
  pose proof (annotate_row_MATCH env up dn
                (new_Region (chrom to) (pos to) (pos ti))
                (new_Region (chrom to) (end_ ti) (end_ to)) (pos disc) (row r)) as Hm.
  rewrite <- Hr in Hm. rewrite Hm. clear Hm Hr.
  destruct (decide (KMER (row r) ∈ up)) as [Hu|Hu];
    destruct (decide (KMER (row r) ∈ dn)) as [Hd|Hd];
    [rewrite (bool_decide_eq_true_2 _ Hu), (bool_decide_eq_true_2 _ Hd)
    |rewrite (bool_decide_eq_true_2 _ Hu), (bool_decide_eq_false_2 _ Hd)
    |rewrite (bool_decide_eq_false_2 _ Hu), (bool_decide_eq_true_2 _ Hd)
    |rewrite (bool_decide_eq_false_2 _ Hu), (bool_decide_eq_false_2 _ Hd)];
    destruct (FLANK r) as [[|]|]; simpl;
    intuition (discriminate || congruence).
Qed.

Lemma annotate_match_values_witness :
  MATCH (mkARow (mkRow 2000 6 1 0.1 0.8 0.1)%Q (Some UP) (Some SAME)) = Some SAME.
Proof.
  refine (proj2 (proj1 (proj2 (proj2
    (annotate_match_values env_dup df_dup ref_outer_dup ref_inner_dup
       tig_outer_dup tig_inner_dup tig_discovery_dup adf_dup {[2000]} {[500]}
       1%nat (mkARow (mkRow 2000 6 1 0.1 0.8 0.1)%Q (Some UP) (Some SAME))
       ltac:(vm_compute; reflexivity) ltac:(vm_compute; reflexivity)
       ltac:(vm_compute; reflexivity) ltac:(vm_compute; reflexivity))))) _).
  left. simpl. split; [reflexivity|]. split; set_solver.
Defined.

(** X5: a flank that is not longer than one k-mer is never labelled: when
    [inner.pos - outer.pos <= k_size] no row is UP, when
    [outer.end - inner.end <= k_size] no row is DN, and when both hold the
    table comes back without any FLANK or MATCH label. *)
Theorem annotate_short_flanks (env : Env) (df : list Row)
    (ro ri to ti disc : Region) (adf : list ARow) (i : nat) (r : ARow) :
  annotate_inv_dup_mers env df ro ri to ti disc = inr adf ->
  adf !! i = Some r ->
  (pos ti - pos to <= k_size env -> FLANK r <> Some UP)
  /\ (end_ to - end_ ti <= k_size env -> FLANK r <> Some DN)
  /\ (pos ti - pos to <= k_size env -> end_ to - end_ ti <= k_size env ->
      FLANK r = None /\ MATCH r = None).
Proof.
  intros Ha Hi.
  destruct (annotate_lookup _ _ _ _ _ _ _ _ _ _ Ha Hi) as (up & dn & _ & _ & Hr).
  pose proof (annotate_row_MATCH env up dn
                (new_Region (chrom to) (pos to) (pos ti))
                (new_Region (chrom to) (end_ ti) (end_ to)) (pos disc) (row r)) as Hm.
  pose proof (annotate_row_FLANK env up dn
                (new_Region (chrom to) (pos to) (pos ti))
                (new_Region (chrom to) (end_ ti) (end_ to)) (pos disc) (row r)) as Hf.
  rewrite <- Hr in Hm, Hf. rewrite Hm, Hf. clear Hm Hf Hr.
  pose proof (window_has_spec (new_Region (chrom to) (end_ ti) (end_ to))
                (k_size env) (INDEX (row r) + pos disc)) as Hdn.
  pose proof (window_has_spec (new_Region (chrom to) (pos to) (pos ti))
                (k_size env) (INDEX (row r) + pos disc)) as Hup.
  simpl in Hdn, Hup.
  destruct (window_has (new_Region (chrom to) (end_ ti) (end_ to)) _ _);
    destruct (window_has (new_Region (chrom to) (pos to) (pos ti)) _ _);
    repeat split; intros; try discriminate; try reflexivity;
    exfalso; intuition lia.
Qed.

Lemma annotate_short_flanks_witness :
  FLANK (mkARow (mkRow 3000 5 1 0.1 0.8 0.1)%Q None None) = None
  /\ MATCH (mkARow (mkRow 3000 5 1 0.1 0.8 0.1)%Q None None) = None.
Proof.
  refine (proj2 (proj2
    (annotate_short_flanks env_dup df_dup ref_outer_dup ref_inner_dup
       (mkRegion "tig1" 100 400 false) (mkRegion "tig1" 120 390 false)
       tig_discovery_dup
       (map (λ r, mkARow r None None) df_dup) 0%nat
       (mkARow (mkRow 3000 5 1 0.1 0.8 0.1)%Q None None)
       ltac:(vm_compute; reflexivity) ltac:(vm_compute; reflexivity))) _ _).
  - simpl. lia.
  - simpl. lia.
Defined.

(** ** Further properties of [scan_for_inv] *)

(** X6: a returned call keeps the flagged region as it was passed in; its
    reference discovery region is the search region of the iteration that
    left the loop, its contig discovery region is the lift of that region,
    and its table is the annotated state table of that iteration. *)
Theorem call_discovery_regions (fuel : nat) (env : Env) (region : Region)
    (call : InvCall.t) :
  scan_for_inv fuel env region = Call call ->
  InvCall.region_flag call = region
  /\ (exists n c, (n < fuel)%nat
        /\ reached env region n (InvCall.region_ref_discovery call) c
        /\ scan_table env region (InvCall.region_ref_discovery call)
           = inr (InvCall.region_tig_discovery call, map row (InvCall.df call)))
  /\ lift_region_to_qry env (InvCall.region_ref_discovery call)
     = Some (InvCall.region_tig_discovery call).
Proof.
  intros H. unfold scan_for_inv in H.
  apply scan_loop_Call in H as (n & rr & c & rt & df & rl & Hs & Hlt & Hb & Hc).
  pose proof (scan_iter_break _ _ _ _ _ _ _ _ Hb) as (Ht & _ & _).
  apply characterize_Call in Hc as (rto & rti & m & _ & _ & _ & _ & Hc).
  apply check_and_call_Call in Hc as (rro & rri & adf & _ & _ & _ & _ & Ha & ->).
  apply annotate_inv_dup_mers_keeps_rows in Ha. simpl. rewrite Ha.
  split; [reflexivity|]. split.
  - exists n, c. repeat split; assumption.
  - eapply scan_table_lift. exact Ht.
Qed.

Lemma call_discovery_regions_witness :
  InvCall.region_flag call_inv = region_flagged
  /\ lift_region_to_qry env_inv (InvCall.region_ref_discovery call_inv)
     = Some (InvCall.region_tig_discovery call_inv).
Proof.
  destruct (call_discovery_regions 1 env_inv region_flagged call_inv
              ltac:(vm_compute; reflexivity)) as (Hflag & _ & Hlift).
  split; [exact Hflag|exact Hlift].
Defined.

(** X7: the table of a returned call run-length encodes to more than two
    runs, the first and the last of them FWD: a call is always flanked by
    reference-oriented k-mers on both sides. *)
Theorem call_table_flanked (fuel : nat) (env : Env) (region : Region)
    (call : InvCall.t) :
  scan_for_inv fuel env region = Call call ->
  let state_rl := rl_encoder (map row (InvCall.df call)) in
  2 < len state_rl
  /\ rl_state <$> head state_rl = Some FWD
  /\ rl_state <$> list.last state_rl = Some FWD.
Proof.
  intros H.
  apply scan_for_inv_Call in H
    as (n & rr & c & rt & df & rto & rti & rro & rri & adf & m & H).
  destruct H as (_ & Hb & _ & _ & _ & _ & _ & _ & _ & _ & Ha & ->).
  apply annotate_inv_dup_mers_keeps_rows in Ha. simpl. rewrite Ha.
  pose proof (scan_iter_break _ _ _ _ _ _ _ _ Hb) as (_ & _ & Hd).
  apply scan_decide_break in Hd as (_ & _ & _ & _ & Hlen & Hh & Hl).
  repeat split; assumption.
Qed.

Lemma call_table_flanked_witness :
  2 < len (rl_encoder (map row (InvCall.df call_inv))).
Proof.
  exact (proj1 (call_table_flanked 1 env_inv region_flagged call_inv
                  ltac:(vm_compute; reflexivity))).
Defined.

Lemma py_index_inner (l : list Run) :
  2 < len l -> is_Some (py_index l 1) /\ is_Some (py_index l (-2)).
Proof.
  unfold len. intros H. split.
  - change 1 with (Z.of_nat 1). rewrite py_index_nonneg.
    apply lookup_lt_is_Some. lia.
  - change (-2) with (- Z.of_nat 2). rewrite py_index_neg by lia.
    apply lookup_lt_is_Some. lia.
Qed.

Lemma check_and_call_exceptions env rf rr rt df rto rti orro orri e :
  check_and_call env rf rr rt df rto rti orro orri = Raised e ->
  (e = TypeError /\ orro = None)
  \/ (e = AttributeError
      /\ exists rro, orro = Some rro
         /\ (orri = None
             \/ exists rri, orri = Some rri
                /\ (ref_kmers env (new_Region (chrom rro) (pos rro) (pos rri)) = None
                    \/ ref_kmers env (new_Region (chrom rro) (end_ rri) (end_ rro))
                       = None))).
Proof.
  unfold check_and_call. intros H.
  destruct orro as [rro|]; [|left; split; [congruence|reflexivity]].
  destruct (Qltb _ _); [discriminate|].
  destruct (Qltb _ _); [discriminate|].
  right.
  destruct orri as [rri|]; [|split; [congruence|exists rro; split; [reflexivity|now left]]].
  destruct (annotate_inv_dup_mers env df rro rri rto rti rr) as [e'|adf] eqn:Ea;
    [|discriminate].
  injection H as <-. unfold annotate_inv_dup_mers, ref_set in Ea.
  destruct (ref_kmers env (new_Region (chrom rro) (pos rro) (pos rri))) eqn:E1.
  - destruct (ref_kmers env (new_Region (chrom rro) (end_ rri) (end_ rro))) eqn:E2;
      [discriminate|].
    split; [congruence|]. exists rro. split; [reflexivity|]. right.
    exists rri. split; [reflexivity|now right].
  - split; [congruence|]. exists rro. split; [reflexivity|]. right.
    exists rri. split; [reflexivity|now left].
Qed.

(** X8: the only exceptions [scan_for_inv] can end with come from a [None]
    handed back by a collaborator after the loop: [TypeError] when the outer
    contig region does not lift to the reference, [AttributeError] when the
    inner one does not or when [ref_kmers] gives no table for a duplication
    region.  The indexing of the run-length records ([state_rl[1]],
    [state_rl[-2]], [state_rl_inv[0]], [state_rl_inv[-1]]) and the maximum of
    the inverted run lengths never fail, and the [RuntimeError] of the
    structural check is never raised. *)
Theorem scan_for_inv_exceptions (fuel : nat) (env : Env) (region : Region)
    (e : PyError) :
  scan_for_inv fuel env region = Raised e ->
  exists rr rt df rto rti,
    scan_table env region rr = inr (rt, df)
    /\ tig_outer_of env rt (rl_encoder df) = Some rto
    /\ tig_inner_of env rt (inv_runs (rl_encoder df)) = Some rti
    /\ ((e = TypeError /\ lift_region_to_sub env rto = None)
        \/ (e = AttributeError
            /\ exists rro, lift_region_to_sub env rto = Some rro
               /\ (lift_region_to_sub env rti = None
                   \/ exists rri, lift_region_to_sub env rti = Some rri
                      /\ (ref_kmers env (new_Region (chrom rro) (pos rro) (pos rri)) = None
                          \/ ref_kmers env (new_Region (chrom rro) (end_ rri) (end_ rro))
                             = None)))).
Proof.
  unfold scan_for_inv.
  generalize (initial_region_ref env region) as rr0, 0 as c0.
  induction fuel as [|fuel IH]; intros rr0 c0 H; simpl in H; [discriminate|].
  destruct (scan_iter env region rr0 c0) as [res|rr2 rt df rl|rr1 c1] eqn:Hit.
  - apply scan_iter_return in Hit as (reason & ->). discriminate.
  - pose proof (scan_iter_break _ _ _ _ _ _ _ _ Hit) as (Ht & _ & Hd).
    apply scan_decide_break in Hd as (-> & _ & _ & -> & Hlen & Hh & Hl).
    exists rr0, rt, df.
    unfold characterize in H. cbv zeta in H.
    change (filter (λ val, rl_state val = 2) (rl_encoder df))
      with (inv_runs (rl_encoder df)) in H.
    destruct (existsb (λ record, rl_state record =? 2) (rl_encoder df)) eqn:Hex;
      [|discriminate].
    apply existsb_rev in Hex as (run & Hin & Hst).
    assert (Hrun : run ∈ inv_runs (rl_encoder df)) by (apply inv_runs_elem; now split).
    simpl negb in H. cbv iota in H.
    destruct (np_max (map rl_count (inv_runs (rl_encoder df)))) as [m|] eqn:Hm.
    2: { destruct (inv_runs (rl_encoder df)); [inversion Hrun|discriminate]. }
    destruct (m <? MIN_INV_KMER_RUN); [discriminate|].
    rewrite py_index_0, py_index_last in H.
    destruct (head (rl_encoder df)) as [first|]; [|discriminate].
    destruct (list.last (rl_encoder df)) as [last|]; [|discriminate].
    injection Hh as Hh. injection Hl as Hl. rewrite Hh, Hl in H. simpl in H.
    destruct (py_index_inner _ Hlen) as [[a Ha] [b Hb]].
    unfold tig_outer_of in *. rewrite Ha, Hb in *.
    unfold tig_inner_of in *. rewrite py_index_0, py_index_last in *.
    destruct (head (inv_runs (rl_encoder df))) as [fr|] eqn:Ehead.
    2: { destruct (inv_runs (rl_encoder df)); [inversion Hrun|discriminate]. }
    destruct (list.last (inv_runs (rl_encoder df))) as [lr|] eqn:Elast.
    2: { apply last_None in Elast. rewrite Elast in Hrun. inversion Hrun. }
    eexists. eexists. split; [exact Ht|]. split; [reflexivity|]. split; [reflexivity|].
    apply check_and_call_exceptions in H as [[-> Ho]|[-> Hcases]].
    + left. split; [reflexivity|exact Ho].
    + right. split; [reflexivity|exact Hcases].
  - apply IH in H. exact H.
Qed.

Lemma scan_for_inv_exceptions_witness :
  scan_for_inv 1 env_no_lift region_flagged = Raised TypeError
  /\ exists rr rt df rto rti,
       scan_table env_no_lift region_flagged rr = inr (rt, df)
       /\ tig_outer_of env_no_lift rt (rl_encoder df) = Some rto
       /\ tig_inner_of env_no_lift rt (inv_runs (rl_encoder df)) = Some rti.
Proof.
  assert (H : scan_for_inv 1 env_no_lift region_flagged = Raised TypeError)
    by (vm_compute; reflexivity).
  split; [exact H|].
  destruct (scan_for_inv_exceptions 1 env_no_lift region_flagged TypeError H)
    as (rr & rt & df & rto & rti & Ht & Ho & Hi & _).
  exists rr, rt, df, rto, rti. repeat split; assumption.
Defined.

Lemma scan_iter_single_fwd (env : Env) (region rr : Region) (c : Z) :
  (forall rt df, scan_table env region rr = inr (rt, df) -> df <> [] ->
     exists run, rl_encoder df = [run] /\ rl_state run = FWD) ->
  (exists reason, scan_iter env region rr c = IterReturn (NoCall reason)
     /\ forall k, reason = NoInvertedAfterExpansions k ->
          k = c + 1 /\ MIN_EXP_COUNT <= k)
  \/ (exists rr', scan_iter env region rr c = IterContinue rr' (c + 1)
        /\ c + 1 < MIN_EXP_COUNT).
Proof.
  intros Hfwd. unfold scan_iter.
  destruct (scan_table env region rr) as [reason|[rt df]] eqn:Ht.
  - left. exists reason. split; [reflexivity|].
    intros k ->. unfold scan_table in Ht. repeat case_match; discriminate.
  - destruct df as [|r df].
    { left. exists NoInformativeKmers. split; [reflexivity|discriminate]. }
    destruct (Hfwd rt (r :: df) eq_refl ltac:(discriminate)) as (run & Hrl & Hst).
    change (len (r :: df) >? 0) with (Z.pos (Pos.of_succ_nat (length df)) >? 0).
    cbn [Z.gtb Z.compare].
    unfold scan_decide, no_inv_found, ref_on_both_sides. rewrite Hrl.
    change (len [run] =? 1) with true. rewrite py_index_0. simpl head.
    simpl state_is. rewrite Hst. simpl map.
    change (len [FWD] >? 2) with false. simpl.
    destruct (Z.geb_spec (c + 1) MIN_EXP_COUNT) as [Hge|Hlt].
    + left. eexists. split; [reflexivity|]. intros k [= <-]. split; [reflexivity|lia].
    + destruct (_ =? _).
      * left. exists ReachedLimits. split; [reflexivity|discriminate].
      * right. eexists. split; [reflexivity|lia].
Qed.

(** X10: when every state table the scan builds, that is the table of every
    search region the loop gets to, shows reference signal only (it is empty
    or encodes to a single FWD run), [scan_for_inv] returns no call within
    [MIN_EXP_COUNT] iterations, whatever [Region.expand] and the other
    collaborators do; if the reason is that no inverted states were found,
    the expansion count reported is exactly [MIN_EXP_COUNT]. *)
Theorem reference_only_gives_no_call (env : Env) (region : Region) (fuel : nat) :
  (forall n rr c rt df,
     reached env region n rr c ->
     scan_table env region rr = inr (rt, df) -> df <> [] ->
     exists run, rl_encoder df = [run] /\ rl_state run = FWD) ->
  (Z.to_nat MIN_EXP_COUNT <= fuel)%nat ->
  exists reason,
    scan_for_inv fuel env region = NoCall reason
    /\ forall k, reason = NoInvertedAfterExpansions k -> k = MIN_EXP_COUNT.
Proof.
  intros Hfwd Hfuel. unfold scan_for_inv.
  assert (Hr0 : reached env region 0 (initial_region_ref env region) 0)
    by constructor.
  destruct fuel as [|[|[|fuel]]];
    try (unfold MIN_EXP_COUNT in Hfuel; simpl in Hfuel; lia).
  simpl.
  destruct (scan_iter_single_fwd env region (initial_region_ref env region) 0
              (λ rt df, Hfwd _ _ _ rt df Hr0))
    as [(reason & -> & Hk)|(rr1 & Hit0 & _)].
  { exists reason. split; [reflexivity|].
    intros k Hr. apply Hk in Hr. unfold MIN_EXP_COUNT in *. lia. }
  rewrite Hit0.
  assert (Hr1 : reached env region 1 rr1 (0 + 1)).
  { eapply steps_S; [exact Hit0|constructor]. }
  destruct (scan_iter_single_fwd env region rr1 (0 + 1) (λ rt df, Hfwd _ _ _ rt df Hr1))
    as [(reason & -> & Hk)|(rr2 & Hit1 & _)].
  { exists reason. split; [reflexivity|].
    intros k Hr. apply Hk in Hr. unfold MIN_EXP_COUNT in *. lia. }
  rewrite Hit1.
  assert (Hr2 : reached env region 2 rr2 (0 + 1 + 1)).
  { eapply steps_S; [exact Hit0|]. eapply steps_S; [exact Hit1|constructor]. }
  destruct (scan_iter_single_fwd env region rr2 (0 + 1 + 1) (λ rt df, Hfwd _ _ _ rt df Hr2))
    as [(reason & -> & Hk)|(rr3 & _ & Hlt)].
  { exists reason. split; [reflexivity|].
    intros k Hr. apply Hk in Hr. unfold MIN_EXP_COUNT in *. lia. }
  unfold MIN_EXP_COUNT in Hlt. lia.
Qed.

Lemma reference_only_gives_no_call_witness :
  exists reason,
    scan_for_inv 3 env_fwd_short region_flagged = NoCall reason
    /\ forall k, reason = NoInvertedAfterExpansions k -> k = MIN_EXP_COUNT.
Proof.
  apply (reference_only_gives_no_call env_fwd_short region_flagged 3).
  - intros n rr c rt df Hr Ht _. exists (mkRun 0 300 0 299).
    assert (Hdf : df = table_fwd).
    { unfold reached in Hr.
      inversion Hr as [rr0 c0 E1 E2 E3 E4 E5
                      |rr0 c0 rr1 c1 n1 rr' c' Hit1 Hs1 E1 E2 E3 E4 E5]; subst.
      { vm_compute in Ht. now injection Ht as _ <-. }
      vm_compute in Hit1. injection Hit1 as <- <-.
      inversion Hs1 as [rr0 c0 E1 E2 E3 E4 E5
                       |rr0 c0 rr2 c2 n2 rr' c' Hit2 Hs2 E1 E2 E3 E4 E5]; subst.
      { vm_compute in Ht. now injection Ht as _ <-. }
      vm_compute in Hit2. injection Hit2 as <- <-.
      inversion Hs2 as [rr0 c0 E1 E2 E3 E4 E5
                       |rr0 c0 rr3 c3 n3 rr' c' Hit3 Hs3 E1 E2 E3 E4 E5]; subst.
      { vm_compute in Ht. now injection Ht as _ <-. }
      vm_compute in Hit3. discriminate. }
    subst df. split; [vm_compute; reflexivity|reflexivity].
  - vm_compute. lia.
Defined.

Lemma scan_iter_continue_covers (env : Env) (region rr : Region) (c : Z)
    (rr' : Region) (c' : Z) :
  expand_clamps env -> region_ok env rr ->
  expand_fits_int32 (df_fai env (chrom rr)) ->
  scan_iter env region rr c = IterContinue rr' c' ->
  chrom rr' = chrom rr /\ pos rr' <= pos rr /\ end_ rr <= end_ rr'.
Proof.
  intros Hclamp Hok Hfit Hit.
  apply scan_iter_continue in Hit as (rt & df & _ & Hd).
  apply scan_decide_continue in Hd as (_ & Hrr' & _).
  destruct (expand_balance_range (map rl_state (rl_encoder df))) as [Hb0 Hb1].
  pose proof (expand_bp_of_nonneg env rr Hok Hfit) as Hbp.
  destruct Hok as (Hpos & Hle & Hend).
  destruct (Hclamp rr (expand_bp_of rr) _ Hbp Hb0 Hb1 Hpos Hle Hend)
    as (Hch & _ & Hp & He & _).
  rewrite <- Hrr' in Hch, Hp, He. auto.
Qed.

Lemma steps_cover (env : Env) (region rr : Region) (c : Z) (n : nat)
    (rr' : Region) (c' : Z) :
  expand_clamps env -> region_ok env rr ->
  expand_fits_int32 (df_fai env (chrom rr)) ->
  steps env region rr c n rr' c' ->
  pos rr' <= pos rr /\ end_ rr <= end_ rr'.
Proof.
  intros Hclamp Hok Hfit Hs.
  induction Hs as [|rr c rr1 c1 n rr' c' Hit _ IH]; [lia|].
  destruct (scan_iter_continue_grows _ _ _ _ _ _ Hclamp Hok Hfit Hit)
    as (Hok1 & Hch1 & _).
  destruct (scan_iter_continue_covers _ _ _ _ _ _ Hclamp Hok Hfit Hit)
    as (_ & Hp & He).
  rewrite <- Hch1 in Hfit. specialize (IH Hok1 Hfit). lia.
Qed.

(** X11: with a [Region.expand] that clamps to the chromosome, a flagged
    region inside its chromosome and expansion sizes that fit [np.int32],
    the reference search region of every iteration, and so the reference
    discovery region of every call, is on the chromosome of the flagged
    region, lies inside that chromosome and contains the flagged region. *)
Theorem search_region_covers_flagged (env : Env) (region : Region) :
  expand_clamps env ->
  region_ok env region ->
  expand_fits_int32 (df_fai env (chrom region)) ->
  (forall n rr c,
     reached env region n rr c ->
     chrom rr = chrom region
     /\ 0 <= pos rr /\ pos rr <= pos region
     /\ end_ region <= end_ rr /\ end_ rr <= df_fai env (chrom region))
  /\ (forall fuel call,
     scan_for_inv fuel env region = Call call ->
     let rd := InvCall.region_ref_discovery call in
     chrom rd = chrom region
     /\ 0 <= pos rd /\ pos rd <= pos region
     /\ end_ region <= end_ rd /\ end_ rd <= df_fai env (chrom region)).
Proof.
  intros Hclamp Hok Hfit.
  assert (Hreach : forall n rr c,
     reached env region n rr c ->
     chrom rr = chrom region
     /\ 0 <= pos rr /\ pos rr <= pos region
     /\ end_ region <= end_ rr /\ end_ rr <= df_fai env (chrom region)).
  { intros n rr c Hr.
    destruct (initial_region_ref_ok env region Hclamp Hok) as (Hok0 & Hch0 & _).
    assert (Hfit0 : expand_fits_int32
                      (df_fai env (chrom (initial_region_ref env region))))
      by now rewrite Hch0.
    destruct (steps_grow _ _ _ _ _ _ _ Hclamp Hok0 Hfit0 Hr) as (Hokr & Hchr & _).
    destruct (steps_cover _ _ _ _ _ _ _ Hclamp Hok0 Hfit0 Hr) as (Hp & He).
    assert (H0 : (0 <= 0.5)%Q) by (unfold Qle; simpl; lia).
    assert (H1 : (0.5 <= 1)%Q) by (unfold Qle; simpl; lia).
    assert (Hbp : 0 <= INITIAL_EXPAND) by (unfold INITIAL_EXPAND; lia).
    destruct Hok as (Hpos & Hle & Hend).
    destruct (Hclamp region INITIAL_EXPAND _ Hbp H0 H1 Hpos Hle Hend)
      as (_ & _ & Hp0 & He0 & _).
    fold (initial_region_ref env region) in Hp0, He0.
    destruct Hokr as (Hrp & _ & Hre).
    rewrite Hchr, Hch0 in Hre.
    split; [congruence|lia]. }
  split; [exact Hreach|].
  intros fuel call H rd. subst rd.
  apply scan_for_inv_Call in H
    as (n & rr & c & rt & df & rto & rti & rro & rri & adf & m & H).
  destruct H as (Hr & _ & _ & _ & _ & _ & _ & _ & _ & _ & _ & ->).
  simpl. exact (Hreach _ _ _ Hr).
Qed.

Lemma search_region_covers_flagged_witness :
  pos (InvCall.region_ref_discovery call_inv) <= pos region_flagged
  /\ end_ region_flagged <= end_ (InvCall.region_ref_discovery call_inv).
Proof.
  assert (Hok : region_ok env_inv region_flagged)
    by (unfold region_ok; simpl; lia).
  assert (Hfit : expand_fits_int32 100000) by (vm_compute; reflexivity).
  destruct (search_region_covers_flagged env_inv region_flagged
              (env_of_clamps _ _ _ _) Hok Hfit) as (_ & Hcall).
  destruct (Hcall 1%nat call_inv ltac:(vm_compute; reflexivity))
    as (_ & _ & Hp & He & _).
  split; [exact Hp|exact He].
Defined.

(** ** Further properties of [InvCall] *)

Lemma format_int_inj (a b : Z) : format_int a = format_int b -> a = b.
Proof.
  unfold format_int. intros H.
  assert (Hnil : forall n, Z.to_int n <> Decimal.Pos Decimal.Nil
                           /\ Z.to_int n <> Decimal.Neg Decimal.Nil).
  { intros [|p|p]; simpl; split; try discriminate;
      intros [= E]; now apply (DecimalPos.Unsigned.to_uint_nonnil p). }
  apply DecimalZ.to_int_inj.
  pose proof (NilZero.isi (Z.to_int a) (proj1 (Hnil a)) (proj2 (Hnil a))) as Ha.
  pose proof (NilZero.isi (Z.to_int b) (proj1 (Hnil b)) (proj2 (Hnil b))) as Hb.
  rewrite H in Ha. congruence.
Qed.

Lemma string_of_uint_no_I (d : Decimal.uint) :
  has_char "I" (NilEmpty.string_of_uint d) = false.
Proof. induction d; simpl; auto. Qed.

Lemma format_int_no_I (n : Z) : has_char "I" (format_int n) = false.
Proof.
  unfold format_int, NilZero.string_of_int, NilZero.string_of_uint.
  destruct (Z.to_int n) as [d|d]; destruct d; simpl;
    try reflexivity; apply string_of_uint_no_I.
Qed.

Lemma has_char_append (c : ascii) (s t : string) :
  has_char c (String.append s t) = has_char c s || has_char c t.
Proof.
  induction s as [|a s IH]; simpl; [reflexivity|].
  now rewrite IH, orb_assoc.
Qed.

(** A string is split in one way only at the first occurrence of a
    character. *)
Lemma append_split_at_char (c : ascii) (s1 s2 t1 t2 : string) :
  has_char c s1 = false -> has_char c s2 = false ->
  String.append s1 (String c t1) = String.append s2 (String c t2) ->
  s1 = s2 /\ t1 = t2.
Proof.
  revert s2. induction s1 as [|a s1 IH]; intros [|b s2] H1 H2 H; simpl in *.
  - injection H as <-. auto.
  - injection H as <- _. rewrite Ascii.eqb_refl in H2. discriminate.
  - injection H as -> _. rewrite Ascii.eqb_refl in H1. discriminate.
  - injection H as <- H.
    apply orb_false_iff in H1 as [_ H1]. apply orb_false_iff in H2 as [_ H2].
    destruct (IH s2 H1 H2 H) as [-> ->]. auto.
Qed.

Lemma append_same_length (s1 s2 t1 t2 : string) :
  String.length s1 = String.length s2 ->
  String.append s1 t1 = String.append s2 t2 -> s1 = s2 /\ t1 = t2.
Proof.
  revert s2. induction s1 as [|a s1 IH]; intros [|b s2] Hlen H; simpl in *;
    try discriminate; [auto|].
  injection H as <- H. injection Hlen as Hlen.
  destruct (IH s2 Hlen H) as [-> ->]. auto.
Qed.

Lemma append_cons (a : ascii) (p t : string) :
  String.append (String a p) t = String a (String.append p t).
Proof. reflexivity. Qed.

Lemma append_INV (p s : string) :
  String.append p (String.append "-INV-" s)
  = String.append (String.append p "-") (String "I" (String.append "NV-" s)).
Proof.
  induction p as [|a p IH]; [reflexivity|].
  rewrite (append_cons a p (String.append "-INV-" s)), (append_cons a p "-"),
    (append_cons a (String.append p "-")).
  f_equal. exact IH.
Qed.

Lemma length_append_string (p t : string) :
  String.length (String.append p t) = (String.length p + String.length t)%nat.
Proof.
  induction p as [|a p IH]; [reflexivity|].
  rewrite append_cons. simpl. now rewrite IH.
Qed.

(** X12: on one chromosome the [id] (and so the [repr]) of a call identifies
    its outer reference region: two calls whose outer reference regions are on
    the same chromosome and whose [repr] strings are equal have the same start
    position, the same [svlen] and the same end position. *)
Theorem InvCall_repr_identifies_region
    (ro1 ri1 to1 ti1 rd1 td1 rf1 : Region) (df1 : list ARow)
    (ro2 ri2 to2 ti2 rd2 td2 rf2 : Region) (df2 : list ARow) :
  let call1 := InvCall.init ro1 ri1 to1 ti1 rd1 td1 rf1 df1 in
  let call2 := InvCall.init ro2 ri2 to2 ti2 rd2 td2 rf2 df2 in
  chrom ro1 = chrom ro2 ->
  InvCall_repr call1 = InvCall_repr call2 ->
  pos ro1 = pos ro2
  /\ InvCall.svlen call1 = InvCall.svlen call2
  /\ end_ ro1 = end_ ro2.
Proof.
  intros call1 call2 Hch H. subst call1 call2.
  unfold InvCall_repr, InvCall.init in H. cbn [InvCall.id InvCall.svlen] in *.
  rewrite Hch in H.
  apply (append_same_length _ _ _ _ eq_refl) in H as [_ H].
  apply (append_same_length "-" "-" _ _ eq_refl) in H as [_ H].
  rewrite !append_INV in H.
  apply append_split_at_char in H as [Hp Hs].
  - assert (Hlen : String.length (format_int (pos ro1 + 1))
                   = String.length (format_int (pos ro2 + 1))).
    { apply (f_equal String.length) in Hp.
      rewrite !length_append_string in Hp. simpl in Hp. lia. }
    apply (append_same_length _ _ _ _ Hlen) in Hp as [Hp _].
    apply (append_same_length "NV-" "NV-" _ _ eq_refl) in Hs as [_ Hs].
    apply format_int_inj in Hp, Hs. simpl. unfold region_len in *. lia.
  - rewrite has_char_append. now rewrite format_int_no_I.
  - rewrite has_char_append. now rewrite format_int_no_I.
Qed.

Lemma InvCall_repr_identifies_region_witness :
  pos (InvCall.region_ref_outer call_inv) = 8100
  /\ InvCall.svlen call_inv = 330.
Proof.
  destruct (InvCall_repr_identifies_region
              (InvCall.region_ref_outer call_inv) region_flagged region_flagged
              region_flagged region_flagged region_flagged region_flagged []
              (mkRegion "chr1" 8100 8430 false) region_flagged region_flagged
              region_flagged region_flagged region_flagged region_flagged []
              ltac:(vm_compute; reflexivity) ltac:(vm_compute; reflexivity))
    as (Hp & Hs & _).
  split; [exact Hp|].
  assert (E : InvCall.svlen call_inv
              = InvCall.svlen (InvCall.init (InvCall.region_ref_outer call_inv)
                  region_flagged region_flagged region_flagged region_flagged
                  region_flagged region_flagged []))
    by (vm_compute; reflexivity).
  rewrite E. exact Hs.
Defined.

(** ** Nesting of the breakpoint regions *)

Lemma rl_encoder_from_ordered (rows : list Row) (cur : Run) :
  rl_pos cur <= rl_end cur ->
  Forall (λ r, rl_end cur < INDEX r) rows ->
  StronglySorted (λ a b, INDEX a < INDEX b) rows ->
  Forall (λ r, rl_pos cur <= rl_pos r /\ rl_pos r <= rl_end r)
    (rl_encoder_from cur rows)
  /\ StronglySorted (λ a b, rl_end a < rl_pos b) (rl_encoder_from cur rows).
Proof.
  revert cur. induction rows as [|r rest IH]; intros cur Hcur Hafter Hsorted; simpl.
  - split; [|repeat constructor]. constructor; [lia|constructor].
  - apply Forall_cons in Hafter as [Hr Hafter].
    apply StronglySorted_inv in Hsorted as [Hsorted Hlt].
    destruct (STATE r =? rl_state cur).
    + destruct (IH (mkRun (rl_state cur) (rl_count cur + 1) (rl_pos cur) (INDEX r)))
        as [Hall Hs]; simpl; [lia|exact Hlt|exact Hsorted|].
      split; [exact Hall|exact Hs].
    + destruct (IH (mkRun (STATE r) 1 (INDEX r) (INDEX r)))
        as [Hall Hs]; simpl; [lia|exact Hlt|exact Hsorted|].
      simpl in Hall. split.
      * constructor; [lia|].
        eapply Forall_impl; [exact Hall|]. simpl. intros x Hx. lia.
      * constructor; [exact Hs|].
        eapply Forall_impl; [exact Hall|]. simpl. intros x Hx. lia.
Qed.

(** On a table whose contig indices increase, the runs follow one another:
    each run starts no later than it ends and ends before the next starts. *)
Lemma rl_encoder_ordered (df : list Row) :
  StronglySorted (λ a b, INDEX a < INDEX b) df ->
  Forall (λ r, rl_pos r <= rl_end r) (rl_encoder df)
  /\ StronglySorted (λ a b, rl_end a < rl_pos b) (rl_encoder df).
Proof.
  destruct df as [|r rest]; simpl; intros Hsorted.
  - split; constructor.
  - apply StronglySorted_inv in Hsorted as [Hsorted Hlt].
    destruct (rl_encoder_from_ordered rest (mkRun (STATE r) 1 (INDEX r) (INDEX r)))
      as [Hall Hs]; simpl; [lia|exact Hlt|exact Hsorted|].
    split; [|exact Hs].
    eapply Forall_impl; [exact Hall|]. simpl. intros x Hx. lia.
Qed.

Lemma StronglySorted_lookup_lt {A} (R : A -> A -> Prop) (l : list A)
    (i j : nat) (a b : A) :
  StronglySorted R l -> (i < j)%nat ->
  l !! i = Some a -> l !! j = Some b -> R a b.
Proof.
  intros Hs. revert i j. induction Hs as [|x l Hs IH Hall]; intros i j Hij Hi Hj.
  - discriminate.
  - destruct j as [|j]; [lia|]. simpl in Hj.
    destruct i as [|i].
    + injection Hi as <-. rewrite Forall_forall in Hall.
      apply Hall. apply list_elem_of_lookup. eauto.
    + simpl in Hi. apply (IH i j); [lia|assumption..].
Qed.

Lemma filter_head_last_sorted {A} (R : A -> A -> Prop) (P : A -> Prop)
    `{forall x, Decision (P x)} (l : list A) (a b : A) :
  StronglySorted R l ->
  head (filter P l) = Some a -> list.last (filter P l) = Some b ->
  a = b \/ R a b.
Proof.
  intros Hs. induction Hs as [|x l Hs IH Hall]; intros Ha Hb.
  - discriminate.
  - rewrite filter_cons in Ha, Hb.
    destruct (decide (P x)) as [Hx|Hx]; [|now apply IH].
    simpl in Ha. injection Ha as <-.
    destruct (filter P l) as [|y ys] eqn:Ef.
    + simpl in Hb. injection Hb as <-. now left.
    + right. rewrite Forall_forall in Hall. apply Hall.
      assert (Hin : b ∈ filter P l).
      { rewrite Ef. rewrite last_cons_cons in Hb.
        rewrite last_lookup in Hb. apply list_elem_of_lookup. eauto. }
      apply list_elem_of_filter in Hin. tauto.
Qed.

(** X13: when the contig indices of the state table increase from row to
    row and [k_size] is not negative, the breakpoint regions of a returned
    call are nested on the contig: the inner region starts no earlier and
    ends no later than the outer region, and neither region has its end
    before its start. *)
Theorem call_inner_within_outer (fuel : nat) (env : Env) (region : Region)
    (call : InvCall.t) :
  scan_for_inv fuel env region = Call call ->
  StronglySorted (λ a b, INDEX a < INDEX b) (map row (InvCall.df call)) ->
  0 <= k_size env ->
  let outer := InvCall.region_tig_outer call in
  let inner := InvCall.region_tig_inner call in
  pos outer <= pos inner
  /\ pos inner <= end_ inner
  /\ end_ inner <= end_ outer.
Proof.
  intros H Hsorted Hk.
  apply scan_for_inv_Call in H
    as (n & rr & c & rt & df & rto & rti & rro & rri & adf & m & H).
  destruct H as (_ & Hb & Hm & _ & Hto & Hti & _ & _ & _ & _ & Ha & ->).
  apply annotate_inv_dup_mers_keeps_rows in Ha. simpl in *. rewrite Ha in Hsorted.
  pose proof (scan_iter_break _ _ _ _ _ _ _ _ Hb) as (_ & _ & Hd).
  apply scan_decide_break in Hd as (_ & _ & _ & _ & Hlen & Hh & Hl).
  destruct (rl_encoder_ordered df Hsorted) as [Hwf Hord].
  set (state_rl := rl_encoder df) in *. unfold len in Hlen.
  (* the four runs the regions are built from *)
  unfold tig_outer_of in Hto.
  change 1 with (Z.of_nat 1) in Hto. rewrite py_index_nonneg in Hto.
  change (-2) with (- Z.of_nat 2) in Hto. rewrite py_index_neg in Hto by lia.
  destruct (state_rl !! 1%nat) as [r1|] eqn:E1; [|discriminate].
  destruct (state_rl !! (length state_rl - 2)%nat) as [rn2|] eqn:E2; [|discriminate].
  injection Hto as <-.
  unfold tig_inner_of in Hti. rewrite py_index_0, py_index_last in Hti.
  destruct (head (inv_runs state_rl)) as [fr|] eqn:Ef; [|discriminate].
  destruct (list.last (inv_runs state_rl)) as [lr|] eqn:El; [|discriminate].
  injection Hti as <-. simpl.
  (* where the first and the last inverted run sit *)
  assert (Hfr : fr ∈ inv_runs state_rl).
  { destruct (inv_runs state_rl); [discriminate|]. injection Ef as ->. left. }
  assert (Hlr : lr ∈ inv_runs state_rl).
  { rewrite last_lookup in El. apply list_elem_of_lookup. eauto. }
  apply inv_runs_elem in Hfr as [Hfr Hfs]. apply inv_runs_elem in Hlr as [Hlr Hls].
  apply list_elem_of_lookup in Hfr as [jf Hjf].
  apply list_elem_of_lookup in Hlr as [jl Hjl].
  assert (Hjf0 : jf <> 0%nat).
  { intros ->. rewrite <- head_lookup in Hjf. rewrite Hjf in Hh.
    injection Hh as Hh. unfold FWD, REV in *. lia. }
  assert (Hjln : jl <> (length state_rl - 1)%nat).
  { intros ->. rewrite last_lookup in Hl.
    replace (Init.Nat.pred (length state_rl)) with (length state_rl - 1)%nat in Hl by lia.
    rewrite Hjl in Hl. injection Hl as Hl. unfold FWD, REV in *. lia. }
  pose proof (lookup_lt_Some _ _ _ Hjl) as Hjlt.
  rewrite Forall_forall in Hwf.
  assert (Hw : forall j x, state_rl !! j = Some x -> rl_pos x <= rl_end x).
  { intros j x Hx. apply Hwf. apply list_elem_of_lookup. eauto. }
  (* outer start against inner start *)
  assert (Hstart : rl_pos r1 <= rl_pos fr).
  { destruct (decide (jf = 1%nat)) as [->|Hne].
    - rewrite E1 in Hjf. injection Hjf as <-. lia.
    - pose proof (StronglySorted_lookup_lt _ _ 1 jf r1 fr Hord ltac:(lia) E1 Hjf)
        as Hx. simpl in Hx.
      pose proof (Hw _ _ E1). lia. }
  (* inner end against outer end *)
  assert (Hend : rl_end lr <= rl_end rn2).
  { destruct (decide (jl = (length state_rl - 2)%nat)) as [->|Hne].
    - rewrite E2 in Hjl. injection Hjl as <-. lia.
    - pose proof (StronglySorted_lookup_lt _ _ jl (length state_rl - 2) lr rn2
                    Hord ltac:(lia) Hjl E2) as Hx. simpl in Hx.
      pose proof (Hw _ _ E2). lia. }
  (* first inverted run against last inverted run *)
  assert (Hmid : rl_pos fr <= rl_end lr).
  { destruct (filter_head_last_sorted _ (λ record, rl_state record = REV)
                state_rl fr lr Hord Ef El) as [->|Hlt].
    - eauto.
    - simpl in Hlt. pose proof (Hw _ _ Hjf). pose proof (Hw _ _ Hjl). lia. }
  lia.
Qed.

Lemma index_increasing_sorted (df : list Row) :
  index_increasing df = true ->
  StronglySorted (λ a b, INDEX a < INDEX b) df.
Proof.
  intros H. apply Sorted_StronglySorted.
  { intros a b c Hab Hbc. lia. }
  induction df as [|a [|b rest] IH]; [constructor|repeat constructor|].
  simpl in H. apply andb_true_iff in H as [Hab H].
  constructor; [now apply IH|]. constructor. now apply Z.ltb_lt.
Qed.

Lemma call_inner_within_outer_witness :
  pos (InvCall.region_tig_outer call_inv) <= pos (InvCall.region_tig_inner call_inv)
  /\ end_ (InvCall.region_tig_inner call_inv) <= end_ (InvCall.region_tig_outer call_inv).
Proof.
  destruct (call_inner_within_outer 1 env_inv region_flagged call_inv
              ltac:(vm_compute; reflexivity)
              (index_increasing_sorted (map row (InvCall.df call_inv))
                 ltac:(vm_compute; reflexivity))
              ltac:(vm_compute; discriminate)) as (Hs & _ & He).
  split; [exact Hs|exact He].
Defined.

(** ** Properties of the log *)

Lemma first_max_mer_Some (counts : list (Z * Z)) (m : Z) :
  np_max (map snd counts) = Some m -> is_Some (first_max_mer counts m).
Proof.
  intros H. apply np_max_elem in H.
  apply list_elem_of_In, in_map_iff in H as ([k c] & Hc & Hin). simpl in Hc. subst c.
  unfold first_max_mer.
  assert (Hf : (k, m) ∈ filter (λ kc : Z * Z, kc.2 = m) counts).
  { apply list_elem_of_filter. split; [reflexivity|now apply list_elem_of_In]. }
  destruct (filter (λ kc : Z * Z, kc.2 = m) counts); [inversion Hf|].
  simpl. eauto.
Qed.

Lemma scan_table_log_result env fmt region region_flag rr :
  (scan_table_log env fmt region region_flag rr).2
  = match scan_table env region rr with
    | inl reason => inl (NoCall reason)
    | inr x => inr x
    end.
Proof.
  unfold scan_table_log, scan_table.
  destruct (lift_region_to_qry env rr) as [rt|]; [|reflexivity].
  destruct (ref_kmers env rr) as [counts|]; [|reflexivity].
  destruct (np_max (map snd counts)) as [m|] eqn:Hm; [|reflexivity].
  destruct (m >? MAX_REF_KMER_COUNT); [|reflexivity].
  destruct (first_max_mer_Some _ _ Hm) as [k ->]. reflexivity.
Qed.

Lemma scan_decide_log_result env rr rt df c :
  (scan_decide_log env rr rt df c).2 = scan_decide env rr rt df c.
Proof.
  unfold scan_decide_log, scan_decide.
  repeat case_match; reflexivity.
Qed.

Lemma scan_iter_log_result env fmt region region_flag rr c :
  (scan_iter_log env fmt region region_flag rr c).2 = scan_iter env region rr c.
Proof.
  unfold scan_iter_log, scan_iter.
  pose proof (scan_table_log_result env fmt region region_flag rr) as Ht.
  destruct (scan_table_log env fmt region region_flag rr) as [msgs [r|[rt df]]];
    simpl in Ht; destruct (scan_table env region rr) as [reason|[rt' df']];
    try discriminate.
  - now injection Ht as ->.
  - injection Ht as <- <-. destruct (len df >? 0); [|reflexivity].
    rewrite <- scan_decide_log_result.
    now destruct (scan_decide_log env rr rt df (c + 1)).
Qed.

Lemma check_and_call_log_result env rf rr rt df rto rti orro orri :
  (check_and_call_log env rf rr rt df rto rti orro orri).2
  = check_and_call env rf rr rt df rto rti orro orri.
Proof.
  unfold check_and_call_log, check_and_call.
  repeat case_match; reflexivity.
Qed.

Lemma characterize_log_result env rf rr rt df state_rl :
  (characterize_log env rf rr rt df state_rl).2 = characterize env rf rr rt df state_rl.
Proof.
  unfold characterize_log, characterize.
  repeat case_match; try reflexivity. apply check_and_call_log_result.
Qed.

Lemma scan_loop_log_result fuel env fmt region rf rr c :
  (scan_loop_log fuel env fmt region rf rr c).2 = scan_loop fuel env region rf rr c.
Proof.
  revert rr c. induction fuel as [|fuel IH]; intros rr c; simpl; [reflexivity|].
  rewrite <- (scan_iter_log_result env fmt region rf rr c).
  destruct (scan_iter_log env fmt region rf rr c) as [msgs [r|rr2 rt df rl|rr1 c1]];
    simpl.
  - reflexivity.
  - rewrite <- characterize_log_result.
    now destruct (characterize_log env rf rr2 rt df rl).
  - rewrite <- IH. now destruct (scan_loop_log fuel env fmt region rf rr1 c1).
Qed.

Lemma log_shape_app fmt rf res msgs body pre :
  log_shape fmt rf res msgs body -> log_shape fmt rf res (pre ++ msgs) (pre ++ body).
Proof.
  unfold log_shape. destruct res; try (now intros ->).
  intros (m & -> & Hm). exists m. split; [now rewrite app_assoc|exact Hm].
Qed.

Lemma scanning_line_intro fmt rr : scanning_line fmt (msg_scanning fmt rr).
Proof. now exists rr. Qed.

Lemma scan_table_log_shape env fmt region rf rr :
  let '(msgs, r) := scan_table_log env fmt region rf rr in
  match r with
  | inl res =>
      exists body, Forall (scanning_line fmt) body
        /\ log_shape fmt rf res msgs body
        /\ forall k, res <> NoCall (NoInvertedAfterExpansions k)
  | inr _ => msgs = [msg_scanning fmt rr]
  end.
Proof.
  unfold scan_table_log.
  destruct (lift_region_to_qry env rr) as [rt|].
  2: { exists []. split; [constructor|]. split; [|discriminate].
       exists (msg_no_lift fmt None). split; reflexivity. }
  assert (Hline : Forall (scanning_line fmt) [msg_scanning fmt rr]).
  { constructor; [apply scanning_line_intro|constructor]. }
  destruct (ref_kmers env rr) as [counts|].
  2: { exists [msg_scanning fmt rr]. split; [exact Hline|]. split; [|discriminate].
       exists msg_no_ref_kmers. split; reflexivity. }
  destruct (np_max (map snd counts)) as [m|].
  2: { exists [msg_scanning fmt rr]. split; [exact Hline|]. split; [|discriminate].
       exists msg_no_ref_kmers. split; reflexivity. }
  destruct (m >? MAX_REF_KMER_COUNT); [|reflexivity].
  destruct (first_max_mer counts m) as [k|].
  - exists [msg_scanning fmt rr]. split; [exact Hline|]. split; [|discriminate].
    eexists. split; [reflexivity|]. now exists k.
  - exists [msg_scanning fmt rr]. split; [exact Hline|]. split; [reflexivity|discriminate].
Qed.

Lemma scan_iter_log_shape env fmt region rf rr c :
  let '(msgs, ir) := scan_iter_log env fmt region rf rr c in
  match ir with
  | IterReturn res =>
      exists body, Forall (scanning_line fmt) body
        /\ log_shape fmt rf res msgs body
        /\ forall k, res = NoCall (NoInvertedAfterExpansions k) ->
             k = c + Z.of_nat (length body)
  | _ => msgs = [msg_scanning fmt rr]
  end.
Proof.
  unfold scan_iter_log.
  pose proof (scan_table_log_shape env fmt region rf rr) as Ht.
  destruct (scan_table_log env fmt region rf rr) as [msgs [res|[rt df]]].
  - destruct Ht as (body & Hb & Hs & Hk). exists body.
    split; [exact Hb|]. split; [exact Hs|]. intros k E. now apply Hk in E.
  - subst msgs.
    assert (Hline : Forall (scanning_line fmt) [msg_scanning fmt rr]).
    { constructor; [apply scanning_line_intro|constructor]. }
    destruct (len df >? 0).
    + unfold scan_decide_log.
      destruct (no_inv_found (rl_encoder df) (c + 1)).
      * exists [msg_scanning fmt rr]. split; [exact Hline|]. split.
        -- eexists. split; reflexivity.
        -- intros k [= <-]. simpl. lia.
      * destruct (ref_on_both_sides _); [reflexivity|].
        destruct (_ =? _); [|reflexivity].
        exists [msg_scanning fmt rr]. split; [exact Hline|]. split; [|discriminate].
        eexists. split; reflexivity.
    + exists [msg_scanning fmt rr]. split; [exact Hline|]. split; [|discriminate].
      eexists. split; reflexivity.
Qed.

Lemma check_and_call_log_shape env fmt rf rr rt df rto rti orro orri :
  let '(msgs, res) := check_and_call_log env rf rr rt df rto rti orro orri in
  log_shape fmt rf res msgs []
  /\ forall k, res <> NoCall (NoInvertedAfterExpansions k).
Proof.
  unfold check_and_call_log.
  destruct orro as [rro|]; [|split; [reflexivity|discriminate]].
  destruct (Qltb _ _).
  { split; [|discriminate]. eexists. split; [reflexivity|]. simpl. eauto. }
  destruct (Qltb _ _).
  { split; [|discriminate]. eexists. split; [reflexivity|]. simpl. eauto. }
  destruct orri as [rri|]; [|split; [reflexivity|discriminate]].
  destruct (annotate_inv_dup_mers env df rro rri rto rti rr);
    split; try reflexivity; discriminate.
Qed.

Lemma characterize_log_shape env fmt rf rr rt df state_rl :
  let '(msgs, res) := characterize_log env rf rr rt df state_rl in
  log_shape fmt rf res msgs []
  /\ forall k, res <> NoCall (NoInvertedAfterExpansions k).
Proof.
  unfold characterize_log.
  destruct (negb _).
  { split; [|discriminate]. eexists. split; reflexivity. }
  cbv zeta. destruct (np_max _) as [m|]; [|split; [reflexivity|discriminate]].
  destruct (m <? MIN_INV_KMER_RUN).
  { split; [|discriminate]. eexists. split; reflexivity. }
  destruct (py_index state_rl 0); [|split; [reflexivity|discriminate]].
  destruct (py_index state_rl (-1)); [|split; [reflexivity|discriminate]].
  destruct (negb _ || negb _); [split; [reflexivity|discriminate]|].
  destruct (tig_outer_of env rt state_rl); [|split; [reflexivity|discriminate]].
  destruct (tig_inner_of env rt _); [|split; [reflexivity|discriminate]].
  apply check_and_call_log_shape.
Qed.

(** The messages of the loop: one "Scanning region" line for every iteration
    whose lift succeeded, then the message of the reason if there is one. *)
Lemma scan_loop_log_shape fuel env fmt region rf rr c :
  let '(msgs, res) := scan_loop_log fuel env fmt region rf rr c in
  exists body, Forall (scanning_line fmt) body
    /\ log_shape fmt rf res msgs body
    /\ forall k, res = NoCall (NoInvertedAfterExpansions k) ->
         k = c + Z.of_nat (length body).
Proof.
  revert rr c. induction fuel as [|fuel IH]; intros rr c; simpl.
  { exists []. split; [constructor|]. split; [reflexivity|discriminate]. }
  pose proof (scan_iter_log_shape env fmt region rf rr c) as Hit.
  pose proof (scan_iter_log_result env fmt region rf rr c) as Hres.
  destruct (scan_iter_log env fmt region rf rr c) as [msgs [res|rr2 rt df rl|rr1 c1]].
  - exact Hit.
  - subst msgs.
    pose proof (characterize_log_shape env fmt rf rr2 rt df rl) as Hc.
    destruct (characterize_log env rf rr2 rt df rl) as [msgs' res].
    destruct Hc as [Hs Hk].
    exists [msg_scanning fmt rr]. split.
    { constructor; [apply scanning_line_intro|constructor]. }
    split; [|intros k E; now apply Hk in E].
    apply (log_shape_app _ _ _ _ [] [msg_scanning fmt rr]) in Hs. exact Hs.
  - subst msgs. simpl in Hres. symmetry in Hres.
    apply scan_iter_continue in Hres as (rt & df & _ & Hd).
    apply scan_decide_continue in Hd as (-> & _).
    specialize (IH rr1 (c + 1)).
    destruct (scan_loop_log fuel env fmt region rf rr1 (c + 1)) as [msgs' res].
    destruct IH as (body & Hb & Hs & Hk).
    exists (msg_scanning fmt rr :: body). split.
    { constructor; [apply scanning_line_intro|exact Hb]. }
    split.
    + apply (log_shape_app _ _ _ _ _ [msg_scanning fmt rr]) in Hs. exact Hs.
    + intros k E. apply Hk in E. simpl length. lia.
Qed.

(** X14: [_write_log] does nothing without a log handle ([None] stays
    [None], whatever is logged), and with a handle it appends, for every
    message in turn, the message and a newline to what was written before,
    and leaves nothing unflushed. *)
Theorem write_log_appends_lines (msgs : list string) :
  write_all msgs None = None
  /\ forall f,
       write_all msgs (Some f)
       = Some (mkLogFile (written f ++ log_lines msgs)
                 (match msgs with [] => unflushed f | _ => 0%nat end)).
Proof.
  split.
  - induction msgs as [|m msgs IH]; [reflexivity|exact IH].
  - induction msgs as [|m msgs IH]; intros f.
    + unfold log_lines. simpl. rewrite app_nil_r. now destruct f.
    + unfold write_all in *. simpl fold_left. rewrite IH. simpl.
      f_equal. unfold log_lines. simpl. rewrite <- !app_assoc. simpl.
      f_equal. now destruct msgs.
Qed.

Lemma search_regions_lookup (env : Env) (region : Region) (fuel : nat) :
  forall rr c i r,
    search_regions fuel env region rr c !! i = Some r
    <-> (i < fuel)%nat /\ exists c', steps env region rr c i r c'.
Proof.
  induction fuel as [|fuel IH]; intros rr c i r.
  - simpl. split; [discriminate|intros [H _]; lia].
  - destruct i as [|i].
    + simpl. split.
      * intros [= <-]. split; [lia|]. exists c. constructor.
      * intros [_ [c' Hs]]. inversion Hs; subst. reflexivity.
    + simpl. destruct (scan_iter env region rr c) as [res|a b d e|rr1 c1] eqn:Hit.
      * split; [discriminate|]. intros [_ [c' Hs]]. inversion Hs; subst. congruence.
      * split; [discriminate|]. intros [_ [c' Hs]]. inversion Hs; subst. congruence.
      * rewrite IH. split.
        -- intros [Hlt [c' Hs]]. split; [lia|]. exists c'.
           eapply steps_S; [exact Hit|exact Hs].
        -- intros [Hlt [c' Hs]]. split; [lia|]. exists c'.
           inversion Hs as [|x1 x2 rr1' c1' x3 x4 x5 Hit' Hs']; subst.
           rewrite Hit in Hit'. injection Hit' as <- <-. exact Hs'.
Qed.

Lemma scanning_lines_cons (env : Env) (fmt : Fmt) (rr : Region) (rs : list Region) :
  scanning_lines env fmt (rr :: rs)
  = scanning_lines env fmt [rr] ++ scanning_lines env fmt rs.
Proof.
  unfold scanning_lines. rewrite !filter_cons, filter_nil.
  destruct (decide (is_Some (lift_region_to_qry env rr))); reflexivity.
Qed.

Lemma scanning_lines_lifted (env : Env) (fmt : Fmt) (rr rt : Region) :
  lift_region_to_qry env rr = Some rt ->
  scanning_lines env fmt [rr] = [msg_scanning fmt rr].
Proof.
  intros H. unfold scanning_lines. rewrite filter_cons, filter_nil.
  destruct (decide (is_Some (lift_region_to_qry env rr))) as [_|Hn];
    [reflexivity|]. exfalso. apply Hn. rewrite H. eauto.
Qed.

Lemma scanning_lines_not_lifted (env : Env) (fmt : Fmt) (rr : Region) :
  lift_region_to_qry env rr = None -> scanning_lines env fmt [rr] = [].
Proof.
  intros H. unfold scanning_lines. rewrite filter_cons, filter_nil.
  destruct (decide (is_Some (lift_region_to_qry env rr))) as [[x Hx]|_];
    [congruence|reflexivity].
Qed.

Lemma scan_table_log_lines env fmt region rf rr :
  let '(msgs, r) := scan_table_log env fmt region rf rr in
  match r with
  | inl res => log_shape fmt rf res msgs (scanning_lines env fmt [rr])
  | inr _ => msgs = scanning_lines env fmt [rr]
  end.
Proof.
  unfold scan_table_log.
  destruct (lift_region_to_qry env rr) as [rt|] eqn:Hl.
  2: { rewrite (scanning_lines_not_lifted _ _ _ Hl).
       exists (msg_no_lift fmt None). split; reflexivity. }
  rewrite (scanning_lines_lifted _ _ _ _ Hl).
  destruct (ref_kmers env rr) as [counts|].
  2: { exists msg_no_ref_kmers. split; reflexivity. }
  destruct (np_max (map snd counts)) as [m|].
  2: { exists msg_no_ref_kmers. split; reflexivity. }
  destruct (m >? MAX_REF_KMER_COUNT); [|reflexivity].
  destruct (first_max_mer counts m) as [k|]; [|reflexivity].
  eexists. split; [reflexivity|]. now exists k.
Qed.

Lemma scan_iter_log_lines env fmt region rf rr c :
  let '(msgs, ir) := scan_iter_log env fmt region rf rr c in
  match ir with
  | IterReturn res => log_shape fmt rf res msgs (scanning_lines env fmt [rr])
  | _ => msgs = scanning_lines env fmt [rr]
  end.
Proof.
  unfold scan_iter_log.
  pose proof (scan_table_log_lines env fmt region rf rr) as Ht.
  destruct (scan_table_log env fmt region rf rr) as [msgs [res|[rt df]]].
  - exact Ht.
  - subst msgs. destruct (len df >? 0).
    + unfold scan_decide_log.
      destruct (no_inv_found (rl_encoder df) (c + 1)).
      * eexists. split; reflexivity.
      * destruct (ref_on_both_sides _); [now rewrite app_nil_r|].
        destruct (_ =? _); [|now rewrite app_nil_r].
        eexists. split; reflexivity.
    + eexists. split; reflexivity.
Qed.

(** The messages of the loop: the "Scanning region" line of every search
    region that lifted, in the order of the iterations, then the message of
    the reason if there is one. *)
Lemma scan_loop_log_lines fuel env fmt region rf rr c :
  let '(msgs, res) := scan_loop_log fuel env fmt region rf rr c in
  log_shape fmt rf res msgs
    (scanning_lines env fmt (search_regions fuel env region rr c)).
Proof.
  revert rr c. induction fuel as [|fuel IH]; intros rr c; simpl; [reflexivity|].
  rewrite scanning_lines_cons.
  pose proof (scan_iter_log_lines env fmt region rf rr c) as Hit.
  pose proof (scan_iter_log_result env fmt region rf rr c) as Hres.
  destruct (scan_iter_log env fmt region rf rr c) as [msgs [res|rr2 rt df rl|rr1 c1]];
    simpl in Hres; rewrite <- Hres.
  - change (scanning_lines env fmt []) with (@nil string).
    now rewrite app_nil_r.
  - subst msgs.
    pose proof (characterize_log_shape env fmt rf rr2 rt df rl) as Hc.
    destruct (characterize_log env rf rr2 rt df rl) as [msgs' res].
    destruct Hc as [Hs _].
    now apply (log_shape_app _ _ _ _ [] (scanning_lines env fmt [rr])) in Hs.
  - subst msgs. specialize (IH rr1 c1).
    destruct (scan_loop_log fuel env fmt region rf rr1 c1) as [msgs' res].
    now apply log_shape_app.
Qed.

Lemma log_shape_body fmt rf reason msgs body body' :
  log_shape fmt rf (NoCall reason) msgs body ->
  log_shape fmt rf (NoCall reason) msgs body' ->
  body = body'.
Proof.
  intros (m & -> & _) (m' & E & _). now apply app_inj_tail in E.
Qed.

(** X15: logging does not change the outcome, and the messages of a scan
    are, in this order: the opening line with the flagged region and the
    flag id (['<No ID>'] when none is given); for the search region of each
    iteration in turn (the region the loop state holds at that iteration),
    its "Scanning region" line if the region lifted to the contig, the
    iteration that leaves the loop included; and, exactly when the scan
    returns no call, one closing line with the reason.  When the reason is
    that no inverted states were found, the number in that line is the
    number of "Scanning region" lines. *)
Theorem scan_log_lines (fuel : nat) (env : Env) (fmt : Fmt) (region : Region)
    (log : option LogFile) (flag_id : option string) :
  let res := scan_for_inv fuel env region in
  let visited := search_regions fuel env region (initial_region_ref env region) 0 in
  (scan_for_inv_log fuel env fmt region log flag_id).1 = res
  /\ (scan_for_inv_log fuel env fmt region log flag_id).2
     = write_all (scan_messages fuel env fmt region flag_id) log
  /\ (forall i rr,
        visited !! i = Some rr
        <-> (i < fuel)%nat /\ exists c, reached env region i rr c)
  /\ log_shape fmt region res (scan_messages fuel env fmt region flag_id)
       (msg_start fmt region (default "<No ID>" flag_id)
          :: scanning_lines env fmt visited)
  /\ forall k, res = NoCall (NoInvertedAfterExpansions k) ->
       k = Z.of_nat (length (scanning_lines env fmt visited)).
Proof.
  intros res visited. subst res visited.
  unfold scan_for_inv_log, scan_messages, scan_for_inv. simpl.
  rewrite <- (scan_loop_log_result fuel env fmt region region
                (initial_region_ref env region) 0).
  split; [reflexivity|]. split; [reflexivity|].
  split; [intros i rr; apply search_regions_lookup|].
  pose proof (scan_loop_log_shape fuel env fmt region region
                (initial_region_ref env region) 0) as H.
  pose proof (scan_loop_log_lines fuel env fmt region region
                (initial_region_ref env region) 0) as Hlines.
  destruct (scan_loop_log fuel env fmt region region (initial_region_ref env region) 0)
    as [msgs res].
  destruct H as (body & Hb & Hs & Hk). simpl. split.
  - apply (log_shape_app _ _ _ _ _ [msg_start fmt region (default "<No ID>" flag_id)])
      in Hlines. exact Hlines.
  - intros k E. specialize (Hk k E). subst res.
    rewrite (log_shape_body _ _ _ _ _ _ Hlines Hs). lia.
Qed.

Lemma scan_log_lines_witness :
  scan_messages 3 env_fwd (mkFmt chrom format_int) region_flagged None
  = [msg_start (mkFmt chrom format_int) region_flagged "<No ID>";
     msg_scanning (mkFmt chrom format_int) (mkRegion "chr1" 8000 12100 false);
     msg_scanning (mkFmt chrom format_int) (mkRegion "chr1" 4925 15175 false);
     msg_scanning (mkFmt chrom format_int) (mkRegion "chr1" 0 25625 false);
     "Found no inverted k-mer states after 3 expansion(s)"].
Proof.
  destruct (scan_log_lines 3 env_fwd (mkFmt chrom format_int) region_flagged None None)
    as (_ & _ & _ & Hs & _).
  assert (E : scan_for_inv 3 env_fwd region_flagged
              = NoCall (NoInvertedAfterExpansions 3)) by (vm_compute; reflexivity).
  rewrite E in Hs. destruct Hs as (m & Hm & Hr). simpl in Hr. subst m.
  rewrite Hm. vm_compute. reflexivity.
Defined.

(** X16: when the lift of the search region fails, the message logged does
    not name the region: the code formats the result of the lift, which is
    [None], so the closing line is always
    ["Could not lift contig region onto contigs: None"]. *)
Theorem lift_failure_message (fuel : nat) (env : Env) (fmt : Fmt) (region : Region)
    (flag_id : option string) :
  scan_for_inv fuel env region = NoCall LiftFailed ->
  list.last (scan_messages fuel env fmt region flag_id)
  = Some "Could not lift contig region onto contigs: None".
Proof.
  unfold scan_messages, scan_for_inv. intros H.
  rewrite <- (scan_loop_log_result fuel env fmt region region
                (initial_region_ref env region) 0) in H.
  pose proof (scan_loop_log_shape fuel env fmt region region
                (initial_region_ref env region) 0) as Hshape.
  destruct (scan_loop_log fuel env fmt region region (initial_region_ref env region) 0)
    as [msgs res].
  simpl in H. subst res. destruct Hshape as (body & _ & (m & -> & Hm) & _).
  simpl in Hm. subst m. simpl.
  rewrite app_comm_cons. apply last_snoc.
Qed.

Lemma lift_failure_message_witness :
  list.last (scan_messages 1 env_no_qry (mkFmt chrom format_int) region_flagged
               (Some "flag1"))
  = Some "Could not lift contig region onto contigs: None".
Proof.
  apply (lift_failure_message 1 env_no_qry (mkFmt chrom format_int)
           region_flagged (Some "flag1")).
  vm_compute. reflexivity.
Defined.
